(** * 4Sense: the streaming chat session engine of [src/main.ts]

    A shallow embedding of the plugin's chat transport
    ([callChatApiStream], [callChatApiWebSocket], [callChatApi]), of the
    reveal scheduler of [ChatModal] ([tickStreamingTyping]), of the
    snapshot tracker ([getSnapshotState], [readSnapshot]), of the chat log
    ([parseChatLog], [appendChatLog]) and of [extractArtifactPaths],
    together with the properties of the specification that concern them.

    JavaScript strings are sequences of UTF-16 code units; they are
    modelled as lists of [N].  Exceptions are explicit: a computation that
    can throw returns a [result]. *)

From Stdlib Require Import ZArith NArith QArith List String Ascii Lia Bool.
From Stdlib Require Import Sorted.
From stdpp Require Import base option list gmap.

Set Default Proof Using "Type".
Set Warnings "-register-all".
Set Warnings "-notation-overridden,-ambiguous-paths,-clear-no-such-hyp".
Local Open Scope N_scope.

(** ** JavaScript strings *)

Module JsString.

(** A string is the list of its UTF-16 code units. *)
Abbreviation jsstring := (list N).

(** An ASCII literal as a JavaScript string. *)
Definition js (s : string) : jsstring :=
  List.map N_of_ascii (list_ascii_of_string s).

(** The same with every apostrophe of the literal standing for a double
    quote, to write JSON texts. *)
Definition jsq (s : string) : jsstring :=
  List.map (fun c => if c =? 39 then 34 else c) (js s).

(** [a === b] on strings *)
Fixpoint eqb (a b : jsstring) : bool :=
  match a, b with
  | [], [] => true
  | x :: a', y :: b' => (x =? y) && eqb a' b'
  | _, _ => false
  end.

(** [WhiteSpace] and [LineTerminator] of ECMAScript: what
    [String.prototype.trim] strips and what [\s] matches. *)
Definition is_line_terminator (c : N) : bool :=
  (c =? 10) || (c =? 13) || (c =? 8232) || (c =? 8233).

Definition is_space (c : N) : bool :=
  (c =? 9) || (c =? 11) || (c =? 12) || (c =? 32) || (c =? 160)
  || (c =? 5760) || ((8192 <=? c) && (c <=? 8202)) || (c =? 8239)
  || (c =? 8287) || (c =? 12288) || (c =? 65279)
  || is_line_terminator c.

Fixpoint trimStart (s : jsstring) : jsstring :=
  match s with
  | c :: s' => if is_space c then trimStart s' else s
  | [] => []
  end.

Definition trimEnd (s : jsstring) : jsstring := rev (trimStart (rev s)).

(** [s.trim()] *)
Definition trim (s : jsstring) : jsstring := trimEnd (trimStart s).

(** [s.startsWith(p)] *)
Fixpoint startsWith (p s : jsstring) : bool :=
  match p, s with
  | [], _ => true
  | a :: p', b :: s' => (a =? b) && startsWith p' s'
  | _ :: _, [] => false
  end.

(** [s.includes(p)] *)
Fixpoint includes (p s : jsstring) : bool :=
  startsWith p s ||
  match s with
  | [] => false
  | _ :: s' => includes p s'
  end.

(** [s.endsWith(p)] *)
Definition endsWith (p s : jsstring) : bool := startsWith (rev p) (rev s).

(** [s.toLowerCase()].  Only the letters A-Z are mapped: the modelled code
    uses the method to search for the ASCII word "abort" and to compare
    file extensions with ASCII words, and what it does to the characters
    outside A-Z does not change the outcome of these. *)
Definition lower (c : N) : N :=
  if (65 <=? c) && (c <=? 90) then c + 32 else c.
Definition toLowerCase (s : jsstring) : jsstring := List.map lower s.

(** [s.split(/\r?\n/)]: the separator is a line feed, together with the
    carriage return that precedes it when there is one.  [cur] is the
    current line, reversed. *)
Fixpoint split_go (cur : jsstring) (s : jsstring) : list jsstring :=
  match s with
  | [] => [rev cur]
  | c :: s' =>
      if c =? 10 then rev cur :: split_go [] s'
      else match s' with
           | d :: s'' =>
               if (c =? 13) && (d =? 10) then rev cur :: split_go [] s''
               else split_go (c :: cur) s'
           | [] => split_go (c :: cur) s'
           end
  end.

Definition split_lines (s : jsstring) : list jsstring := split_go [] s.

(** [lines.join("\n")] *)
Fixpoint join_lines (l : list jsstring) : jsstring :=
  match l with
  | [] => []
  | [x] => x
  | x :: l' => x ++ 10 :: join_lines l'
  end.

End JsString.
Import JsString.

(** ** Artifact reference extraction *)

Module Artifacts.

(** The section marker, "Артефакты:" *)
Definition marker : jsstring :=
  [1040; 1088; 1090; 1077; 1092; 1072; 1082; 1090; 1099; 58].

Definition artifacts_prefix : jsstring := js "/artifacts/".

(** The maximal run of non-space code units at the head of [s]: [\S*]. *)
Fixpoint take_nonspace (s : jsstring) : jsstring :=
  match s with
  | c :: s' => if is_space c then [] else c :: take_nonspace s'
  | [] => []
  end.

(** [trimmed.match(/^-\s*(\/artifacts\/\S+)/u)], giving group 1. *)
Definition match_bullet (trimmed : jsstring) : option jsstring :=
  match trimmed with
  | c :: rest =>
      let rest := trimStart rest in
      if (c =? 45) && startsWith artifacts_prefix rest then
        match take_nonspace (drop (length artifacts_prefix) rest) with
        | [] => None
        | tok => Some (artifacts_prefix ++ tok)
        end
      else None
  | [] => None
  end.

(** The body of the [for] loop: [inBlock] and [paths] are the loop's
    variables; [break] ends the scan. *)
Fixpoint scan (inBlock : bool) (paths : list jsstring)
    (lines : list jsstring) : list jsstring :=
  match lines with
  | [] => paths
  | line :: lines' =>
      let trimmed := trim line in
      if startsWith marker trimmed then scan true paths lines'
      else if negb inBlock then scan inBlock paths lines'
      else match match_bullet trimmed with
           | Some p => scan inBlock (paths ++ [p]) lines'
           | None =>
               if (0 <? length trimmed)%nat then paths
               else scan inBlock paths lines'
           end
  end.

Definition extractArtifactPaths (text : jsstring) : list jsstring :=
  scan false [] (split_lines text).

End Artifacts.

(** ** JSON values and [JSON.parse] *)

Module Json.

Inductive json : Type :=
| JNull
| JBool (b : bool)
| JNum (q : Q)
| JStr (s : jsstring)
| JArr (items : list json)
| JObj (fields : list (jsstring * json)).

Definition is_json_ws (c : N) : bool :=
  (c =? 32) || (c =? 9) || (c =? 10) || (c =? 13).

Fixpoint skip_ws (s : jsstring) : jsstring :=
  match s with
  | c :: s' => if is_json_ws c then skip_ws s' else s
  | [] => []
  end.

Definition is_digit (c : N) : bool := (48 <=? c) && (c <=? 57).

(** The digits at the head of [s], as numbers, and what follows them. *)
Fixpoint take_digits (s : jsstring) : list Z * jsstring :=
  match s with
  | c :: s' =>
      if is_digit c then
        let '(ds, rest) := take_digits s' in (Z.of_N (c - 48) :: ds, rest)
      else ([], s)
  | [] => ([], [])
  end.

Definition digits_value (ds : list Z) : Z :=
  fold_left (fun acc d => 10 * acc + d)%Z ds 0%Z.

Definition pow10 (e : Z) : Q :=
  if (0 <=? e)%Z then inject_Z (10 ^ e) else Qinv (inject_Z (10 ^ (- e))).

(** [int frac? exp?] after the optional sign; the integer part is [0] or
    starts with a non-zero digit. *)
Definition parse_unsigned (s : jsstring) : option (Q * jsstring) :=
  let '(ip, r1) := take_digits s in
  match ip with
  | [] => None
  | d :: ip' =>
      if (d =? 0)%Z && negb (bool_decide (ip' = [])) then None else
      let fr :=
        match r1 with
        | 46 :: r2 =>
            let '(fp, r3) := take_digits r2 in
            match fp with [] => None | _ => Some (fp, r3) end
        | _ => Some ([], r1)
        end in
      match fr with
      | None => None
      | Some (fp, r3) =>
          let mant := digits_value (ip ++ fp) in
          let scale := (- Z.of_nat (length fp))%Z in
          let ex :=
            match r3 with
            | c :: r4 =>
                if (c =? 101) || (c =? 69) then
                  let '(neg, r5) :=
                    match r4 with
                    | 45 :: r5 => (true, r5)
                    | 43 :: r5 => (false, r5)
                    | _ => (false, r4)
                    end in
                  let '(ep, r6) := take_digits r5 in
                  match ep with
                  | [] => None
                  | _ => Some ((if neg then - digits_value ep
                                else digits_value ep)%Z, r6)
                  end
                else Some (0%Z, r3)
            | [] => Some (0%Z, r3)
            end in
          match ex with
          | None => None
          | Some (e, r6) =>
              Some (Qred (inject_Z mant * pow10 (scale + e)), r6)
          end
      end
  end.

Definition parse_number (s : jsstring) : option (Q * jsstring) :=
  match s with
  | 45 :: s' =>
      match parse_unsigned s' with
      | Some (q, r) => Some (Qopp q, r)
      | None => None
      end
  | _ => parse_unsigned s
  end.

Definition hex_digit (c : N) : option N :=
  if is_digit c then Some (c - 48)
  else if (97 <=? c) && (c <=? 102) then Some (c - 87)
  else if (65 <=? c) && (c <=? 70) then Some (c - 55)
  else None.

Definition hex4 (a b c d : N) : option N :=
  match hex_digit a, hex_digit b, hex_digit c, hex_digit d with
  | Some a, Some b, Some c, Some d => Some (((a * 16 + b) * 16 + c) * 16 + d)
  | _, _, _, _ => None
  end.

Definition simple_escape (c : N) : option N :=
  if c =? 34 then Some 34 else if c =? 92 then Some 92
  else if c =? 47 then Some 47 else if c =? 98 then Some 8
  else if c =? 102 then Some 12 else if c =? 110 then Some 10
  else if c =? 114 then Some 13 else if c =? 116 then Some 9
  else None.

(** The characters of a string literal after its opening quote; [acc] is
    the decoded text so far, reversed. *)
Fixpoint parse_chars (acc : jsstring) (s : jsstring)
    : option (jsstring * jsstring) :=
  match s with
  | [] => None
  | c :: s' =>
      if c =? 34 then Some (rev acc, s')
      else if c <? 32 then None
      else if c =? 92 then
        match s' with
        | e :: s'' =>
            if e =? 117 then
              match s'' with
              | h1 :: h2 :: h3 :: h4 :: s''' =>
                  match hex4 h1 h2 h3 h4 with
                  | Some u => parse_chars (u :: acc) s'''
                  | None => None
                  end
              | _ => None
              end
            else match simple_escape e with
                 | Some u => parse_chars (u :: acc) s''
                 | None => None
                 end
        | [] => None
        end
      else parse_chars (c :: acc) s'
  end.

Definition parse_literal (s : jsstring) : option (json * jsstring) :=
  if startsWith (js "true") s then Some (JBool true, drop 4%nat s)
  else if startsWith (js "false") s then Some (JBool false, drop 5%nat s)
  else if startsWith (js "null") s then Some (JNull, drop 4%nat s)
  else match parse_number s with
       | Some (q, r) => Some (JNum q, r)
       | None => None
       end.

Fixpoint parse_value (fuel : nat) (s : jsstring) {struct fuel}
    : option (json * jsstring) :=
  match fuel with
  | O => None
  | S fuel =>
      match skip_ws s with
      | [] => None
      | c :: rest =>
          if c =? 123 then
            match skip_ws rest with
            | d :: rest' =>
                if d =? 125 then Some (JObj [], rest')
                else parse_members fuel [] rest
            | [] => None
            end
          else if c =? 91 then
            match skip_ws rest with
            | d :: rest' =>
                if d =? 93 then Some (JArr [], rest')
                else parse_elements fuel [] rest
            | [] => None
            end
          else if c =? 34 then
            match parse_chars [] rest with
            | Some (str, rest') => Some (JStr str, rest')
            | None => None
            end
          else parse_literal (c :: rest)
      end
  end
with parse_elements (fuel : nat) (acc : list json) (s : jsstring)
    {struct fuel} : option (json * jsstring) :=
  match fuel with
  | O => None
  | S fuel =>
      match parse_value fuel s with
      | Some (v, rest) =>
          match skip_ws rest with
          | c :: rest' =>
              if c =? 44 then parse_elements fuel (acc ++ [v]) rest'
              else if c =? 93 then Some (JArr (acc ++ [v]), rest')
              else None
          | [] => None
          end
      | None => None
      end
  end
with parse_members (fuel : nat) (acc : list (jsstring * json))
    (s : jsstring) {struct fuel} : option (json * jsstring) :=
  match fuel with
  | O => None
  | S fuel =>
      match skip_ws s with
      | q :: s1 =>
          if q =? 34 then
            match parse_chars [] s1 with
            | Some (key, s2) =>
                match skip_ws s2 with
                | colon :: s3 =>
                    if colon =? 58 then
                      match parse_value fuel s3 with
                      | Some (v, rest) =>
                          match skip_ws rest with
                          | c :: rest' =>
                              if c =? 44 then
                                parse_members fuel (acc ++ [(key, v)]) rest'
                              else if c =? 125 then
                                Some (JObj (acc ++ [(key, v)]), rest')
                              else None
                          | [] => None
                          end
                      | None => None
                      end
                    else None
                | [] => None
                end
            | None => None
            end
          else None
      | [] => None
      end
  end.

(** [JSON.parse(text)]; [None] stands for the [SyntaxError] it throws. *)
Definition JSON_parse (text : jsstring) : option json :=
  match parse_value (2 * length text + 2) text with
  | Some (v, rest) =>
      match skip_ws rest with
      | [] => Some v
      | _ :: _ => None
      end
  | None => None
  end.

End Json.
Import Json.

(** ** JavaScript values, property reads and exceptions *)

Module Js.

Inductive error_kind : Type := PlainError | TypeError | SyntaxError.

(** Every exception of the modelled code is an [Error] object. *)
Record js_error : Type := mkError { kind : error_kind; text : jsstring }.

Definition Error (msg : jsstring) : js_error := mkError PlainError msg.

Inductive result (A : Type) : Type :=
| Ok (a : A)
| Throw (e : js_error).
Arguments Ok {A} a.
Arguments Throw {A} e.

Definition bind {A B} (m : result A) (k : A -> result B) : result B :=
  match m with
  | Ok a => k a
  | Throw e => Throw e
  end.

(** [try { m } catch { h }] *)
Definition try_catch {A} (m : result A) (h : js_error -> result A)
    : result A :=
  match m with
  | Ok a => Ok a
  | Throw e => h e
  end.

(** A value read from parsed JSON: [undefined] or a JSON value. *)
Inductive jsval : Type :=
| Undefined
| Val (j : json).

(** The last binding of a key: a later duplicate overwrites. *)
Fixpoint own (k : jsstring) (fields : list (jsstring * json)) : jsval :=
  match fields with
  | [] => Undefined
  | (k', v) :: fields' =>
      match own k fields' with
      | Undefined => if eqb k' k then Val v else Undefined
      | found => found
      end
  end.

Definition js_length : jsstring := js "length".

(** [v.k] or [v?.k] read on a value that came out of [JSON.parse], for
    the names the code reads, none of which is an array index or a
    member of a prototype other than [length]. *)
Definition get_json (j : json) (k : jsstring) : result jsval :=
  match j with
  | JNull => Throw (mkError TypeError (js "Cannot read properties of null"))
  | JObj fields => Ok (own k fields)
  | JArr items =>
      Ok (if eqb k js_length
          then Val (JNum (inject_Z (Z.of_nat (length items))))
          else Undefined)
  | JStr s =>
      Ok (if eqb k js_length
          then Val (JNum (inject_Z (Z.of_nat (length s))))
          else Undefined)
  | JBool _ | JNum _ => Ok Undefined
  end.

Definition get (v : jsval) (k : jsstring) : result jsval :=
  match v with
  | Undefined =>
      Throw (mkError TypeError (js "Cannot read properties of undefined"))
  | Val j => get_json j k
  end.

(** [a ?? b] *)
Definition nullish (a b : jsval) : jsval :=
  match a with
  | Undefined | Val JNull => b
  | _ => a
  end.

(** [typeof v === "string"] with the string itself *)
Definition as_string (v : jsval) : option jsstring :=
  match v with
  | Val (JStr s) => Some s
  | _ => None
  end.

(** [v === "literal"] *)
Definition is_str (lit : jsstring) (v : jsval) : bool :=
  match v with
  | Val (JStr s) => eqb s lit
  | _ => false
  end.

(** [v === true] *)
Definition is_true (v : jsval) : bool :=
  match v with
  | Val (JBool true) => true
  | _ => false
  end.

(** Truthiness of a parsed value. *)
Definition truthy (v : jsval) : bool :=
  match v with
  | Undefined | Val JNull | Val (JBool false) | Val (JStr []) => false
  | Val (JNum q) => negb (Qeq_bool q 0)
  | _ => true
  end.

End Js.
Import Js.

#[global] Instance result_ret : MRet result := @Ok.
#[global] Instance result_bind : MBind result := fun A B k m => bind m k.

(** ** The chat transport: WebSocket stream with HTTP fallback *)

Module Transport.
Import Artifacts.

Record ChatApiResponse : Type := mkResponse {
  message : jsstring;
  artifactPaths : list jsstring
}.

(** The settings that the transports read, whether
    [typeof WebSocket === "function"], and the two constructors of the
    platform that they call.  A [URL] object is held as its serialisation:
    [URL_new input base] is [new URL(input, base)], which throws when the
    input is no URL against the base; [URL_protocol], [URL_set_protocol],
    [URL_has_param] and [URL_set_param] are [url.protocol], its setter,
    [url.searchParams.has] and [url.searchParams.set].  [WebSocket_new url]
    is [new WebSocket(url)] up to the socket it returns: it throws for a
    URL that the platform refuses. *)
Record env : Type := mkEnv {
  apiHost : jsstring;
  apiChatPath : jsstring;
  apiTranscriptionPath : jsstring;
  hasWebSocket : bool;
  URL_new : jsstring -> option jsstring -> result jsstring;
  URL_protocol : jsstring -> jsstring;
  URL_set_protocol : jsstring -> jsstring -> jsstring;
  URL_has_param : jsstring -> jsstring -> bool;
  URL_set_param : jsstring -> jsstring -> jsstring -> jsstring;
  WebSocket_new : jsstring -> result unit
}.

Definition CHAT_WEBSOCKET_QUERY_PARAM : jsstring := js "websocket".
Definition CHAT_WEBSOCKET_QUERY_VALUE : jsstring := js "True".

(** [.replace(/^\/+/u, "")] *)
Fixpoint strip_slashes (s : jsstring) : jsstring :=
  match s with
  | c :: rest => if c =? 47 then strip_slashes rest else s
  | [] => []
  end.

(** [buildApiUrl] *)
Definition buildApiUrl (e : env) (path : jsstring) : result jsstring :=
  let host := trim (apiHost e) in
  let base := if endsWith (js "/") host then host else host ++ js "/" in
  let suffix := strip_slashes (trim path) in
  URL_new e suffix (Some base).

(** [buildChatWebSocketUrl] *)
Definition buildChatWebSocketUrl (e : env) : result jsstring :=
  httpUrl ← buildApiUrl e (apiChatPath e);
  url ← URL_new e httpUrl None;
  let url :=
    URL_set_protocol e
      (if eqb (URL_protocol e url) (js "https:") then js "wss:" else js "ws:")
      url in
  if negb (URL_has_param e CHAT_WEBSOCKET_QUERY_PARAM url)
  then Ok (URL_set_param e CHAT_WEBSOCKET_QUERY_PARAM
             CHAT_WEBSOCKET_QUERY_VALUE url)
  else Ok url.

(** The variables captured by the promise executor of
    [callChatApiWebSocket], and the calls it makes on its collaborators:
    [delivered] lists the arguments of [onChunk] in call order, [closes]
    the arguments of [socket.close], [sends] counts [socket.send];
    [handlers] tells whether the socket's four handlers are installed,
    [abortListener] whether [onAbort] listens on the signal, [openTimeout]
    whether the connect timer is pending; [settlement] is the promise. *)
Record conn : Type := mkConn {
  settled : bool;
  fullText : jsstring;
  delivered : list jsstring;
  settlement : option (result ChatApiResponse);
  closes : list (option (Z * jsstring));
  sends : nat;
  handlers : bool;
  abortListener : bool;
  openTimeout : bool
}.

Definition cleanup (c : conn) : conn :=
  mkConn (settled c) (fullText c) (delivered c) (settlement c) (closes c)
    (sends c) false false false.

Definition settle (r : result ChatApiResponse) (c : conn) : conn :=
  cleanup (mkConn true (fullText c) (delivered c) (Some r) (closes c)
             (sends c) (handlers c) (abortListener c) (openTimeout c)).

Definition resolveOnce (r : ChatApiResponse) (c : conn) : conn :=
  if settled c then c else settle (Ok r) c.

Definition rejectOnce (e : js_error) (c : conn) : conn :=
  if settled c then c else settle (Throw e) c.

Definition finalizeWithText (text : jsstring) (c : conn) : conn :=
  resolveOnce (mkResponse text (extractArtifactPaths text)) c.

Definition socket_close (args : option (Z * jsstring)) (c : conn) : conn :=
  mkConn (settled c) (fullText c) (delivered c) (settlement c)
    (closes c ++ [args]) (sends c) (handlers c) (abortListener c)
    (openTimeout c).

Definition onAbort (c : conn) : conn :=
  rejectOnce (Error (js "Request aborted"))
    (socket_close (Some (1000%Z, js "aborted")) c).

(** [fullText += chunk; onChunk(chunk)] *)
Definition append_chunk (chunk : jsstring) (c : conn) : conn :=
  mkConn (settled c) (fullText c ++ chunk) (delivered c ++ [chunk])
    (settlement c) (closes c) (sends c) (handlers c) (abortListener c)
    (openTimeout c).

(** [finalizeWithText(fullText); socket.close(1000, "done")] *)
Definition finish (c : conn) : conn :=
  socket_close (Some (1000%Z, js "done")) (finalizeWithText (fullText c) c).

Definition is_sentinel (trimmed : jsstring) : bool :=
  eqb trimmed (js "[DONE]") || eqb trimmed (js "__DONE__").

Definition first_string (candidates : list jsval) : option jsstring :=
  head (omap as_string candidates).

(** [handleFrame].  Its one [throw] comes before any write, so the state
    at a throw is the state it was called in. *)
Definition handleFrame (frame : json) (c : conn) : result conn :=
  match frame with
  | JStr s =>
      if is_sentinel (trim s) then Ok (finish c)
      else Ok (append_chunk s c)
  | JNull | JBool _ | JNum _ => Ok c
  | JObj _ | JArr _ =>
      type ← get_json frame (js "type");
      text ← get_json frame (js "text");
      msg ← get_json frame (js "message");
      response ← get_json frame (js "response");
      content ← get_json frame (js "content");
      done ← get_json frame (js "done");
      error ← get_json frame (js "error");
      if is_str (js "error") type then
        Throw (Error (default (js "Chat websocket error.")
                        (first_string [msg; error])))
      else if is_str (js "chunk") type then
        let chunk := default [] (as_string text) in
        if (0 <? length chunk)%nat then Ok (append_chunk chunk c)
        else Ok c
      else if is_str (js "done") type
              || match done with Val (JBool true) => true | _ => false end
      then Ok (finish c)
      else match first_string [msg; response; content; text] with
           | Some candidate => Ok (append_chunk candidate c)
           | None => Ok c
           end
  end.

(** [event.data]: a string, an [ArrayBuffer] (given by the text that
    [TextDecoder] decodes from it), or anything else (given by what
    [String] makes of it, the empty string for a missing value). *)
Inductive data : Type :=
| DataString (raw : jsstring)
| DataBuffer (decoded : jsstring)
| DataOther (shown : jsstring).

(** [try { handleFrame(JSON.parse(raw)); } catch { handleFrame(raw); }] *)
Definition parse_or_literal (raw : jsstring) (c : conn) : result conn :=
  try_catch
    (match JSON_parse raw with
     | Some frame => handleFrame frame c
     | None => Throw (mkError SyntaxError (js "Unexpected token"))
     end)
    (fun _ => handleFrame (JStr raw) c).

Definition onmessage (d : data) (c : conn) : conn :=
  if settled c then c
  else
    match
      match d with
      | DataString raw => parse_or_literal raw c
      | DataBuffer raw => parse_or_literal raw c
      | DataOther shown => handleFrame (JStr shown) c
      end
    with
    | Ok c' => c'
    | Throw e => rejectOnce e c
    end.

(** Decimal numerals, for the template literals that print a number. *)
Fixpoint dec_go (fuel : nat) (n : N) (acc : jsstring) : jsstring :=
  match fuel with
  | O => acc
  | S fuel =>
      let acc' := (48 + n mod 10) :: acc in
      if n / 10 =? 0 then acc' else dec_go fuel (n / 10) acc'
  end.

Definition Z_to_js (z : Z) : jsstring :=
  let n := Z.to_N (Z.abs z) in
  (if (z <? 0)%Z then [45] else [])
    ++ dec_go (S (N.to_nat (N.log2 n))) n [].

Definition onclose (code : Z) (c : conn) : conn :=
  if settled c then c
  else if (code =? 1000)%Z then finalizeWithText (fullText c) c
  else if (0 <? length (fullText c))%nat then finalizeWithText (fullText c) c
  else rejectOnce
         (Error (js "WebSocket closed with code " ++ Z_to_js code ++ js "."))
         c.

Definition onopen (c : conn) : conn :=
  mkConn (settled c) (fullText c) (delivered c) (settlement c) (closes c)
    (S (sends c)) (handlers c) (abortListener c) false.

Definition ontimeout (c : conn) : conn :=
  rejectOnce (Error (js "WebSocket connection timed out."))
    (socket_close None c).

(** What can happen to the connection once the executor has run. *)
Inductive event : Type :=
| Open
| Message (d : data)
| SocketError
| Close (code : Z)
| TimerFired
| SignalAbort.

Definition step (c : conn) (ev : event) : conn :=
  match ev with
  | Open => if handlers c then onopen c else c
  | Message d => if handlers c then onmessage d c else c
  | SocketError =>
      if handlers c
      then rejectOnce (Error (js "WebSocket connection failed.")) c
      else c
  | Close code => if handlers c then onclose code c else c
  | TimerFired => if openTimeout c then ontimeout c else c
  | SignalAbort => if abortListener c then onAbort c else c
  end.

(** The promise executor.  [signal] is [None] when no signal is passed,
    and otherwise tells whether the signal is already aborted. *)
Definition executor (signal : option bool) : conn :=
  let c := mkConn false [] [] None [] 0 false false true in
  match signal with
  | Some true => onAbort c
  | Some false => mkConn false [] [] None [] 0 true true true
  | None => mkConn false [] [] None [] 0 true false true
  end.

Definition not_configured : js_error :=
  Error (js "API host is not configured. Set it in settings.").

(** [callChatApiWebSocket] under a sequence of events: the connection it
    leaves, whose [settlement] is the state of the returned promise.  What
    the two guards, [buildChatWebSocketUrl] or [new WebSocket(url)] throw
    rejects the promise before any event. *)
Definition callChatApiWebSocket (e : env) (signal : option bool)
    (events : list event) : result conn :=
  if bool_decide (apiHost e = []) then Throw not_configured
  else if negb (hasWebSocket e) then
    Throw (Error (js "WebSocket is not available in this environment."))
  else
    url ← buildChatWebSocketUrl e;
    socket ← WebSocket_new e url;
    Ok (fold_left step events (executor signal)).

(** [isAbortError] *)
Definition isAbortError (e : js_error) : bool :=
  includes (js "abort") (toLowerCase (text e)).

(** The answer of [requestUrl]. *)
Record http_response : Type := mkHttp {
  status : Z;
  json_body : jsval;
  body_text : jsstring
}.

Definition extractErrorDetail (r : http_response) : option jsstring :=
  let parsed :=
    match json_body r with
    | Val (JObj fields) => Some (JObj fields)
    | Val (JArr items) => Some (JArr items)
    | _ => None
    end in
  let prop k :=
    match parsed with
    | Some p => match get_json p k with Ok v => v | Throw _ => Undefined end
    | None => Undefined
    end in
  let detail := nullish (prop (js "detail")) (prop (js "message")) in
  match as_string detail with
  | Some d =>
      if (0 <? length (trim d))%nat then Some (trim d)
      else if (0 <? length (trim (body_text r)))%nat
           then Some (trim (body_text r)) else None
  | None =>
      if (0 <? length (trim (body_text r)))%nat
      then Some (trim (body_text r)) else None
  end.

(** [requestJson], given what [requestUrl] answers or throws. *)
Definition requestJson (http : result http_response) : result jsval :=
  r ← http;
  if (status r <? 200)%Z || (300 <=? status r)%Z then
    Throw (Error (default (js "API error: " ++ Z_to_js (status r))
                    (extractErrorDetail r)))
  else if truthy (json_body r) then Ok (json_body r)
  else match JSON_parse (body_text r) with
       | Some j => Ok (Val j)
       | None => Throw (Error (js "API returned non-JSON response."))
       end.

(** [callChatApi], the single-shot transport. *)
Definition callChatApi (e : env) (http : result http_response)
    : result ChatApiResponse :=
  if bool_decide (apiHost e = []) then Throw not_configured
  else
    url ← buildApiUrl e (apiChatPath e);
    result ← requestJson http;
    content ←
      match result with
      | Val (JObj _ as o) | Val (JArr _ as o) =>
          m ← get_json o (js "message");
          r ← get_json o (js "response");
          c ← get_json o (js "content");
          Ok (nullish m (nullish r c))
      | _ => Ok Undefined
      end;
    match as_string content with
    | Some s => Ok (mkResponse s (extractArtifactPaths s))
    | None => Throw (Error (js "Chat API returned an unexpected response."))
    end.

(** What a call of [callChatApiStream] amounts to: the state of its
    promise ([None] while it is pending), every text passed to
    [onChunk] in call order, and whether [callChatApi] was called. *)
Record stream_run : Type := mkRun {
  outcome : option (result ChatApiResponse);
  chunks : list jsstring;
  fallback : bool
}.

(** The [catch] block of [callChatApiStream]. *)
Definition on_stream_failure (e : env) (http : result http_response)
    (seen : list jsstring) (error : js_error) : stream_run :=
  if isAbortError error then mkRun (Some (Throw error)) seen false
  else
    match callChatApi e http with
    | Ok response =>
        mkRun (Some (Ok response))
          (if (0 <? length (message response))%nat
           then seen ++ [message response] else seen)
          true
    | Throw error' => mkRun (Some (Throw error')) seen true
    end.

Definition callChatApiStream (e : env) (signal : option bool)
    (events : list event) (http : result http_response) : stream_run :=
  match callChatApiWebSocket e signal events with
  | Throw error => on_stream_failure e http [] error
  | Ok c =>
      match settlement c with
      | None => mkRun None (delivered c) false
      | Some (Ok response) => mkRun (Some (Ok response)) (delivered c) false
      | Some (Throw error) => on_stream_failure e http (delivered c) error
      end
  end.

End Transport.

(** ** The reveal scheduler of the chat modal *)

Module Reveal.

Definition STREAM_TYPING_BASE_STEP : Z := 2.
Definition STREAM_TYPING_CATCHUP_WINDOW : Z := 20.

(** A message body of the modal, as far as the scheduler tells two
    bodies apart. *)
Definition body : Type := nat.

(** The [streaming...] fields of [ChatModal], with what the scheduler
    last put on screen: [shown] is the last [setText], [rendered] the
    markdown renderings of [completeFinalize] in order. *)
Record modal : Type := mkModal {
  streamingRenderTarget : option body;
  streamingRenderText : jsstring;
  streamingTypingProgress : Z;
  streamingTypingTimer : bool;
  streamingFinalizeTarget : option (body * jsstring);
  shown : option (body * jsstring);
  rendered : list (body * jsstring)
}.

Definition stopStreamingTyping (m : modal) : modal :=
  mkModal (streamingRenderTarget m) (streamingRenderText m) 0 false
    (streamingFinalizeTarget m) (shown m) (rendered m).

Definition completeFinalize (b : body) (text : jsstring) (m : modal)
    : modal :=
  let m := stopStreamingTyping m in
  mkModal (streamingRenderTarget m) (streamingRenderText m)
    (streamingTypingProgress m) (streamingTypingTimer m)
    (streamingFinalizeTarget m) (shown m) (rendered m ++ [(b, text)]).

Definition updateTypingText (b : body) (text : jsstring) (m : modal)
    : modal :=
  let progress :=
    if bool_decide (streamingRenderTarget m = Some b)
    then streamingTypingProgress m else 0%Z in
  mkModal (Some b) text progress true (streamingFinalizeTarget m)
    (shown m) (rendered m).

(** [Math.ceil(remaining / STREAM_TYPING_CATCHUP_WINDOW)] *)
Definition catchup (remaining : Z) : Z :=
  (- ((- remaining) / STREAM_TYPING_CATCHUP_WINDOW))%Z.

Definition step (remaining : Z) : Z :=
  Z.max STREAM_TYPING_BASE_STEP (catchup remaining).

Definition tickStreamingTyping (m : modal) : modal :=
  match streamingRenderTarget m with
  | None => stopStreamingTyping m
  | Some target =>
      let fullText := streamingRenderText m in
      if bool_decide (fullText = []) then stopStreamingTyping m
      else
        let len := Z.of_nat (length fullText) in
        let remaining := (len - streamingTypingProgress m)%Z in
        if (remaining <=? 0)%Z then
          match streamingFinalizeTarget m with
          | Some (b, text) =>
              completeFinalize b text
                (mkModal (streamingRenderTarget m) (streamingRenderText m)
                   (streamingTypingProgress m) (streamingTypingTimer m)
                   None (shown m) (rendered m))
          | None => stopStreamingTyping m
          end
        else
          let progress :=
            Z.min len (streamingTypingProgress m + step remaining) in
          mkModal (streamingRenderTarget m) fullText progress
            (streamingTypingTimer m) (streamingFinalizeTarget m)
            (Some (target, take (Z.to_nat progress) fullText))
            (rendered m)
  end.

(** One firing of the interval timer: the callback runs while the timer
    is set. *)
Definition tick (m : modal) : modal :=
  if streamingTypingTimer m then tickStreamingTyping m else m.

Definition queueFinalize (b : body) (text : jsstring) (m : modal) : modal :=
  let m' :=
    mkModal (streamingRenderTarget m) (streamingRenderText m)
      (streamingTypingProgress m) (streamingTypingTimer m)
      (Some (b, text)) (shown m) (rendered m) in
  if streamingTypingTimer m then m' else completeFinalize b text m'.

Definition resetStreamingState (m : modal) : modal :=
  mkModal None [] 0 false None (shown m) (rendered m).

(** The fields as the constructor of [ChatModal] sets them. *)
Definition fresh : modal := mkModal None [] 0 false None None [].

(** [n] firings of the timer. *)
Definition ticks (n : nat) (m : modal) : modal := Nat.iter n tick m.

End Reveal.

(** ** The snapshot tracker *)

Module Snapshot.

(** [file.path] and [file.stat.mtime] of a [TFile]. *)
Record TFile : Type := mkFile { path : jsstring; mtime : Z }.

(** The answer [{ exists, changed }]. *)
Record state : Type := mkState { exists_ : bool; changed : bool }.

(** [readSnapshot], given the content of the snapshot file when the path
    holds a file: [null] when there is none or when it is not JSON. *)
Definition readSnapshot (file : option jsstring) : json :=
  match file with
  | None => JNull
  | Some content => default JNull (JSON_parse content)
  end.

(** [new Map(files.map(file => [file.path, file.stat.mtime]))] *)
Definition currentMap (files : list TFile) : gmap jsstring Z :=
  fold_left (fun m f => <[path f := mtime f]> m) files ∅.

(** The code points of a string, each as a string: what iterating a
    string yields. *)
Fixpoint code_points (s : jsstring) : list jsstring :=
  match s with
  | [] => []
  | c :: s' =>
      match s' with
      | d :: s'' =>
          if (55296 <=? c) && (c <=? 56319) && (56320 <=? d) && (d <=? 57343)
          then [c; d] :: code_points s''
          else [c] :: code_points s'
      | [] => [[c]]
      end
  end.

(** What [for (const entry of v)] runs through. *)
Definition iterate (v : jsval) : result (list json) :=
  match v with
  | Val (JArr items) => Ok items
  | Val (JStr s) => Ok (JStr <$> code_points s)
  | _ => Throw (mkError TypeError (js "value is not iterable"))
  end.

(** [v === n] for a number [n] *)
Definition is_num (n : Z) (v : jsval) : bool :=
  match v with
  | Val (JNum q) => Qeq_bool q (inject_Z n)
  | _ => false
  end.

(** The [for] loop of [getSnapshotState]: whether it returns
    [changed: true]. *)
Fixpoint scan (current : gmap jsstring Z) (entries : list json)
    : result bool :=
  match entries with
  | [] => Ok false
  | entry :: entries' =>
      p ← get_json entry (js "path");
      m ← get_json entry (js "mtime");
      match as_string p ≫= (current !!.) with
      | None => Ok true
      | Some currentMtime =>
          if is_num currentMtime m then scan current entries' else Ok true
      end
  end.

(** The body of [getSnapshotState] once [snapshot] is read. *)
Definition evaluate (snapshot : json) (files : list TFile) : result state :=
  if negb (truthy (Val snapshot)) then Ok (mkState false false)
  else
    let current := currentMap files in
    stored ← get_json snapshot (js "files");
    len ← get stored js_length;
    if negb (is_num (Z.of_nat (size current)) len) then
      Ok (mkState true true)
    else
      entries ← iterate stored;
      differs ← scan current entries;
      Ok (mkState true differs).

Definition getSnapshotState (file : option jsstring) (files : list TFile)
    : result state :=
  evaluate (readSnapshot file) files.

(** The JSON that [writeSnapshot] stores for a list of files:
    [{ files: [{ path, mtime }, ...] }]. *)
Definition entry_json (f : TFile) : json :=
  JObj [(js "path", JStr (path f)); (js "mtime", JNum (inject_Z (mtime f)))].

Definition snapshot_json (files : list TFile) : json :=
  JObj [(js "files", JArr (entry_json <$> files))].

End Snapshot.

(** ** The chat log *)

Module ChatLog.

Inductive role : Type := User | Assistant | System.

Record ChatLogEntry : Type := mkEntry {
  entry_role : role;
  content : jsstring;
  timestamp : option jsstring
}.

Definition role_name (r : role) : jsstring :=
  match r with
  | User => js "user"
  | Assistant => js "assistant"
  | System => js "system"
  end.

Definition role_of (v : jsval) : option role :=
  if is_str (js "user") v then Some User
  else if is_str (js "assistant") v then Some Assistant
  else if is_str (js "system") v then Some System
  else None.

Definition title : jsstring := js "# Chat history".

(** [line.match(/^## \[(.+)\] (user|assistant)$/u)], giving groups 1 and
    2: the line is ["## ["], a non-empty run without line terminator,
    ["] "] and one of the two role names. *)
Definition match_header (line : jsstring) : option (jsstring * role) :=
  if startsWith (js "## [") line then
    let rest := drop 4%nat line in
    let with_role (r : role) :=
      let suffix := js "] " ++ role_name r in
      if endsWith suffix rest then
        let stamp := take (length rest - length suffix)%nat rest in
        if (0 <? length stamp)%nat
           && forallb (fun c => negb (is_line_terminator c)) stamp
        then Some (stamp, r) else None
      else None in
    match with_role User with
    | Some m => Some m
    | None => with_role Assistant
    end
  else None.

(** The variables of the markdown scan of [parseChatLog]. *)
Record scanner : Type := mkScanner {
  currentRole : option role;
  currentTimestamp : option jsstring;
  buffer : list jsstring;
  messages : list ChatLogEntry
}.

Definition flush (s : scanner) : scanner :=
  match currentRole s with
  | Some r =>
      if (0 <? length (buffer s))%nat then
        let text := trim (join_lines (buffer s)) in
        if (0 <? length text)%nat then
          mkScanner (currentRole s) (currentTimestamp s) (buffer s)
            (messages s ++ [mkEntry r text (currentTimestamp s)])
        else s
      else s
  | None => s
  end.

Definition scan_line (s : scanner) (line : jsstring) : scanner :=
  match match_header line with
  | Some (stamp, r) =>
      let s := flush s in
      mkScanner (Some r) (Some stamp) [] (messages s)
  | None =>
      if startsWith title line then s
      else mkScanner (currentRole s) (currentTimestamp s)
             (buffer s ++ [line]) (messages s)
  end.

Definition parse_markdown (content : jsstring) : list ChatLogEntry :=
  messages
    (flush (fold_left scan_line (split_lines content)
              (mkScanner None None [] []))).

Section Host.

(** The host's [Date]: [new Date(value).toISOString()] for a string
    and for a number of milliseconds, [None] when the date is
    invalid ([getTime()] is [NaN]). *)
Variable Date_of_string : jsstring -> option jsstring.
Variable Date_of_ms : Q -> option jsstring.

Definition normalizeTimestamp (value : jsval) : option jsstring :=
  match value with
  | Val (JStr s) => Date_of_string s
  | Val (JNum q) =>
      let asMs :=
        if Qle_bool (inject_Z (10 ^ 12)) q then q
        else (q * inject_Z 1000)%Q in
      Date_of_ms asMs
  | _ => None
  end.

Definition coalesce (record : json) (keys : list jsstring)
    (last : jsval) : result jsval :=
  foldr (fun k acc => v ← get_json record k; rest ← acc;
                      Ok (nullish v rest))
    (Ok last) keys.

Definition extractTimestamp (record : json) : result (option jsstring) :=
  raw ← coalesce record
         [js "timestamp"; js "time"; js "created_at"; js "createdAt";
          js "date"; js "ts"] (Val JNull);
  Ok (normalizeTimestamp raw).

(** The callback of [items.map]: [None] is the [null] that
    [filter] removes. *)
Definition legacy_item (item : json) : result (option ChatLogEntry) :=
  match item with
  | JObj _ | JArr _ =>
      r ← coalesce item [js "role"; js "type"; js "author"; js "sender"]
            (Val JNull);
      match role_of r with
      | None => Ok None
      | Some r =>
          contentValue ← coalesce item
                           [js "content"; js "text"; js "message"]
                           (Val (JStr []));
          match as_string contentValue with
          | None => Ok None
          | Some text =>
              stamp ← extractTimestamp item;
              Ok (Some (mkEntry r text stamp))
          end
      end
  | _ => Ok None
  end.

(** The [try] block of [parseChatLog]. *)
Definition parse_legacy (trimmed : jsstring)
    : result (list ChatLogEntry) :=
  match JSON_parse trimmed with
  | None => Throw (mkError SyntaxError (js "Unexpected token"))
  | Some parsed =>
      rawItems ←
        match parsed with
        | JArr _ => Ok (Val parsed)
        | _ =>
            coalesce parsed
              [js "messages"; js "history"; js "items"; js "log"]
              (Val (JArr []))
        end;
      let items :=
        match rawItems with
        | Val (JArr items) => items
        | _ => []
        end in
      entries ← mapM legacy_item items;
      Ok (omap id entries)
  end.

Definition parseChatLog (content : jsstring)
    : result (list ChatLogEntry) :=
  let trimmed := trim content in
  let markdown := Ok (parse_markdown content) in
  if startsWith (js "{") trimmed || startsWith (js "[") trimmed then
    try_catch (parse_legacy trimmed) (fun _ => markdown)
  else markdown.

End Host.

(** The text that [appendChatLog] appends: [timestamp] is what
    [new Date().toISOString()] gave. *)
Definition log_entry (timestamp : jsstring) (r : role)
    (text : jsstring) : jsstring :=
  js "## [" ++ timestamp ++ js "] " ++ role_name r
    ++ [10] ++ text ++ [10; 10].

(** [appendTextFile] on the content of the file at the path, when there
    is one. *)
Definition appendTextFile (file : option jsstring) (text : jsstring)
    (prefixForCreate : jsstring) : jsstring :=
  match file with
  | Some previous => previous ++ text
  | None => prefixForCreate ++ text
  end.

Definition appendChatLog (file : option jsstring) (timestamp : jsstring)
    (r : role) (text : jsstring) : jsstring :=
  appendTextFile file (log_entry timestamp r text) (title ++ [10; 10]).

(** The log after a sequence of appends, each with the time it was
    made at. *)
Definition append_all (file : option jsstring)
    (turns : list (jsstring * role * jsstring)) : option jsstring :=
  fold_left (fun f '(stamp, r, text) => Some (appendChatLog f stamp r text))
    turns file.

End ChatLog.

(** ** Paths of the context folder and of artifacts *)

Module Paths.

Definition CONTEXT_DIR : jsstring := js "4senseContext".
Definition ARTIFACTS_DIR : jsstring := js "artefacts".

(** The prefix [folder.path ? `${folder.path}/` : ""] *)
Definition folder_prefix (folderPath : jsstring) : jsstring :=
  match folderPath with
  | [] => []
  | _ :: _ => folderPath ++ js "/"
  end.

Definition getContextPath (folderPath : jsstring) : jsstring :=
  folder_prefix folderPath ++ CONTEXT_DIR.

Definition getArtifactsPath (folderPath : jsstring) : jsstring :=
  getContextPath folderPath ++ js "/" ++ ARTIFACTS_DIR.

Definition getSummaryFilePath (folderPath summaryFileName : jsstring)
    : jsstring :=
  getContextPath folderPath ++ js "/" ++ summaryFileName.

(** [path.split("?")[0]]: the text before the first question mark. *)
Fixpoint before_query (s : jsstring) : jsstring :=
  match s with
  | [] => []
  | c :: s' => if c =? 63 then [] else c :: before_query s'
  end.

(** [cleaned.split("/").pop()]: the text after the last slash; [cur] is
    the current segment, reversed. *)
Fixpoint last_segment_go (cur : jsstring) (s : jsstring) : jsstring :=
  match s with
  | [] => rev cur
  | c :: s' =>
      if c =? 47 then last_segment_go [] s' else last_segment_go (c :: cur) s'
  end.

Definition last_segment (s : jsstring) : jsstring := last_segment_go [] s.

Section Host.

(** The host's [decodeURIComponent], [None] when it throws. *)
Variable decodeURIComponent : jsstring -> option jsstring.

(** [getArtifactFilename] of the plugin *)
Definition getArtifactFilename (path : jsstring) : jsstring :=
  let cleaned := before_query path in
  let last := last_segment cleaned in
  match decodeURIComponent last with
  | Some name => name
  | None => last
  end.

(** [extractFilename] of the chat modal *)
Definition extractFilename (path : jsstring) : jsstring :=
  let cleaned := before_query path in
  let last := last_segment cleaned in
  match decodeURIComponent last with
  | Some name => name
  | None => last
  end.

(** [getArtifactLocalPath] of the chat modal *)
Definition getArtifactLocalPath (markdownSourcePath apiPath : jsstring)
    : jsstring :=
  folder_prefix markdownSourcePath ++ CONTEXT_DIR ++ js "/" ++ ARTIFACTS_DIR
    ++ js "/" ++ extractFilename apiPath.

(** The [targetPath] that [downloadArtifacts] writes an artifact to. *)
Definition download_target (folderPath path : jsstring) : jsstring :=
  getArtifactsPath folderPath ++ js "/" ++ getArtifactFilename path.

End Host.

End Paths.

(** ** Files of the vault and their kinds *)

Module Files.

(** A [TFile]: its path, name and extension, and [stat]. *)
Record VFile : Type := mkVFile {
  path : jsstring;
  name : jsstring;
  extension : jsstring;
  ctime : Z;
  mtime : Z;
  size : Z
}.

Definition SUPPORTED_AUDIO_EXTENSIONS : list jsstring :=
  [js "mp3"; js "wav"; js "m4a"; js "ogg"; js "flac"; js "opus"].

Definition SUPPORTED_IMAGE_EXTENSIONS : list jsstring :=
  [js "png"; js "jpg"; js "jpeg"; js "gif"; js "webp"].

Definition ALL_AUDIO_EXTENSIONS : list jsstring :=
  [js "mp3"; js "wav"; js "m4a"; js "aac"; js "ogg"; js "flac"; js "opus";
   js "webm"].

(** [set.has(x)] *)
Definition has (set : list jsstring) (x : jsstring) : bool :=
  existsb (eqb x) set.

(** [file.extension.toLowerCase()].  The extensions it is compared with
    are written in digits and in the letters a-z without k; a character
    outside A-Z lowers to an ASCII letter only when it lowers to k, or to
    an i with a combining dot after it, so lowering A-Z alone gives the
    same comparisons. *)
Definition lowered_extension (f : VFile) : jsstring :=
  toLowerCase (extension f).

Definition isMarkdownFile (f : VFile) : bool := eqb (extension f) (js "md").

Definition isExcalidrawFile (f : VFile) : bool :=
  endsWith (js ".excalidraw.md") (path f).

Definition isSupportedAudioFile (f : VFile) : bool :=
  has SUPPORTED_AUDIO_EXTENSIONS (lowered_extension f).

Definition isAnyAudioFile (f : VFile) : bool :=
  has ALL_AUDIO_EXTENSIONS (lowered_extension f).

Definition isImageFile (f : VFile) : bool :=
  has SUPPORTED_IMAGE_EXTENSIONS (lowered_extension f).

(** The five arrays of [splitFiles]. *)
Record split : Type := mkSplit {
  textFiles : list VFile;
  audioFiles : list VFile;
  imageFiles : list VFile;
  unsupportedAudioFiles : list VFile;
  skippedFiles : list VFile
}.

(** The body of the loop of [splitFiles]. *)
Definition split_one (s : split) (f : VFile) : split :=
  if isSupportedAudioFile f then
    mkSplit (textFiles s) (audioFiles s ++ [f]) (imageFiles s)
      (unsupportedAudioFiles s) (skippedFiles s)
  else if isImageFile f then
    mkSplit (textFiles s) (audioFiles s) (imageFiles s ++ [f])
      (unsupportedAudioFiles s) (skippedFiles s)
  else if isAnyAudioFile f then
    mkSplit (textFiles s) (audioFiles s) (imageFiles s)
      (unsupportedAudioFiles s ++ [f]) (skippedFiles s)
  else if isMarkdownFile f then
    mkSplit (textFiles s ++ [f]) (audioFiles s) (imageFiles s)
      (unsupportedAudioFiles s) (skippedFiles s)
  else
    mkSplit (textFiles s) (audioFiles s) (imageFiles s)
      (unsupportedAudioFiles s) (skippedFiles s ++ [f]).

Definition splitFiles (files : list VFile) : split :=
  fold_left split_one files (mkSplit [] [] [] [] []).

(** [getAudioContentType] *)
Definition getAudioContentType (f : VFile) : result jsstring :=
  let ext := lowered_extension f in
  if eqb ext (js "mp3") || eqb ext (js "m4a") then Ok (js "audio/mpeg")
  else if eqb ext (js "ogg") || eqb ext (js "opus") then
    Ok (js "audio/ogg;codecs=opus")
  else if eqb ext (js "flac") then Ok (js "audio/flac")
  else if eqb ext (js "wav") then Ok (js "audio/x-pcm;bit=16;rate=16000")
  else Throw (Error (js "Unsupported audio format: ." ++ ext)).

End Files.

(** ** The folder tree: collecting files and chat logs *)

Module Vault.
Import Paths Files.

(** A [TAbstractFile]: a file, or a folder with its path and children. *)
Inductive TAbstractFile : Type :=
| AFile (f : VFile)
| AFolder (folderPath : jsstring) (children : list TAbstractFile).

(** [array.sort(compare)] for a comparison that orders the elements by a
    number: the sort is stable, so the result is the one that insertion
    from the right gives, [before a b] telling that [compare(a, b) <= 0]. *)
Fixpoint insert_by {A} (before : A -> A -> bool) (x : A) (l : list A)
    : list A :=
  match l with
  | [] => [x]
  | y :: l' => if before x y then x :: l else y :: insert_by before x l'
  end.

Definition sort_by {A} (before : A -> A -> bool) (l : list A) : list A :=
  foldr (insert_by before) [] l.

Section Collect.

(** [settings.summaryFileName] and [folder.path] of the chosen folder. *)
Variable summaryFileName : jsstring.
Variable folderPath : jsstring.

Definition contextPath : jsstring := getContextPath folderPath.
Definition artifactsPath : jsstring := getArtifactsPath folderPath.
Definition summaryPath : jsstring := contextPath ++ js "/" ++ summaryFileName.

(** The folders that [traverse] does not enter. *)
Definition skipped_folder (p : jsstring) : bool :=
  eqb p contextPath || startsWith (contextPath ++ js "-") p
  || eqb p artifactsPath || startsWith (artifactsPath ++ js "/") p.

(** The files that [traverse] leaves out. *)
Definition skipped_file (p : jsstring) : bool :=
  eqb p summaryPath || startsWith (contextPath ++ js "/") p
  || startsWith (contextPath ++ js "-") p
  || startsWith (artifactsPath ++ js "/") p.

(** The body of the loop of [traverse], for one child. *)
Fixpoint visit (child : TAbstractFile) : list VFile :=
  match child with
  | AFolder p children =>
      if skipped_folder p then [] else flat_map visit children
  | AFile f => if skipped_file (path f) then [] else [f]
  end.

(** [traverse(folder)] *)
Definition traverse (children : list TAbstractFile) : list VFile :=
  flat_map visit children.

(** [collectFilesInFolder], given the children of the folder. *)
Definition collectFilesInFolder (children : list TAbstractFile)
    : list VFile :=
  sort_by (fun a b => (ctime a <=? ctime b)%Z) (traverse children).

Definition CHAT_LOG_PREFIX : jsstring := js "chat-".

Definition includeByExtension (includeJson : bool) (f : VFile) : bool :=
  if includeJson
  then eqb (extension f) (js "md") || eqb (extension f) (js "json")
  else eqb (extension f) (js "md").

(** [collectFromContextTree], for one child. *)
Fixpoint collect_logs (includeJson : bool) (child : TAbstractFile)
    : list VFile :=
  match child with
  | AFolder _ children => flat_map (collect_logs includeJson) children
  | AFile f =>
      if startsWith CHAT_LOG_PREFIX (name f) && includeByExtension includeJson f
      then [f] else []
  end.

(** The children of the folder that are context folders, current or
    archived. *)
Definition is_context_root (child : TAbstractFile) : bool :=
  match child with
  | AFolder p _ => eqb p contextPath || startsWith (contextPath ++ js "-") p
  | AFile _ => false
  end.

Definition getChatLogCandidates (children : list TAbstractFile)
    (includeJson : bool) : list VFile :=
  flat_map
    (fun root =>
       match root with
       | AFolder _ inside => flat_map (collect_logs includeJson) inside
       | AFile _ => []
       end)
    (List.filter is_context_root children).

Definition getLatestChatLogPath (children : list TAbstractFile)
    : option jsstring :=
  match
    sort_by (fun a b => (mtime b <=? mtime a)%Z)
      (getChatLogCandidates children false)
  with
  | [] => None
  | newest :: _ => Some (path newest)
  end.

End Collect.

End Vault.

(** ** Rewriting the chat log, and binary data as text *)

Module Rewrite.
Import ChatLog.

(** The entries that [writeChatLog] keeps. *)
Definition is_logged (m : ChatLogEntry) : bool :=
  match entry_role m with
  | User | Assistant => true
  | System => false
  end.

(** [writeChatLog]: the content that replaces the file.  [now i] is what
    [new Date().toISOString()] gives in the callback for the kept entry
    of index [i]. *)
Definition writeChatLog (now : nat -> jsstring) (history : list ChatLogEntry)
    : jsstring :=
  let header := title ++ [10; 10] in
  let entries :=
    concat
      (imap (fun i m =>
               log_entry (default (now i) (timestamp m)) (entry_role m)
                 (content m))
         (List.filter is_logged history)) in
  header ++ entries.

(** [stripTimestamps], an entry without time being a [ChatMessage]. *)
Definition stripTimestamps (entries : list ChatLogEntry)
    : list ChatLogEntry :=
  (fun m => mkEntry (entry_role m) (content m) None) <$> entries.

#[warnings="-abstract-large-number"]
Definition chunkSize : nat := 8192.

(** The loop of [arrayBufferToBase64]: [i] is its counter and [binary] the
    string built so far; a byte becomes the character of its code.  The
    counter grows at each turn, so as many turns as there are bytes, and
    one more, end the loop. *)
Fixpoint binary_loop (turns : nat) (bytes : list N) (i : nat)
    (binary : jsstring) : jsstring :=
  match turns with
  | O => binary
  | S turns =>
      if (i <? length bytes)%nat then
        let chunk := take chunkSize (drop i bytes) in
        binary_loop turns bytes (i + chunkSize) (binary ++ chunk)
      else binary
  end.

Section Host.

(** The host's [btoa]. *)
Variable btoa : jsstring -> jsstring.

Definition arrayBufferToBase64 (bytes : list N) : jsstring :=
  btoa (binary_loop (S (length bytes)) bytes 0 []).

End Host.

End Rewrite.

(** ** What the plugin writes into the context folder *)

Module Outputs.
Import Transport Paths.

(** The fields of a [Date] that [formatTimestamp] reads, in local time:
    [getMonth] counts from zero. *)
Record local_date : Type := mkDate {
  getDate : Z;
  getMonth : Z;
  getFullYear : Z;
  getHours : Z;
  getMinutes : Z;
  getSeconds : Z
}.

(** [s.padStart(2, "0")] *)
Definition padStart2 (s : jsstring) : jsstring :=
  repeat 48 (2 - length s)%nat ++ s.

(** [s.slice(-2)] *)
Definition slice_last2 (s : jsstring) : jsstring :=
  drop (length s - 2)%nat s.

(** [formatTimestamp], [String(n)] of a whole number being its decimal
    numeral. *)
Definition formatTimestamp (date : local_date) : jsstring :=
  let day := padStart2 (Z_to_js (getDate date)) in
  let month := padStart2 (Z_to_js (getMonth date + 1)) in
  let year := slice_last2 (Z_to_js (getFullYear date)) in
  let hours := padStart2 (Z_to_js (getHours date)) in
  let minutes := padStart2 (Z_to_js (getMinutes date)) in
  let seconds := padStart2 (Z_to_js (getSeconds date)) in
  day ++ js "-" ++ month ++ js "-" ++ year ++ js "T" ++ hours ++ js "-"
    ++ minutes ++ js "-" ++ seconds.

(** The vault as far as [getAbstractFileByPath] tells: the paths it
    holds, each with whether it is a folder. *)
Definition vault : Type := list (jsstring * bool).

Definition getAbstractFileByPath (v : vault) (p : jsstring) : option bool :=
  snd <$> List.find (fun entry => eqb (fst entry) p) v.

Definition ensureFolderExists (v : vault) (p : jsstring) : result vault :=
  match getAbstractFileByPath v p with
  | Some true => Ok v
  | Some false => Throw (Error (js "Path exists but is not a folder: " ++ p))
  | None => Ok (v ++ [(p, true)])
  end.

Definition ensureContextFolder (v : vault) (folderPath : jsstring)
    : result vault :=
  ensureFolderExists v (getContextPath folderPath).

(** [archivedPath] of [archiveContextFolder], for the date of the call. *)
Definition archivedPath (folderPath : jsstring) (now : local_date)
    : jsstring :=
  getContextPath folderPath ++ js "-" ++ formatTimestamp now.

(** The path of the log that [getOrCreateChatLog] creates. *)
Definition new_chat_log (folderPath : jsstring) (now : local_date)
    : jsstring :=
  getContextPath folderPath ++ js "/"
    ++ (js "chat-" ++ formatTimestamp now ++ js ".md").

(** The [while] loop of [saveAssistantResponse]: [filePath] and [index]
    are its variables.  A vault holds finitely many paths, and [turns]
    bounds the turns of the loop: [None] when they do not suffice. *)
Fixpoint free_path (turns : nat) (v : vault) (prefix timestamp : jsstring)
    (filePath : jsstring) (index : Z) : option jsstring :=
  match turns with
  | O => None
  | S turns =>
      match getAbstractFileByPath v filePath with
      | Some _ =>
          free_path turns v prefix timestamp
            (prefix ++ js "ai-response-" ++ timestamp ++ js "-"
               ++ Z_to_js index ++ js ".md")
            (index + 1)
      | None => Some filePath
      end
  end.

(** [saveAssistantResponse]: the vault it leaves and the path it created
    the file at; [None] stands for a loop that does not end. *)
Definition saveAssistantResponse (v : vault) (folderPath : jsstring)
    (now : local_date) : result (option (vault * jsstring)) :=
  v ← ensureContextFolder v folderPath;
  let prefix := getContextPath folderPath ++ js "/" in
  let timestamp := formatTimestamp now in
  let baseName := js "ai-response-" ++ timestamp ++ js ".md" in
  Ok (match free_path (S (length v)) v prefix timestamp (prefix ++ baseName) 1
      with
      | Some filePath => Some (v ++ [(filePath, false)], filePath)
      | None => None
      end).

End Outputs.

(** ** The payload of a summary *)

Module Summary.
Import Transport Files Rewrite.

Definition MAX_IMAGE_BYTES : Z := 10 * 1024 * 1024.

Inductive payload_kind : Type :=
| markdown
| excalidraw
| image
| audio_transcript.

Record SummaryFilePayload : Type := mkFilePayload {
  payload_path : jsstring;
  kind : payload_kind;
  payload_content : jsstring
}.

Record SummaryPayload : Type := mkPayload {
  folderPath : jsstring;
  files : list SummaryFilePayload
}.

Definition unexpected_transcription : js_error :=
  Error (js "Transcription API returned an unexpected response.").

(** The texts of the progress steps, in UTF-16 code units: the Russian
    for "skipping a large image: ", "adding an image: " and
    "transcribing audio ". *)
Definition skipping_image : jsstring :=
  [1055; 1088; 1086; 1087; 1091; 1089; 1082; 1072; 1102; 32; 1073; 1086;
   1083; 1100; 1096; 1086; 1077; 32; 1080; 1079; 1086; 1073; 1088; 1072;
   1078; 1077; 1085; 1080; 1077; 58; 32].

Definition adding_image : jsstring :=
  [1044; 1086; 1073; 1072; 1074; 1083; 1103; 1102; 32; 1080; 1079; 1086;
   1073; 1088; 1072; 1078; 1077; 1085; 1080; 1077; 58; 32].

Definition transcribing_audio : jsstring :=
  [1058; 1088; 1072; 1085; 1089; 1082; 1088; 1080; 1073; 1080; 1088; 1091;
   1102; 32; 1072; 1091; 1076; 1080; 1086; 32].

Section Host.

(** The settings, what the vault reads of a file, the host's [btoa], and
    what [requestUrl] answers to the transcription request for a file. *)
Variable e : env.
Variable read : VFile -> result jsstring.
Variable readBinary : VFile -> result (list N).
Variable btoa : jsstring -> jsstring.
Variable requestUrl : VFile -> result http_response.

Definition callTranscriptionApi (file : VFile) : result jsstring :=
  if bool_decide (apiHost e = []) then Throw not_configured
  else
    url ← buildApiUrl e (apiTranscriptionPath e);
    audioBuffer ← readBinary file;
    audioContentType ← getAudioContentType file;
    result ← requestJson (requestUrl file);
    transcript ←
      match result with
      | Val (JObj _ as o) | Val (JArr _ as o) =>
          t ← get_json o (js "text");
          ts ← get_json o (js "transcript");
          tn ← get_json o (js "transcription");
          Ok (nullish t (nullish ts (nullish tn (Val JNull))))
      | _ => Ok (Val JNull)
      end;
    match as_string transcript with
    | Some s =>
        if (0 <? length s)%nat then Ok s else Throw unexpected_transcription
    | None => Throw unexpected_transcription
    end.

(** The variables of the loop of [buildSummaryPayload], with the calls
    of [onStep] in order. *)
Record build_state : Type := mkBuild {
  filePayloads : list SummaryFilePayload;
  audioIndex : Z;
  steps : list jsstring
}.

(** The body of the loop, [imageSet] holding the paths of the image
    files. *)
Definition build_one (totalAudioFiles : Z) (imageSet : list jsstring)
    (st : build_state) (file : VFile) : result build_state :=
  if isMarkdownFile file then
    content ← read file;
    Ok (mkBuild
          (filePayloads st
             ++ [mkFilePayload (path file)
                   (if isExcalidrawFile file then excalidraw else markdown)
                   content])
          (audioIndex st) (steps st))
  else if has imageSet (path file) then
    if (MAX_IMAGE_BYTES <? size file)%Z then
      Ok (mkBuild (filePayloads st) (audioIndex st)
            (steps st ++ [skipping_image ++ name file]))
    else
      bytes ← readBinary file;
      Ok (mkBuild
            (filePayloads st
               ++ [mkFilePayload (path file) image
                     (arrayBufferToBase64 btoa bytes)])
            (audioIndex st)
            (steps st ++ [adding_image ++ name file]))
  else if isSupportedAudioFile file then
    let audioIndex := (audioIndex st + 1)%Z in
    let steps :=
      steps st
        ++ [transcribing_audio ++ Z_to_js audioIndex ++ js "/"
              ++ Z_to_js totalAudioFiles ++ js ": " ++ name file] in
    transcript ← callTranscriptionApi file;
    if negb (0 <? length transcript)%nat then
      Ok (mkBuild (filePayloads st) audioIndex steps)
    else
      Ok (mkBuild
            (filePayloads st
               ++ [mkFilePayload (path file) audio_transcript transcript])
            audioIndex steps)
  else Ok st.

Fixpoint build_loop (totalAudioFiles : Z) (imageSet : list jsstring)
    (orderedFiles : list VFile) (st : build_state) : result build_state :=
  match orderedFiles with
  | [] => Ok st
  | file :: rest =>
      st' ← build_one totalAudioFiles imageSet st file;
      build_loop totalAudioFiles imageSet rest st'
  end.

Definition buildSummaryPayload (folder : jsstring)
    (orderedFiles : list VFile) (totalAudioFiles : Z)
    (imageFiles : list VFile) : result SummaryPayload :=
  st ← build_loop totalAudioFiles (path <$> imageFiles) orderedFiles
         (mkBuild [] 0 []);
  Ok (mkPayload folder (filePayloads st)).

(** The payload that [summarizeFolder] builds from the files it scans. *)
Definition summary_payload (folder : jsstring) (scanned : list VFile)
    : result SummaryPayload :=
  let s := splitFiles scanned in
  buildSummaryPayload folder scanned (Z.of_nat (length (audioFiles s)))
    (imageFiles s).

End Host.

End Summary.

(** ** Looking for an earlier chat history *)

Module History.
Import Files Vault ChatLog.

Section Host.

(** The host's [Date], and the content that the vault reads at a path
    when the path holds a file. *)
Variable Date_of_string : jsstring -> option jsstring.
Variable Date_of_ms : Q -> option jsstring.
Variable read : jsstring -> option jsstring.

Definition loadChatEntries (p : jsstring) : result (list ChatLogEntry) :=
  match read p with
  | None => Ok []
  | Some content => parseChatLog Date_of_string Date_of_ms content
  end.

(** The loop of [findChatHistory] over the sorted candidates. *)
Fixpoint history_loop (currentPath : jsstring) (candidates : list VFile)
    : result (option (jsstring * list ChatLogEntry)) :=
  match candidates with
  | [] => Ok None
  | file :: rest =>
      if eqb (path file) currentPath then history_loop currentPath rest
      else
        entries ← loadChatEntries (path file);
        if (0 <? length entries)%nat then Ok (Some (path file, entries))
        else history_loop currentPath rest
  end.

Definition findChatHistory (folderPath : jsstring)
    (children : list TAbstractFile) (currentPath : jsstring)
    (includeJson : bool) : result (option (jsstring * list ChatLogEntry)) :=
  match getChatLogCandidates folderPath children includeJson with
  | [] => Ok None
  | candidates =>
      history_loop currentPath
        (sort_by (fun a b => (mtime b <=? mtime a)%Z) candidates)
  end.

End Host.

End History.

(** * What the properties speak of *)

(** ** The transport: reachable connections and sample runs *)

Module TransportSpec.
Import Artifacts Transport.

(** What every reachable connection satisfies.  [listening] tells whether
    a signal that was not aborted was passed. *)
Record wf (listening : bool) (c : conn) : Prop := mkWf {
  wf_text : concat (delivered c) = fullText c;
  wf_settled :
    settled c = true ->
    handlers c = false /\ abortListener c = false /\ openTimeout c = false;
  wf_pending :
    settled c = false ->
    settlement c = None /\ handlers c = true /\ abortListener c = listening;
  wf_resolved :
    forall r, settlement c = Some (Ok r) ->
      r = mkResponse (fullText c) (extractArtifactPaths (fullText c));
  wf_some : settled c = true -> is_Some (settlement c)
}.

(** The four ways in which a frame changes a connection. *)
Inductive effect (c : conn) : conn -> Prop :=
| eff_none : effect c c
| eff_chunk x : effect c (append_chunk x c)
| eff_finish : effect c (finish c)
| eff_reject e : effect c (rejectOnce e c).

(** Whether [onAbort] is left listening on the signal. *)
Definition listening (signal : option bool) : bool :=
  match signal with
  | Some false => true
  | _ => false
  end.

(** The text that the stream attempt had accumulated when it ended. *)
Definition streamed (e : env) (signal : option bool) (events : list event)
    : jsstring :=
  match callChatApiWebSocket e signal events with
  | Ok c => fullText c
  | Throw _ => []
  end.

(** A platform for the sample runs.  A URL is joined to its base by
    concatenation and is accepted when it has [://] in it, and refused
    with a [TypeError] otherwise; its protocol runs up to the first colon,
    and is replaced only when it is one of the special ones; a socket is
    made for the [ws:] and [wss:] URLs only, and refused for another
    scheme with an exception whose message names the scheme. *)
Fixpoint upto_colon (s : jsstring) : jsstring :=
  match s with
  | [] => []
  | c :: rest => if c =? 58 then [c] else c :: upto_colon rest
  end.

Definition is_special (protocol : jsstring) : bool :=
  existsb (eqb protocol) [js "http:"; js "https:"; js "ws:"; js "wss:"].

Definition demo_URL_new (input : jsstring) (base : option jsstring)
    : result jsstring :=
  let joined := default [] base ++ input in
  if includes (js "://") joined then Ok joined
  else Throw (mkError TypeError (js "Failed to construct 'URL': Invalid URL")).

Definition demo_set_protocol (protocol url : jsstring) : jsstring :=
  if is_special (upto_colon url)
  then protocol ++ drop (length (upto_colon url)) url
  else url.

Definition demo_has_param (name url : jsstring) : bool :=
  includes (js "?" ++ name ++ js "=") url.

Definition demo_set_param (name value url : jsstring) : jsstring :=
  url ++ js "?" ++ name ++ js "=" ++ value.

Definition demo_WebSocket_new (url : jsstring) : result unit :=
  let protocol := upto_colon url in
  if eqb protocol (js "ws:") || eqb protocol (js "wss:") then Ok tt
  else
    Throw (mkError SyntaxError
             (js "Failed to construct 'WebSocket': The URL's scheme must be "
                ++ js "either 'http', 'https', 'ws', or 'wss'. '"
                ++ removelast protocol ++ js "' is not allowed.")).

(** The settings with a given host on that platform. *)
Definition platform (host : jsstring) (hasWebSocket : bool) : env :=
  mkEnv host (js "/chat") (js "/transcriptions") hasWebSocket
    demo_URL_new upto_colon demo_set_protocol demo_has_param demo_set_param
    demo_WebSocket_new.

(** A configured host with WebSocket support, and a fallback endpoint that
    answers [{"message": "Hello"}]. *)
Definition demo_env : env := platform (js "https://api.example") true.

(** Whether the socket of the stream attempt is constructed. *)
Definition socket_made (e : env) : Prop :=
  apiHost e <> [] /\ hasWebSocket e = true
  /\ exists url,
       buildChatWebSocketUrl e = Ok url /\ WebSocket_new e url = Ok tt.

Definition demo_http : result http_response :=
  Ok (mkHttp 200 (Val (JObj [(js "message", JStr (js "Hello"))])) []).

Definition error_frame : jsstring := jsq "{'type':'error','message':'boom'}".

(** What a string frame does: a sentinel finishes, anything else is a
    chunk. *)
Definition literal (s : jsstring) (c : conn) : conn :=
  if is_sentinel (trim s) then finish c else append_chunk s c.

(** A property of an object or array frame. *)
Definition prop (frame : json) (k : jsstring) : jsval :=
  match get_json frame k with
  | Ok v => v
  | Throw _ => Undefined
  end.

Definition aborted : js_error := Error (js "Request aborted").

(** What an object or array frame other than an error frame does. *)
Definition structured (frame : json) (c : conn) : conn :=
  let type := prop frame (js "type") in
  if is_str (js "chunk") type then
    let chunk := default [] (as_string (prop frame (js "text"))) in
    if (0 <? length chunk)%nat then append_chunk chunk c else c
  else if is_str (js "done") type || is_true (prop frame (js "done")) then
    finish c
  else
    match first_string [prop frame (js "message"); prop frame (js "response");
                        prop frame (js "content"); prop frame (js "text")] with
    | Some candidate => append_chunk candidate c
    | None => c
    end.

End TransportSpec.

(** ** The reveal scheduler: one tick on the counts *)

Module RevealSpec.
Import Reveal.
Local Open Scope Z_scope.

(** The unrevealed count after a tick, from the count before it. *)
Definition remaining_after (r : Z) : Z := Z.max 0 (r - step r).

(** The revealed count after a tick that finds text to reveal. *)
Definition advance (len p : Z) : Z := Z.min len (p + step (len - p)).

(** A modal in the middle of a reveal of [t] in body [b]. *)
Definition revealing (b : body) (t : jsstring) (fin : option (body * jsstring))
    (rd : list (body * jsstring)) (p : Z) (sh : option (body * jsstring))
    : modal :=
  mkModal (Some b) t p true fin sh rd.

(** A target of 42 characters, all of them the letter a. *)
Definition forty_two : jsstring := repeat 97%N 42.

End RevealSpec.

(** ** Artifact references: the block of a text *)

Module ArtifactsSpec.
Import Artifacts.

Fixpoint take_while {A} (f : A -> bool) (l : list A) : list A :=
  match l with
  | x :: l' => if f x then x :: take_while f l' else []
  | [] => []
  end.

Fixpoint drop_while {A} (f : A -> bool) (l : list A) : list A :=
  match l with
  | x :: l' => if f x then drop_while f l' else l
  | [] => []
  end.

(** A line whose trimmed form starts with the marker. *)
Definition opens_block (line : jsstring) : bool :=
  startsWith marker (trim line).

(** The path of a bullet line: the trimmed line is a hyphen, any white
    space, and ["/artifacts/"] followed by at least one character that is
    not white space; the path runs up to the next white space. *)
Definition bullet_of (line : jsstring) : option jsstring :=
  match_bullet (trim line).

Definition blank (line : jsstring) : bool := eqb (trim line) [].

(** The lines that do not end the block. *)
Definition continues (line : jsstring) : bool :=
  opens_block line || bool_decide (is_Some (bullet_of line)) || blank line.

(** The block of a text: what follows its first marker line, up to the
    first line that is neither blank, nor a bullet, nor a marker line. *)
Definition block_of (text : jsstring) : list jsstring :=
  match drop_while (fun line => negb (opens_block line)) (split_lines text) with
  | [] => []
  | _ :: rest => take_while continues rest
  end.

(** The reading of the specification: the marker line is one whose
    trimmed form equals the marker, and the block ends at the first line
    that is not a bullet, a blank line included. *)
Definition spec_artifact_paths (text : jsstring) : list jsstring :=
  match
    drop_while (fun line => negb (eqb (trim line) marker)) (split_lines text)
  with
  | [] => []
  | _ :: rest =>
      omap bullet_of
        (take_while (fun line => bool_decide (is_Some (bullet_of line))) rest)
  end.

(** Scenario E of the specification. *)
Definition scenario_e : jsstring :=
  marker ++ [10] ++ js "- /artifacts/report.pdf" ++ [10]
    ++ js "- /artifacts/x.csv" ++ [10; 10] ++ js "Extra".

(** Two bullets with a blank line between them. *)
Definition spaced_bullets : jsstring :=
  marker ++ [10] ++ js "- /artifacts/a" ++ [10; 10] ++ js "- /artifacts/b".

(** A marker line that goes on after the marker. *)
Definition long_marker : jsstring :=
  marker ++ js " see below" ++ [10] ++ js "- /artifacts/a".

End ArtifactsSpec.

(** ** The snapshot tracker: agreement of stored and current files *)

Module SnapshotSpec.
Import Snapshot.

(** The stored entry agrees with the current files: its path is current,
    with the stored modify-time. *)
Definition agrees (current : gmap jsstring Z) (f : TFile) : Prop :=
  current !! path f = Some (mtime f).

(** The set of the paths of a list of files. *)
Definition paths (files : list TFile) : gset jsstring :=
  list_to_set (path <$> files).

(** A snapshot file with one entry, and the files it was taken of. *)
Definition demo_snapshot : jsstring :=
  jsq "{'files':[{'path':'a.md','mtime':5}]}".

Definition demo_files : list TFile := [mkFile (js "a.md") 5].

End SnapshotSpec.

(** ** Texts without white space at their ends *)

Module LineSpec.

(** A text that neither starts nor ends with white space, and is not
    empty. *)
Definition tidy (s : jsstring) : bool :=
  match s with
  | c :: _ => negb (is_space c)
  | [] => false
  end
  && match last s with
     | Some c => negb (is_space c)
     | None => false
     end.

End LineSpec.

(** ** The chat log: turns and the document that holds them *)

Module ChatLogSpec.
Import ChatLog LineSpec.

(** A logged turn: the time of the append, the role and the text. *)
Definition turn : Type := jsstring * role * jsstring.

Definition header (t : turn) : jsstring :=
  let '(stamp, r, _) := t in js "## [" ++ stamp ++ js "] " ++ role_name r.

Definition entry_text (t : turn) : jsstring :=
  let '(stamp, r, text) := t in log_entry stamp r text.

Definition entry_of (t : turn) : ChatLogEntry :=
  let '(stamp, r, text) := t in mkEntry r text (Some stamp).

(** The lines that an append adds to the log. *)
Definition block_lines (t : turn) : list jsstring :=
  let '(_, _, text) := t in header t :: split_lines text ++ [[]].

(** The log that holds the given turns. *)
Definition document (turns : list turn) : jsstring :=
  title ++ [10; 10] ++ concat (entry_text <$> turns).

(** A line that the scan adds to the buffer: neither a header nor a
    title line. *)
Definition plain (line : jsstring) : bool :=
  match match_header line with
  | Some _ => false
  | None => negb (startsWith title line)
  end.

(** The turns that the log gives back as they are: the role is user or
    assistant; the time has the shape of what [toISOString] prints, not
    empty and on one line; the text is not empty, has no white space at
    either end and no carriage return before a line feed, and none of its
    lines would read as a header or as the title. *)
Definition loggable (t : turn) : Prop :=
  let '(stamp, r, text) := t in
  r <> System
  /\ stamp <> []
  /\ forallb (fun c => negb (is_line_terminator c)) stamp = true
  /\ tidy text = true
  /\ join_lines (split_lines text) = text
  /\ forallb plain (split_lines text) = true.

Definition demo_turns : list turn :=
  [(js "2026-01-02T03:04:05.678Z", User, js "Hi there");
   (js "2026-01-02T03:04:09.000Z", Assistant,
    js "Hello." ++ [10; 10] ++ js "- one" ++ [10] ++ js "- two")].

(** A host without usable dates, for the inputs that hold none. *)
Definition no_date {A} (value : A) : option jsstring := None.

End ChatLogSpec.

(** ** The transport: how a stream attempt fails and ends *)

Module TransportMoreSpec.
Import Artifacts Transport TransportSpec.

Definition timed_out : js_error :=
  Error (js "WebSocket connection timed out.").

Definition connection_failed : js_error :=
  Error (js "WebSocket connection failed.").

Definition closed_with (code : Z) : js_error :=
  Error (js "WebSocket closed with code " ++ Z_to_js code ++ js ".").

(** The rejections that the stream attempt makes. *)
Inductive stream_failure : js_error -> Prop :=
| failure_aborted : stream_failure aborted
| failure_timed_out : stream_failure timed_out
| failure_connection : stream_failure connection_failed
| failure_closed code : stream_failure (closed_with code).

(** What holds of a rejected attempt: the rejection is one of the four,
    and it is the abort only when a signal was passed. *)
Definition fails_as (signal : option bool) (c : conn) : Prop :=
  forall err,
    settlement c = Some (Throw err) ->
    stream_failure err /\ (err = aborted -> signal <> None).

(** The texts that [onChunk] has received once the single-shot transport
    has answered, from those the stream attempt had delivered. *)
Definition after_fallback (e : env) (http : result http_response)
    (seen : list jsstring) : list jsstring :=
  match callChatApi e http with
  | Ok response =>
      if (0 <? length (message response))%nat
      then seen ++ [message response] else seen
  | Throw _ => seen
  end.

(** The call as the single-shot transport settles it. *)
Definition fallen_back (e : env) (http : result http_response)
    (seen : list jsstring) : stream_run :=
  mkRun (Some (callChatApi e http)) (after_fallback e http seen) true.

(** The units that end the stream: a sentinel, as the unit itself when it
    is not JSON or as the JSON string it holds, and an object marked
    done, by its type or by its [done] member, whose type is neither
    error nor chunk. *)
Definition ends_stream (raw : jsstring) : bool :=
  match JSON_parse raw with
  | None => is_sentinel (trim raw)
  | Some (JStr s) => is_sentinel (trim s)
  | Some JNull | Some (JBool _) | Some (JNum _) => false
  | Some frame =>
      let type := prop frame (js "type") in
      negb (is_str (js "error") type) && negb (is_str (js "chunk") type)
      && (is_str (js "done") type || is_true (prop frame (js "done")))
  end.

(** A digit or a hyphen: the characters of a decimal numeral. *)
Definition numeral_char (c : N) : bool :=
  (c =? 45) || ((48 <=? c) && (c <=? 57)).

End TransportMoreSpec.

(** ** Artifact paths and file kinds *)

Module FilesSpec.
Import Artifacts Paths Files.

(** An artifact path as the extraction gives it: ["/artifacts/"], then at
    least one character, and no white space. *)
Definition artifact_path (p : jsstring) : bool :=
  startsWith artifacts_prefix p
  && (length artifacts_prefix <? length p)%nat
  && forallb (fun c => negb (is_space c)) p.

(** Neither a slash nor a question mark. *)
Definition no_separator (c : N) : bool := negb (c =? 47) && negb (c =? 63).

(** The kind that the loop of [splitFiles] gives a file. *)
Inductive kind : Type := Audio | Image | UnsupportedAudio | Text | Skipped.

Definition kind_of (f : VFile) : kind :=
  if isSupportedAudioFile f then Audio
  else if isImageFile f then Image
  else if isAnyAudioFile f then UnsupportedAudio
  else if isMarkdownFile f then Text
  else Skipped.

Definition kind_eqb (a b : kind) : bool :=
  match a, b with
  | Audio, Audio | Image, Image | UnsupportedAudio, UnsupportedAudio
  | Text, Text | Skipped, Skipped => true
  | _, _ => false
  end.

Definition of_kind (k : kind) (files : list VFile) : list VFile :=
  List.filter (fun f => kind_eqb (kind_of f) k) files.

End FilesSpec.

(** ** The chat log as [writeChatLog] rewrites it *)

Module RewriteSpec.
Import ChatLog ChatLogSpec Rewrite.

(** The turns that [writeChatLog] writes: the kept entries, each with its
    own time or, when it has none, the time of the rewrite. *)
Definition migrated (now : nat -> jsstring) (history : list ChatLogEntry)
    : list turn :=
  imap (fun i m => (default (now i) (timestamp m), entry_role m, content m))
    (List.filter is_logged history).

Definition legacy_history : list ChatLogEntry :=
  [mkEntry System (js "You are a helpful assistant.") None;
   mkEntry User (js "Hi there") (Some (js "2025-12-31T23:59:59.000Z"));
   mkEntry Assistant (js "Hello.") None].

End RewriteSpec.

(** ** The chat log as it grows *)

Module AppendSpec.
Import ChatLog ChatLogSpec.

(** The content that [parseChatLog] first reads as legacy JSON: what is
    left of it by [trim] starts with a brace or a bracket. *)
Definition legacy_shaped (content : jsstring) : bool :=
  startsWith (js "{") (trim content) || startsWith (js "[") (trim content).

(** A log that was edited by hand: a note without header, and a turn
    whose text has blank lines around it. *)
Definition edited_log : jsstring :=
  js "# Chat history" ++ [10; 10] ++ js "a note" ++ [10]
    ++ js "## [2026-01-01T00:00:00.000Z] user" ++ [10; 10]
    ++ js "  Hi  " ++ [10; 10; 10].

End AppendSpec.

(** ** The snapshot of an unchanged folder *)

Module UnchangedSpec.
Import Snapshot.

(** The snapshot file of two files, as [JSON.stringify] writes it, and
    the files in another order. *)
Definition two_snapshot : jsstring :=
  jsq "{'files':[{'path':'a.md','mtime':5},{'path':'b/c.md','mtime':7}]}".

Definition two_files : list TFile :=
  [mkFile (js "a.md") 5; mkFile (js "b/c.md") 7].

End UnchangedSpec.

(** ** What the plugin writes into the context folder *)

Module OutputsSpec.
Import Transport TransportMoreSpec Paths Files Vault Outputs.

(** A character of a time stamp: a digit, a hyphen or the letter T. *)
Definition stamp_char (c : N) : bool := numeral_char c || (c =? 84).

(** The fields of a date are in their ranges, and the year is not one of
    the years 0 to 9. *)
Definition dated (d : local_date) : Prop :=
  (1 <= getDate d <= 31 /\ 0 <= getMonth d <= 11
   /\ 0 <= getHours d <= 23 /\ 0 <= getMinutes d <= 59
   /\ 0 <= getSeconds d <= 59
   /\ (getFullYear d < 0 \/ 10 <= getFullYear d))%Z.

(** The value of a decimal numeral, from the value of what precedes
    it. *)
Definition dec_value (a : N) (s : jsstring) : N :=
  fold_left (fun a c => 10 * a + (c - 48)) s a.

(** The paths that the loop of [saveAssistantResponse] tries, in order:
    the base name first, then the indexed names. *)
Definition candidate (prefix timestamp : jsstring) (k : nat) : jsstring :=
  match k with
  | O => prefix ++ js "ai-response-" ++ timestamp ++ js ".md"
  | S _ =>
      prefix ++ js "ai-response-" ++ timestamp ++ js "-"
        ++ Z_to_js (Z.of_nat k) ++ js ".md"
  end.

(** The second of January 2026, at 03:04:05. *)
Definition second_of_january : local_date := mkDate 2 0 2026 3 4 5.

(** A vault with the context folder of [notes] and two saved responses
    of that second. *)
Definition busy_vault : vault :=
  [(js "notes", true); (js "notes/4senseContext", true);
   (js "notes/4senseContext/ai-response-02-01-26T03-04-05.md", false);
   (js "notes/4senseContext/ai-response-02-01-26T03-04-05-1.md", false)].

End OutputsSpec.

(** ** The payload of a summary *)

Module SummarySpec.
Import Transport Files Summary.

(** The files that a payload has an entry for. *)
Definition included (f : VFile) : bool :=
  isMarkdownFile f
  || (isImageFile f && negb (MAX_IMAGE_BYTES <? size f)%Z)
  || isSupportedAudioFile f.

(** The files that a progress step is shown for. *)
Definition announced (f : VFile) : bool :=
  isImageFile f || isSupportedAudioFile f.

Definition of_payload_kind (f : VFile) (k : payload_kind) : bool :=
  match k with
  | markdown => isMarkdownFile f && negb (isExcalidrawFile f)
  | excalidraw => isMarkdownFile f && isExcalidrawFile f
  | image => isImageFile f
  | audio_transcript => isSupportedAudioFile f
  end.

(** The entry is the entry of the file: it has its path and the kind of
    the file, and a transcript is not empty. *)
Definition describes (p : SummaryFilePayload) (f : VFile) : Prop :=
  payload_path p = path f
  /\ of_payload_kind f (kind p) = true
  /\ (kind p = audio_transcript -> payload_content p <> []).

(** A folder with a note, a drawing, a picture, a recording and a file
    of another kind, and a host that reads and transcribes them. *)
Definition scanned_demo : list VFile :=
  [mkVFile (js "n/a.md") (js "a.md") (js "md") 1 1 10;
   mkVFile (js "n/b.excalidraw.md") (js "b.excalidraw.md") (js "md") 2 2 10;
   mkVFile (js "n/c.PNG") (js "c.PNG") (js "PNG") 3 3 10;
   mkVFile (js "n/d.mp3") (js "d.mp3") (js "mp3") 4 4 10;
   mkVFile (js "n/e.pdf") (js "e.pdf") (js "pdf") 5 5 10].

Definition demo_read (f : VFile) : result jsstring := Ok (name f).
Definition demo_readBinary (f : VFile) : result (list N) := Ok [1; 2; 3].
Definition demo_btoa (s : jsstring) : jsstring := s.
Definition demo_requestUrl (f : VFile) : result http_response :=
  Ok (mkHttp 200 (Val (JObj [(js "transcript", JStr (js "words"))])) []).

End SummarySpec.

(** ** Legacy JSON logs *)

Module LegacySpec.
Import ChatLog.

(** A record of a legacy log: a role, a text and a time, when there is
    one, as the JSON object [{ role, content, timestamp }]. *)
Definition legacy_record (m : role * jsstring * option jsstring) : json :=
  let '(r, text, stamp) := m in
  JObj ([(js "role", JStr (role_name r)); (js "content", JStr text)]
          ++ match stamp with
             | Some s => [(js "timestamp", JStr s)]
             | None => []
             end).

(** The entry that is read from it, given how the host reads a date. *)
Definition legacy_entry (Date_of_string : jsstring -> option jsstring)
    (m : role * jsstring * option jsstring) : ChatLogEntry :=
  let '(r, text, stamp) := m in mkEntry r text (stamp ≫= Date_of_string).

(** The keys under which an object may hold the records. *)
Definition wrapper_keys : list jsstring :=
  [js "messages"; js "history"; js "items"; js "log"].

(** A legacy log of two records, and a host that reads every date as
    the first of January 2026. *)
Definition legacy_log : jsstring :=
  jsq " {'history':[{'role':'system','content':'Be brief.'},"
    ++ jsq "{'role':'user','content':'Hi','timestamp':'2026'}]} ".

Definition new_year (s : jsstring) : option jsstring :=
  Some (js "2026-01-01T00:00:00.000Z").

End LegacySpec.

(** ** The reveal and the final rendering *)

Module FinalizeSpec.
Import Reveal.

(** What the chat does to the reveal scheduler: a chunk updates the text
    of a body, the timer fires, the answer is finalized, and a new send
    resets the state. *)
Inductive modal_event : Type :=
| Update (b : body) (text : jsstring)
| Fire
| Finalize (b : body) (text : jsstring)
| Renew.

Definition apply_event (m : modal) (ev : modal_event) : modal :=
  match ev with
  | Update b text => updateTypingText b text m
  | Fire => tick m
  | Finalize b text => queueFinalize b text m
  | Renew => resetStreamingState m
  end.

(** The modal after a sequence of events, from its construction. *)
Definition after (events : list modal_event) : modal :=
  fold_left apply_event events fresh.

(** An exchange that was finalized, then a new one with two chunks and a
    tick between them. *)
Definition second_exchange : list modal_event :=
  [Renew; Update 0%nat (js "Hello"); Fire; Finalize 0%nat (js "Hello");
   Fire; Fire; Fire; Renew; Update 1%nat (js "Good");
   Fire; Update 1%nat (js "Good day")].

End FinalizeSpec.

(** ** Looking for an earlier chat history *)

Module HistorySpec.
Import Files Vault ChatLog History.

(** A folder whose context holds the current log, empty, and whose
    archived context holds an older log with one turn and a legacy log,
    older still. *)
Definition archive_tree : list TAbstractFile :=
  [AFile (mkVFile (js "n/a.md") (js "a.md") (js "md") 1 1 1);
   AFolder (js "n/4senseContext")
     [AFile (mkVFile (js "n/4senseContext/chat-3.md") (js "chat-3.md")
               (js "md") 3 30 1)];
   AFolder (js "n/4senseContext-01")
     [AFile (mkVFile (js "n/4senseContext-01/chat-2.md") (js "chat-2.md")
               (js "md") 2 20 1);
      AFile (mkVFile (js "n/4senseContext-01/chat-1.json") (js "chat-1.json")
               (js "json") 1 10 1)]].

Definition archive_read (p : jsstring) : option jsstring :=
  if eqb p (js "n/4senseContext/chat-3.md")
  then Some (js "# Chat history" ++ [10; 10])
  else if eqb p (js "n/4senseContext-01/chat-2.md")
  then Some (js "# Chat history" ++ [10; 10]
               ++ js "## [2026-01-01T00:00:00.000Z] user" ++ [10]
               ++ js "Hi" ++ [10; 10])
  else if eqb p (js "n/4senseContext-01/chat-1.json")
  then Some (jsq "[{'role':'user','content':'Old'}]")
  else None.

End HistorySpec.

(** * Properties *)

(** ** Strings *)

Module JsStringFacts.

Lemma eqb_eq (a b : jsstring) : eqb a b = true <-> a = b.
Proof.
  revert b; induction a as [|x a IH]; intros [|y b]; simpl; try easy.
  rewrite andb_true_iff, N.eqb_eq, IH. split.
  - intros [-> ->]; reflexivity.
  - intros [= -> ->]; auto.
Qed.

Lemma eqb_refl (a : jsstring) : eqb a a = true.
Proof. apply eqb_eq; reflexivity. Qed.

Lemma eqb_neq (a b : jsstring) : eqb a b = false <-> a <> b.
Proof.
  rewrite <- eqb_eq. destruct (eqb a b); split; congruence.
Qed.

End JsStringFacts.
Import JsStringFacts.

(** ** The transport *)

Module TransportFacts.
Import Artifacts Transport TransportSpec.

Ltac split_branches :=
  repeat match goal with
         | |- context [if ?b then _ else _] => destruct b
         | |- context [match ?o with Some _ => _ | None => _ end] =>
             destruct o
         end.

Lemma handleFrame_effect frame c :
  match handleFrame frame c with
  | Ok c' => effect c c'
  | Throw _ => True
  end.
Proof.
  destruct frame as [| | |s|items|fields]; simpl; try constructor.
  all: split_branches; simpl; try exact I; constructor.
Qed.

Lemma onmessage_effect d c : effect c (onmessage d c).
Proof.
  unfold onmessage. destruct (settled c); [constructor|].
  assert (Hlit : forall raw, effect c
            match handleFrame (JStr raw) c with
            | Ok c' => c'
            | Throw e => rejectOnce e c
            end).
  { intros raw. simpl. destruct (is_sentinel (trim raw)); constructor. }
  assert (Hany : forall raw, effect c
            match parse_or_literal raw c with
            | Ok c' => c'
            | Throw e => rejectOnce e c
            end).
  { intros raw. unfold parse_or_literal, try_catch.
    destruct (JSON_parse raw) as [frame|]; [|apply Hlit].
    pose proof (handleFrame_effect frame c) as H.
    destruct (handleFrame frame c); [exact H|apply Hlit]. }
  destruct d; auto.
Qed.

Lemma wf_settle l c r :
  wf l c -> settled c = false ->
  (forall resp, r = Ok resp ->
     resp = mkResponse (fullText c) (extractArtifactPaths (fullText c))) ->
  wf l (settle r c).
Proof.
  intros [Ht Hs Hp Hr Hsome] Hun Hresp.
  constructor; simpl; auto; try discriminate; eauto.
  intros resp [= ->]. auto.
Qed.

Lemma wf_socket_close l c args : wf l c -> wf l (socket_close args c).
Proof. intros [Ht Hs Hp Hr Hsome]. constructor; simpl; auto. Qed.

Lemma wf_append_chunk l c x :
  wf l c -> settled c = false -> wf l (append_chunk x c).
Proof.
  intros [Ht Hs Hp Hr Hsome] Hun. constructor; simpl; auto.
  - rewrite concat_app, Ht. simpl. rewrite app_nil_r. reflexivity.
  - destruct (Hp Hun) as (Hnone & _). rewrite Hnone. discriminate.
Qed.

Lemma wf_rejectOnce l c e : wf l c -> wf l (rejectOnce e c).
Proof.
  intros H. unfold rejectOnce. destruct (settled c) eqn:Hs; [exact H|].
  apply wf_settle; auto. discriminate.
Qed.

Lemma wf_finalize l c : wf l c -> wf l (finalizeWithText (fullText c) c).
Proof.
  intros H. unfold finalizeWithText, resolveOnce.
  destruct (settled c) eqn:Hs; [exact H|].
  apply wf_settle; auto. intros resp [= <-]. reflexivity.
Qed.

Lemma wf_effect l c c' :
  wf l c -> settled c = false -> effect c c' -> wf l c'.
Proof.
  intros H Hun [ |x| |e]; auto using wf_append_chunk, wf_rejectOnce.
  apply wf_socket_close, wf_finalize, H.
Qed.

Lemma wf_step l c ev : wf l c -> wf l (step c ev).
Proof.
  intros H. destruct ev as [|d| |code| |]; simpl.
  - destruct (handlers c) eqn:Hh; [|exact H].
    destruct H as [Ht Hs Hp Hr Hsome]. constructor; simpl; auto.
    intros Hset. destruct (Hs Hset) as (? & ? & ?). auto.
  - destruct (handlers c) eqn:Hh; [|exact H].
    destruct (settled c) eqn:Hs.
    + unfold onmessage. rewrite Hs. exact H.
    + eapply wf_effect; eauto using onmessage_effect.
  - destruct (handlers c); auto using wf_rejectOnce.
  - destruct (handlers c); [|exact H]. unfold onclose.
    destruct (settled c); [exact H|].
    destruct (code =? 1000)%Z; [apply wf_finalize, H|].
    destruct (0 <? length (fullText c))%nat;
      auto using wf_finalize, wf_rejectOnce.
  - destruct (openTimeout c); [|exact H].
    apply wf_rejectOnce, wf_socket_close, H.
  - destruct (abortListener c); [|exact H].
    apply wf_rejectOnce, wf_socket_close, H.
Qed.

Lemma wf_run l c events : wf l c -> wf l (fold_left step events c).
Proof.
  revert c; induction events as [|ev events IH]; simpl; auto using wf_step.
Qed.

Lemma wf_executor signal : wf (listening signal) (executor signal).
Proof.
  destruct signal as [[|]|]; constructor; simpl; try easy; eauto.
Qed.

(** Whether the socket is constructed depends on neither the signal nor
    the events: when it is, the call is the run of the events from the
    executor; when it is not, what was thrown rejects every call. *)
Lemma socket_made_run e signal events :
  socket_made e ->
  callChatApiWebSocket e signal events
  = Ok (fold_left step events (executor signal)).
Proof.
  intros (Hhost & Hsock & url & Hurl & Hnew). unfold callChatApiWebSocket.
  rewrite bool_decide_eq_false_2 by exact Hhost.
  rewrite Hsock, Hurl. cbn [negb mbind result_bind bind].
  rewrite Hnew. reflexivity.
Qed.

Lemma run_socket_made e signal events c :
  callChatApiWebSocket e signal events = Ok c -> socket_made e.
Proof.
  unfold callChatApiWebSocket, socket_made.
  destruct (bool_decide (apiHost e = [])) eqn:Hhost; [discriminate|].
  apply bool_decide_eq_false in Hhost.
  destruct (hasWebSocket e); [|discriminate]. cbn [negb].
  destruct (buildChatWebSocketUrl e) as [url|];
    cbn [mbind result_bind bind]; [|discriminate].
  destruct (WebSocket_new e url) as [[]|] eqn:Hnew; [|discriminate].
  intros _. eauto.
Qed.

Lemma run_executor e signal events c :
  callChatApiWebSocket e signal events = Ok c ->
  c = fold_left step events (executor signal).
Proof.
  intros Hws.
  rewrite (socket_made_run e signal events (run_socket_made _ _ _ _ Hws))
    in Hws.
  congruence.
Qed.

Lemma run_throws e signal events err :
  callChatApiWebSocket e signal events = Throw err ->
  forall signal' events', callChatApiWebSocket e signal' events' = Throw err.
Proof.
  unfold callChatApiWebSocket. intros H signal' events'.
  destruct (bool_decide (apiHost e = [])); [exact H|].
  destruct (negb (hasWebSocket e)); [exact H|].
  destruct (buildChatWebSocketUrl e) as [url|];
    cbn [mbind result_bind bind] in *; [|exact H].
  destruct (WebSocket_new e url) as [[]|]; [discriminate|exact H].
Qed.

Lemma wf_reachable e signal events c :
  callChatApiWebSocket e signal events = Ok c -> wf (listening signal) c.
Proof.
  intros Hws. rewrite (run_executor _ _ _ _ Hws). apply wf_run, wf_executor.
Qed.

(** Once the promise is settled no event changes anything. *)
Lemma step_settled l c ev : wf l c -> settled c = true -> step c ev = c.
Proof.
  intros H Hs. destruct (wf_settled _ _ H Hs) as (Hh & Ha & Ho).
  destruct ev; simpl; rewrite ?Hh, ?Ha, ?Ho; reflexivity.
Qed.

Lemma run_settled l c events :
  wf l c -> settled c = true -> fold_left step events c = c.
Proof.
  intros H Hs. induction events as [|ev events IH]; simpl; [reflexivity|].
  rewrite (step_settled l); auto.
Qed.

Lemma run_app e signal pre post c :
  callChatApiWebSocket e signal pre = Ok c ->
  callChatApiWebSocket e signal (pre ++ post) = Ok (fold_left step post c).
Proof.
  intros Hws. pose proof (run_socket_made _ _ _ _ Hws) as Hmade.
  rewrite (run_executor _ _ _ _ Hws), (socket_made_run _ _ _ Hmade).
  rewrite fold_left_app. reflexivity.
Qed.

Lemma stream_run_resolved e signal events c r :
  callChatApiWebSocket e signal events = Ok c ->
  settlement c = Some (Ok r) ->
  forall http,
    callChatApiStream e signal events http
    = mkRun (Some (Ok r)) (delivered c) false.
Proof.
  intros Hws Hr http. unfold callChatApiStream. rewrite Hws, Hr. reflexivity.
Qed.

Lemma pending_handlers l c :
  wf l c -> settled c = false -> handlers c = true /\ abortListener c = l.
Proof. intros H Hun. destruct (wf_pending _ _ H Hun) as (_ & ? & ?); auto. Qed.

(** C10, as the code has it: a close that comes while the stream attempt
    is pending resolves the call and runs no fallback, with the accumulated
    text when the code is not 1000 and some text was accumulated, and
    whatever was accumulated when the code is 1000, which is the empty
    message when nothing was.  A close that comes once the attempt is
    settled changes nothing in what the call does. *)
Theorem close_resolves_with_accumulated_text
    e signal pre code post http c :
  callChatApiWebSocket e signal pre = Ok c ->
  let resolved :=
    mkRun (Some (Ok (mkResponse (fullText c)
                       (extractArtifactPaths (fullText c)))))
      (delivered c) false in
  (settled c = false ->
   (code <> 1000%Z -> fullText c <> [] ->
    callChatApiStream e signal (pre ++ Close code :: post) http = resolved)
   /\ callChatApiStream e signal (pre ++ Close 1000 :: post) http = resolved
   /\ (fullText c = [] ->
       callChatApiStream e signal (pre ++ Close 1000 :: post) http
       = mkRun (Some (Ok (mkResponse [] []))) (delivered c) false))
  /\ (settled c = true ->
      callChatApiStream e signal (pre ++ Close code :: post) http
      = callChatApiStream e signal pre http).
Proof.
  intros Hws resolved.
  pose proof (wf_reachable _ _ _ _ Hws) as Hwf.
  split; [intros Hun|].
  2:{ intros Hs. unfold callChatApiStream.
      rewrite (run_app _ _ _ _ _ Hws), Hws.
      rewrite (run_settled (listening signal)); auto. }
  destruct (pending_handlers _ _ Hwf Hun) as (Hh & _).
  assert (Hfin : forall code',
             (code' = 1000%Z \/ fullText c <> []) ->
             callChatApiStream e signal (pre ++ Close code' :: post) http
             = resolved).
  { intros code' Hcase.
    assert (Hstep : step c (Close code') = finalizeWithText (fullText c) c).
    { simpl. rewrite Hh. unfold onclose. rewrite Hun.
      destruct (code' =? 1000)%Z eqn:Hc; [reflexivity|].
      destruct Hcase as [->|Hne]; [discriminate|].
      destruct (fullText c); [congruence|reflexivity]. }
    assert (Hset : finalizeWithText (fullText c) c
                   = settle (Ok (mkResponse (fullText c)
                                   (extractArtifactPaths (fullText c)))) c).
    { unfold finalizeWithText, resolveOnce. rewrite Hun. reflexivity. }
    rewrite Hset in Hstep.
    assert (Hwf' : wf (listening signal)
                     (settle (Ok (mkResponse (fullText c)
                                    (extractArtifactPaths (fullText c)))) c)).
    { apply wf_settle; auto. intros resp [= <-]. reflexivity. }
    assert (Hend : callChatApiWebSocket e signal (pre ++ Close code' :: post)
                   = Ok (settle (Ok (mkResponse (fullText c)
                                       (extractArtifactPaths (fullText c))))
                           c)).
    { rewrite (run_app _ _ _ _ _ Hws). cbn [fold_left]. rewrite Hstep.
      rewrite (run_settled (listening signal)); auto. }
    rewrite (stream_run_resolved _ _ _ _ _ Hend eq_refl). reflexivity. }
  split; [|split].
  - intros _ Hne. apply Hfin. auto.
  - apply Hfin. auto.
  - intros Hempty. rewrite Hfin by auto. subst resolved.
    rewrite Hempty. reflexivity.
Qed.

Lemma close_resolves_with_accumulated_text_witness :
  callChatApiStream demo_env (Some false)
    ([Open; Message (DataString (js "Hi"))] ++ [Close 1006]) demo_http
  = mkRun (Some (Ok (mkResponse (js "Hi") []))) [js "Hi"] false.
Proof.
  refine (proj1 (proj1 (close_resolves_with_accumulated_text demo_env
                          (Some false)
                          [Open; Message (DataString (js "Hi"))] 1006 []
                          demo_http
                          (mkConn false (js "Hi") [js "Hi"] None [] 1
                             true true false)
                          _) _) _ _).
  - reflexivity.
  - reflexivity.
  - discriminate.
  - discriminate.
Defined.

(** The stream delivers "Hel", the socket fails and then closes with code
    1006: the close finds the attempt rejected, and the call is answered
    by the single-shot transport, with "Hello" and not with "Hel". *)
Lemma close_after_error_falls_back :
  let events :=
    [Open; Message (DataString (js "Hel")); SocketError; Close 1006] in
  streamed demo_env (Some false) events = js "Hel"
  /\ callChatApiStream demo_env (Some false) events demo_http
     = mkRun (Some (Ok (mkResponse (js "Hello") []))) [js "Hel"; js "Hello"]
         true.
Proof. vm_compute. split; reflexivity. Qed.

(** C8, as the code has it: when the cancellation token triggers while
    the stream attempt is pending, before the socket opens or in
    mid-stream, the socket is closed with code 1000, the call is rejected
    with the abort error, and the single-shot transport is not called; so
    it is when the token is already triggered as the socket is
    constructed.  A token that triggers once the attempt is settled
    changes nothing in what the call does.  When the socket is not
    constructed the token is not looked at: the call goes on as the
    [catch] block has it for what was thrown, whatever the token. *)
Theorem abort_rejects_without_fallback e http :
  (forall pre post c,
     callChatApiWebSocket e (Some false) pre = Ok c ->
     settled c = false ->
     callChatApiStream e (Some false) (pre ++ SignalAbort :: post) http
     = mkRun (Some (Throw aborted)) (delivered c) false
     /\ exists c',
          callChatApiWebSocket e (Some false) (pre ++ SignalAbort :: post)
          = Ok c'
          /\ closes c' = closes c ++ [Some (1000%Z, js "aborted")])
  /\ (socket_made e ->
      forall events,
        callChatApiStream e (Some true) events http
        = mkRun (Some (Throw aborted)) [] false
        /\ exists c',
             callChatApiWebSocket e (Some true) events = Ok c'
             /\ closes c' = [Some (1000%Z, js "aborted")])
  /\ (forall signal pre post c,
        callChatApiWebSocket e signal pre = Ok c ->
        settled c = true ->
        callChatApiStream e signal (pre ++ SignalAbort :: post) http
        = callChatApiStream e signal pre http)
  /\ (forall signal events err,
        callChatApiWebSocket e signal events = Throw err ->
        forall signal' events',
          callChatApiStream e signal' events' http
          = on_stream_failure e http [] err).
Proof.
  split; [|split; [|split]].
  3:{ intros signal pre post c Hws Hs. unfold callChatApiStream.
      rewrite (run_app _ _ _ _ _ Hws), Hws.
      rewrite (run_settled (listening signal)); auto.
      eapply wf_reachable; eauto. }
  3:{ intros signal events err Hws signal' events'. unfold callChatApiStream.
      rewrite (run_throws _ _ _ _ Hws). reflexivity. }
  - intros pre post c Hws Hun.
    pose proof (wf_reachable _ _ _ _ Hws) as Hwf.
    destruct (pending_handlers _ _ Hwf Hun) as (_ & Hl). simpl in Hl.
    set (c' := settle (Throw aborted)
                 (socket_close (Some (1000%Z, js "aborted")) c)).
    assert (Hstep : step c SignalAbort = c').
    { simpl. rewrite Hl. unfold onAbort, rejectOnce. simpl. rewrite Hun.
      reflexivity. }
    assert (Hwf' : wf true c').
    { apply wf_settle; auto using wf_socket_close. discriminate. }
    assert (Hend : callChatApiWebSocket e (Some false)
                     (pre ++ SignalAbort :: post)
                   = Ok c').
    { rewrite (run_app _ _ _ _ _ Hws). cbn [fold_left]. rewrite Hstep.
      rewrite (run_settled true); auto. }
    split; [|exists c'; split; [exact Hend|reflexivity]].
    unfold callChatApiStream. rewrite Hend. reflexivity.
  - intros Hmade events.
    assert (Hend : callChatApiWebSocket e (Some true) events
                   = Ok (executor (Some true))).
    { rewrite (socket_made_run _ _ _ Hmade).
      rewrite (run_settled false); auto.
      apply (wf_executor (Some true)). }
    split; [|eexists; split; [exact Hend|reflexivity]].
    unfold callChatApiStream. rewrite Hend. reflexivity.
Qed.

Lemma abort_rejects_without_fallback_witness :
  callChatApiStream demo_env (Some false)
    ([Open; Message (DataString (js "Hel"))] ++ SignalAbort :: [Close 1000])
    demo_http
  = mkRun (Some (Throw aborted)) [js "Hel"] false
  /\ callChatApiStream demo_env (Some true) [Open] demo_http
     = mkRun (Some (Throw aborted)) [] false.
Proof.
  split.
  - refine (proj1 (proj1 (abort_rejects_without_fallback demo_env demo_http)
                     [Open; Message (DataString (js "Hel"))] [Close 1000]
                     (mkConn false (js "Hel") [js "Hel"] None [] 1
                        true true false) _ _)).
    + reflexivity.
    + reflexivity.
  - refine (proj1 (proj1 (proj2 (abort_rejects_without_fallback demo_env
                                   demo_http))
                     _ [Open])).
    split; [discriminate|split; [reflexivity|]].
    eexists. split; reflexivity.
Defined.

(** The connect timer fires and the token triggers afterwards, before any
    open: the call is answered by the single-shot transport.  With a host
    that is no absolute URL and a token that is already triggered, the
    socket is not constructed, the single-shot transport is called, and
    the call is rejected with what the URL constructor throws. *)
Lemma abort_after_timeout_falls_back :
  callChatApiStream demo_env (Some false) [TimerFired; SignalAbort] demo_http
  = mkRun (Some (Ok (mkResponse (js "Hello") []))) [js "Hello"] true
  /\ callChatApiStream (platform (js "localhost:8080") true) (Some true) []
       demo_http
     = mkRun (Some (Throw (mkError TypeError
                             (js "Failed to construct 'URL': Invalid URL"))))
         [] true.
Proof. vm_compute. split; reflexivity. Qed.

(** C2, as the code has it: the texts passed to [onChunk] concatenate to
    the message of the resolved result when the stream produced it; when
    the single-shot transport produced it they concatenate to the text the
    failed stream attempt had delivered followed by the message, which is
    the message alone when the attempt had delivered no text. *)
Theorem chunks_concat_message e signal events http r :
  let run := callChatApiStream e signal events http in
  outcome run = Some (Ok r) ->
  concat (chunks run)
  = (if fallback run then streamed e signal events else []) ++ message r.
Proof.
  intros run Hout. subst run. revert Hout.
  unfold callChatApiStream, streamed.
  assert (Hfail : forall seen error,
            outcome (on_stream_failure e http seen error) = Some (Ok r) ->
            fallback (on_stream_failure e http seen error) = true
            /\ concat (chunks (on_stream_failure e http seen error))
               = concat seen ++ message r).
  { intros seen error. unfold on_stream_failure.
    destruct (isAbortError error); [discriminate|].
    destruct (callChatApi e http) as [resp|]; [|discriminate].
    simpl. intros [= ->]. split; [reflexivity|].
    destruct (message r) as [|x m]; simpl.
    - rewrite app_nil_r. reflexivity.
    - rewrite concat_app. simpl. rewrite app_nil_r. reflexivity. }
  destruct (callChatApiWebSocket e signal events) as [c|error] eqn:Hws.
  - pose proof (wf_reachable _ _ _ _ Hws) as Hwf.
    destruct (settlement c) as [[resp|error]|] eqn:Hset.
    + simpl. intros [= ->].
      rewrite (wf_resolved _ _ Hwf _ Hset). simpl.
      apply (wf_text _ _ Hwf).
    + intros Hout. destruct (Hfail _ _ Hout) as (-> & ->).
      rewrite (wf_text _ _ Hwf). reflexivity.
    + discriminate.
  - intros Hout. destruct (Hfail _ _ Hout) as (-> & ->). reflexivity.
Qed.

Lemma chunks_concat_message_witness :
  concat (chunks (callChatApiStream demo_env (Some false)
                    [Open; Message (DataString (js "Hel"));
                     Message (DataString (js "lo")); Close 1000] demo_http))
  = [] ++ js "Hello".
Proof.
  refine (chunks_concat_message demo_env (Some false)
            [Open; Message (DataString (js "Hel"));
             Message (DataString (js "lo")); Close 1000] demo_http
            (mkResponse (js "Hello") []) _).
  reflexivity.
Defined.

(** The stream delivers "Hel" and then fails; the single-shot transport
    answers "Hello": [onChunk] has received "Hel" and "Hello". *)
Lemma fallback_after_partial_stream_repeats_text :
  let run :=
    callChatApiStream demo_env (Some false)
      [Open; Message (DataString (js "Hel")); SocketError] demo_http in
  outcome run = Some (Ok (mkResponse (js "Hello") []))
  /\ fallback run = true
  /\ concat (chunks run) = js "HelHello"
  /\ concat (chunks run) <> js "Hello".
Proof. vm_compute. repeat split; discriminate. Qed.

(** Whatever frame makes [handleFrame] throw is handled again as the raw
    text it was parsed from; the promise is not rejected. *)
Lemma thrown_frame_is_literal raw frame e c :
  settled c = false ->
  JSON_parse raw = Some frame ->
  handleFrame frame c = Throw e ->
  onmessage (DataString raw) c = literal raw c.
Proof.
  intros Hun Hparse Hthrow.
  unfold onmessage, parse_or_literal, try_catch, literal.
  rewrite Hun, Hparse, Hthrow. simpl.
  destruct (is_sentinel (trim raw)); reflexivity.
Qed.

(** C1: a structured error frame makes [handleFrame] throw the server's
    detail, and the [catch] around [JSON.parse] swallows the throw: the raw
    text of the frame is delivered as a chunk and the call goes on, here
    to a successful end. *)
Theorem error_frame_is_delivered_as_text :
  JSON_parse error_frame
  = Some (JObj [(js "type", JStr (js "error"));
                (js "message", JStr (js "boom"))])
  /\ (forall c,
        handleFrame (JObj [(js "type", JStr (js "error"));
                           (js "message", JStr (js "boom"))]) c
        = Throw (Error (js "boom")))
  /\ callChatApiStream demo_env (Some false)
       [Open; Message (DataString error_frame); Close 1000] demo_http
     = mkRun (Some (Ok (mkResponse error_frame []))) [error_frame] false.
Proof.
  split; [|split].
  - vm_compute. reflexivity.
  - reflexivity.
  - vm_compute. reflexivity.
Qed.




End TransportFacts.

(** ** The reveal scheduler *)

Module RevealFacts.
Import Reveal RevealSpec.
Local Open Scope Z_scope.

Lemma step_ge_base r : 2 <= step r.
Proof. unfold step, STREAM_TYPING_BASE_STEP. lia. Qed.

Lemma step_formula r :
  0 < r -> step r = Z.max 2 ((r + 19) / 20).
Proof.
  intros Hr. unfold step, catchup, STREAM_TYPING_BASE_STEP,
    STREAM_TYPING_CATCHUP_WINDOW.
  f_equal. Z.div_mod_to_equations. lia.
Qed.

Lemma remaining_after_mono r0 r :
  r0 <= r -> remaining_after r0 <= remaining_after r.
Proof.
  intros H. unfold remaining_after, step, catchup, STREAM_TYPING_BASE_STEP,
    STREAM_TYPING_CATCHUP_WINDOW.
  Z.div_mod_to_equations. lia.
Qed.

Lemma remaining_after_nonpos r : r <= 2 -> remaining_after r = 0.
Proof.
  intros H. unfold remaining_after. pose proof (step_ge_base r). lia.
Qed.

Lemma iter_remaining_nonpos j r :
  r <= 0 -> Nat.iter j remaining_after r <= 0.
Proof.
  intros H. induction j as [|j IH]; simpl; [exact H|].
  rewrite remaining_after_nonpos; lia.
Qed.

Lemma tick_advance b t fin rd p sh :
  0 <= p < Z.of_nat (length t) ->
  tick (revealing b t fin rd p sh)
  = revealing b t fin rd (advance (Z.of_nat (length t)) p)
      (Some (b, take (Z.to_nat (advance (Z.of_nat (length t)) p)) t)).
Proof.
  intros Hp. unfold tick, tickStreamingTyping, revealing. simpl.
  destruct t as [|x t]; [simpl in Hp; pose proof (step_ge_base 0); lia|].
  rewrite bool_decide_eq_false_2 by discriminate.
  destruct (Z.leb_spec (Z.of_nat (length (x :: t)) - p) 0); [lia|].
  reflexivity.
Qed.

Lemma tick_complete b t fin rd p sh :
  Z.of_nat (length t) <= p ->
  streamingTypingProgress (tick (revealing b t fin rd p sh)) = 0
  /\ streamingTypingTimer (tick (revealing b t fin rd p sh)) = false.
Proof.
  intros Hp. unfold tick, tickStreamingTyping, revealing. simpl.
  destruct (bool_decide (t = [])); [split; reflexivity|].
  destruct (Z.leb_spec (Z.of_nat (length t) - p) 0); [|lia].
  destruct fin as [[b' text]|]; split; reflexivity.
Qed.

Lemma ticks_succ n m : ticks (S n) m = ticks n (tick m).
Proof. apply Nat.iter_succ_r. Qed.

Lemma reveal_run b t fin rd (N : nat) :
  forall p sh,
    0 <= p -> 0 < Z.of_nat (length t) - p <= Z.of_nat N ->
    exists (n : nat) sh',
      ticks n (revealing b t fin rd p sh)
      = revealing b t fin rd (Z.of_nat (length t)) sh'
      /\ Z.of_nat n <= (Z.of_nat (length t) - p + 1) / 2
      /\ (Z.of_nat (length t) - p <= 41 -> Z.of_nat n <= 20)
      /\ (forall (j : nat) r0,
            r0 <= Z.of_nat (length t) - p ->
            0 < Nat.iter j remaining_after r0 -> (j < n)%nat)
      /\ (forall k : nat, (k < n)%nat ->
            exists q shk shk',
              ticks k (revealing b t fin rd p sh) = revealing b t fin rd q shk
              /\ q < Z.of_nat (length t)
              /\ ticks (S k) (revealing b t fin rd p sh)
                 = revealing b t fin rd (advance (Z.of_nat (length t)) q) shk').
Proof.
  set (len := Z.of_nat (length t)).
  induction N as [|N IH]; intros p sh Hp0 Hr; [lia|].
  pose proof (step_ge_base (len - p)) as Hstep.
  assert (Htick := tick_advance b t fin rd p sh ltac:(fold len; lia)).
  fold len in Htick.
  set (p1 := advance len p) in *.
  set (sh1 := Some (b, take (Z.to_nat p1) t)) in *.
  assert (Hrem : len - p1 = remaining_after (len - p)).
  { unfold p1, advance, remaining_after. lia. }
  assert (Hfirst : exists q shk shk',
             ticks 0 (revealing b t fin rd p sh) = revealing b t fin rd q shk
             /\ q < len
             /\ ticks 1 (revealing b t fin rd p sh)
                = revealing b t fin rd (advance len q) shk').
  { exists p, sh, sh1. repeat split; [lia|exact Htick]. }
  destruct (Z.eq_dec p1 len) as [Hdone|Hmore].
  - exists 1%nat, sh1. split; [rewrite <- Hdone; exact Htick|].
    split; [Z.div_mod_to_equations; lia|]. split; [lia|]. split.
    + intros [|j] r0 Hr0 Hpos; [lia|]. exfalso.
      rewrite Nat.iter_succ_r in Hpos.
      pose proof (remaining_after_mono _ _ Hr0) as Hm.
      pose proof (iter_remaining_nonpos j (remaining_after r0)
                    ltac:(lia)). lia.
    + intros [|k] Hk; [exact Hfirst|lia].
  - assert (Hp1 : p1 < len) by (unfold p1, advance in *; lia).
    destruct (IH p1 sh1 ltac:(unfold p1, advance in *; lia)
                ltac:(unfold p1, advance in *; lia))
      as (n & sh' & Hn & Hub & H41 & Hlb & Hmid).
    exists (S n), sh'. split; [rewrite ticks_succ, Htick; exact Hn|].
    assert (Hle : len - p1 <= len - p - 2)
      by (unfold p1, advance in *; lia).
    split; [revert Hub; Z.div_mod_to_equations; lia|]. split.
    { intros H41'. revert Hub. rewrite Hrem.
      unfold remaining_after, step, catchup, STREAM_TYPING_BASE_STEP,
        STREAM_TYPING_CATCHUP_WINDOW.
      Z.div_mod_to_equations. lia. }
    split.
    + intros [|j] r0 Hr0 Hpos; [lia|].
      rewrite Nat.iter_succ_r in Hpos.
      apply ->Nat.succ_lt_mono. apply (Hlb j (remaining_after r0)); auto.
      rewrite Hrem. apply remaining_after_mono, Hr0.
    + intros [|k] Hk; [exact Hfirst|].
      destruct (Hmid k ltac:(lia)) as (q & shk & shk' & Hk1 & Hq & Hk2).
      exists q, shk, shk'. split; [rewrite ticks_succ, Htick; exact Hk1|].
      split; [exact Hq|]. rewrite (ticks_succ (S k)), Htick. exact Hk2.
Qed.

(** C3, as the code has it: while text remains unrevealed each tick
    advances the revealed count by [step], capped at the length of the
    target, so the count grows strictly and stays within the length; once
    the target has stopped growing the count reaches the length after at
    most half the remaining count of ticks, rounded up, which is within 20
    ticks exactly when at most 41 characters remained.  The tick after
    that stops the timer and puts the count back to 0. *)
Theorem reveal_reaches_target m b :
  streamingTypingTimer m = true ->
  streamingRenderTarget m = Some b ->
  let len := Z.of_nat (length (streamingRenderText m)) in
  let remaining := len - streamingTypingProgress m in
  0 <= streamingTypingProgress m ->
  0 < remaining ->
  exists n : nat,
    streamingTypingProgress (ticks n m) = len
    /\ Z.of_nat n <= (remaining + 1) / 2
    /\ (remaining <= 41 <-> (n <= 20)%nat)
    /\ (forall k : nat, (k < n)%nat ->
          let q := streamingTypingProgress (ticks k m) in
          streamingTypingProgress (ticks (S k) m)
          = Z.min len (q + step (len - q))
          /\ q < streamingTypingProgress (ticks (S k) m) <= len)
    /\ streamingTypingProgress (ticks (S n) m) = 0
    /\ streamingTypingTimer (ticks (S n) m) = false.
Proof.
  destruct m as [target t p timer fin sh rd].
  cbn [streamingTypingTimer streamingRenderTarget streamingRenderText
       streamingTypingProgress].
  intros -> -> Hp Hr.
  change (mkModal (Some b) t p true fin sh rd)
    with (revealing b t fin rd p sh).
  destruct (reveal_run b t fin rd (Z.to_nat (Z.of_nat (length t) - p)) p sh
              Hp ltac:(lia))
    as (n & sh' & Hn & Hub & H41 & Hlb & Hmid).
  exists n. rewrite Hn. split; [reflexivity|]. split; [exact Hub|]. split.
  { split; [intros H; apply H41 in H; lia|]. intros Hn20.
    destruct (Z.le_gt_cases (Z.of_nat (length t) - p) 41) as [|Hbig]; auto.
    assert (Hpos : 0 < Nat.iter 20 remaining_after 42)
      by (vm_compute; reflexivity).
    pose proof (Hlb 20%nat 42 ltac:(lia) Hpos). lia. }
  split.
  - intros k Hk.
    destruct (Hmid k Hk) as (q & shk & shk' & Hk1 & Hq & Hk2).
    rewrite Hk2, Hk1. simpl.
    pose proof (step_ge_base (Z.of_nat (length t) - q)).
    unfold advance. split; [reflexivity|lia].
  - change (ticks (S n) (revealing b t fin rd p sh))
      with (tick (ticks n (revealing b t fin rd p sh))).
    rewrite Hn. apply tick_complete. lia.
Qed.

Lemma reveal_reaches_target_witness :
  exists n : nat,
    streamingTypingProgress (ticks n (updateTypingText 0%nat forty_two fresh))
    = 42
    /\ Z.of_nat n <= (42 + 1) / 2.
Proof.
  destruct (reveal_reaches_target (updateTypingText 0%nat forty_two fresh) 0%nat
              eq_refl eq_refl ltac:(vm_compute; discriminate) eq_refl)
    as (n & Hn & Hub & _).
  exists n. split; [exact Hn|exact Hub].
Defined.

(** A target of 42 characters is not revealed within 20 ticks: the 21st
    tick completes it, and the 22nd puts the count back to 0. *)
Lemma reveal_exceeds_catchup_window :
  let m := updateTypingText 0%nat forty_two fresh in
  (forall n : nat, (n <= 20)%nat -> streamingTypingProgress (ticks n m) < 42)
  /\ streamingTypingProgress (ticks 20 m) = 41
  /\ streamingTypingProgress (ticks 21 m) = 42
  /\ streamingTypingProgress (ticks 22 m) = 0.
Proof.
  split; [|vm_compute; auto].
  intros n Hn.
  do 21 (destruct n as [|n]; [vm_compute; reflexivity|]). lia.
Qed.

End RevealFacts.

(** ** Artifact reference extraction *)

Module ArtifactsFacts.
Import Artifacts ArtifactsSpec.

Lemma marker_is_no_bullet (trimmed : jsstring) :
  startsWith marker trimmed = true -> match_bullet trimmed = None.
Proof.
  destruct trimmed as [|c rest]; [reflexivity|].
  unfold marker. cbn [startsWith]. intros H.
  apply andb_true_iff in H as [H _]. apply N.eqb_eq in H. subst c.
  reflexivity.
Qed.

Lemma length_zero_eqb (s : jsstring) :
  (0 <? length s)%nat = negb (eqb s []).
Proof. destruct s; reflexivity. Qed.

Lemma scan_in_block paths lines :
  scan true paths lines
  = paths ++ omap bullet_of (take_while continues lines).
Proof.
  revert paths; induction lines as [|line lines IH]; intros paths.
  - simpl. rewrite app_nil_r. reflexivity.
  - cbn [scan take_while negb]. unfold continues at 1.
    change (opens_block line) with (startsWith marker (trim line)).
    change (blank line) with (eqb (trim line) []).
    change (bullet_of line) with (match_bullet (trim line)).
    destruct (startsWith marker (trim line)) eqn:Hm.
    + cbn [orb omap list_omap].
      change (bullet_of line) with (match_bullet (trim line)).
      rewrite (marker_is_no_bullet _ Hm). apply IH.
    + destruct (match_bullet (trim line)) as [p|] eqn:Hb.
      * rewrite bool_decide_eq_true_2 by eauto. cbn [orb omap list_omap].
        change (bullet_of line) with (match_bullet (trim line)).
        rewrite Hb, IH, <- app_assoc. reflexivity.
      * rewrite bool_decide_eq_false_2 by (intros [? [=]]). cbn [orb].
        rewrite length_zero_eqb.
        destruct (eqb (trim line) []); cbn [negb omap list_omap].
        -- change (bullet_of line) with (match_bullet (trim line)).
           rewrite Hb. apply IH.
        -- rewrite app_nil_r. reflexivity.
Qed.

Lemma scan_before_block lines :
  scan false [] lines
  = match drop_while (fun line => negb (opens_block line)) lines with
    | [] => []
    | _ :: rest => omap bullet_of (take_while continues rest)
    end.
Proof.
  induction lines as [|line lines IH]; [reflexivity|].
  cbn [scan drop_while negb].
  change (opens_block line) with (startsWith marker (trim line)).
  destruct (startsWith marker (trim line)); cbn [negb]; [|exact IH].
  apply scan_in_block.
Qed.

(** C5, as the code has it: the paths are those of the bullet lines of the
    block, in order, where the block starts after the first line whose
    trimmed form starts with the marker and ends before the first line
    that is neither blank, nor a bullet, nor such a marker line; a text
    without marker line has no path, a line that is no bullet ends the
    block and nothing else, and scenario E gives its two paths. *)
Theorem artifact_paths_of_block text :
  extractArtifactPaths text = omap bullet_of (block_of text)
  /\ (Forall (fun line => opens_block line = false) (split_lines text) ->
      extractArtifactPaths text = [])
  /\ extractArtifactPaths scenario_e
     = [js "/artifacts/report.pdf"; js "/artifacts/x.csv"].
Proof.
  assert (H : extractArtifactPaths text = omap bullet_of (block_of text)).
  { unfold extractArtifactPaths, block_of. rewrite scan_before_block.
    destruct (drop_while _ _); reflexivity. }
  split; [exact H|]. split; [|vm_compute; reflexivity].
  intros Hno. rewrite H. unfold block_of.
  induction Hno as [|line lines Hline _ IH]; [reflexivity|].
  cbn [drop_while]. rewrite Hline. exact IH.
Qed.

Lemma artifact_paths_of_block_witness :
  extractArtifactPaths (js "no marker here") = [].
Proof.
  refine (proj1 (proj2 (artifact_paths_of_block (js "no marker here"))) _).
  vm_compute. repeat constructor.
Defined.

(** A blank line does not end the block, and a line that only starts with
    the marker opens it. *)
Lemma blank_line_does_not_end_block :
  extractArtifactPaths spaced_bullets = [js "/artifacts/a"; js "/artifacts/b"]
  /\ spec_artifact_paths spaced_bullets = [js "/artifacts/a"]
  /\ extractArtifactPaths long_marker = [js "/artifacts/a"]
  /\ spec_artifact_paths long_marker = [].
Proof. vm_compute. auto. Qed.

End ArtifactsFacts.

(** ** The snapshot tracker *)

Module SnapshotFacts.
Import Snapshot SnapshotSpec.

Lemma Qeq_bool_inject_Z a b :
  Qeq_bool (inject_Z a) (inject_Z b) = (a =? b)%Z.
Proof.
  unfold Qeq_bool, inject_Z. simpl. rewrite !Z.mul_1_r. reflexivity.
Qed.

Lemma dom_fold_insert (files : list TFile) (m : gmap jsstring Z) :
  dom (fold_left (fun m f => <[path f := mtime f]> m) files m)
  = paths files ∪ dom m.
Proof.
  revert m; induction files as [|f files IH]; intros m; simpl.
  - unfold paths. simpl. set_solver.
  - rewrite IH, dom_insert_L. unfold paths. simpl. set_solver.
Qed.

Lemma dom_currentMap files : dom (currentMap files) = paths files.
Proof.
  unfold currentMap. rewrite dom_fold_insert. set_solver.
Qed.

Lemma entry_path f :
  get_json (entry_json f) (js "path") = Ok (Val (JStr (path f))).
Proof. reflexivity. Qed.

Lemma entry_mtime f :
  get_json (entry_json f) (js "mtime")
  = Ok (Val (JNum (inject_Z (mtime f)))).
Proof. reflexivity. Qed.

Lemma scan_entries current (stored : list TFile) :
  exists differs,
    scan current (entry_json <$> stored) = Ok differs
    /\ (differs = false <-> Forall (agrees current) stored).
Proof.
  induction stored as [|f stored (differs & Hscan & Hiff)].
  - exists false. split; [reflexivity|]. split; auto.
  - rewrite fmap_cons. cbn [scan]. rewrite entry_path, entry_mtime.
    cbn [mbind result_bind bind as_string option_bind is_num].
    unfold agrees in *.
    destruct (current !! path f) as [t|] eqn:Hcur.
    + rewrite Qeq_bool_inject_Z.
      destruct (Z.eqb_spec (mtime f) t) as [<-|Hne].
      * exists differs. split; [exact Hscan|]. rewrite Hiff. split.
        -- intros H. constructor; auto.
        -- intros H. inversion H; auto.
      * exists true. split; [reflexivity|]. split; [discriminate|].
        intros H. inversion H; subst. congruence.
    + exists true. split; [reflexivity|]. split; [discriminate|].
      intros H. inversion H; subst. congruence.
Qed.

Lemma agreeing_paths_NoDup current (stored : list TFile) :
  Forall (agrees current) stored -> NoDup stored -> NoDup (path <$> stored).
Proof.
  intros Hall Hnd. apply NoDup_fmap_2_strong; [|exact Hnd].
  intros [p1 t1] [p2 t2] H1 H2 Hp. simpl in Hp. subst p2.
  rewrite Forall_forall in Hall.
  pose proof (Hall _ H1) as A1. pose proof (Hall _ H2) as A2.
  unfold agrees in A1, A2. simpl in *. congruence.
Qed.

Lemma agreeing_paths_current current (stored : list TFile) :
  Forall (agrees current) stored -> paths stored ⊆ dom current.
Proof.
  intros Hall p Hp. unfold paths in Hp.
  apply elem_of_list_to_set, list_elem_of_fmap in Hp as (f & -> & Hf).
  rewrite Forall_forall in Hall. apply elem_of_dom. exists (mtime f).
  apply Hall, Hf.
Qed.

Lemma getSnapshotState_stored content (stored files : list TFile) :
  JSON_parse content = Some (snapshot_json stored) ->
  exists differs,
    scan (currentMap files) (entry_json <$> stored) = Ok differs
    /\ getSnapshotState (Some content) files
       = Ok (mkState true
               (negb (Z.of_nat (length stored)
                      =? Z.of_nat (size (currentMap files)))%Z
                || differs)).
Proof.
  intros Hparse.
  destruct (scan_entries (currentMap files) stored) as (differs & Hscan & _).
  exists differs. split; [exact Hscan|].
  unfold getSnapshotState, readSnapshot. rewrite Hparse.
  change (default JNull (Some (snapshot_json stored)))
    with (snapshot_json stored).
  unfold evaluate. cbn [snapshot_json truthy negb]. unfold snapshot_json.
  change (get_json (JObj [(js "files", JArr (entry_json <$> stored))])
            (js "files"))
    with (Ok (Val (JArr (entry_json <$> stored)))).
  cbn [mbind result_bind bind get get_json].
  change (eqb js_length js_length) with true. cbv iota.
  cbn [is_num]. rewrite length_fmap, Qeq_bool_inject_Z.
  destruct (Z.eqb_spec (Z.of_nat (length stored))
              (Z.of_nat (size (currentMap files)))) as [Heq|Hne];
    [|reflexivity].
  cbn [negb iterate orb mbind result_bind bind]. rewrite Hscan. reflexivity.
Qed.



End SnapshotFacts.

(** ** Lines and white space *)

Module LineFacts.
Import LineSpec.

Lemma startsWith_app (p s : jsstring) : startsWith p (p ++ s) = true.
Proof.
  induction p as [|a p IH]; [reflexivity|]. simpl.
  rewrite N.eqb_refl. exact IH.
Qed.

Lemma endsWith_app (p s : jsstring) : endsWith p (s ++ p) = true.
Proof. unfold endsWith. rewrite rev_app_distr. apply startsWith_app. Qed.

Lemma trimStart_spaces_app (ws s : jsstring) :
  forallb is_space ws = true -> trimStart (ws ++ s) = trimStart s.
Proof.
  induction ws as [|c ws IH]; [reflexivity|]. simpl.
  intros H. apply andb_true_iff in H as [-> H]. auto.
Qed.

Lemma trimStart_nonspace (c : N) (s : jsstring) :
  is_space c = false -> trimStart (c :: s) = c :: s.
Proof. intros H. simpl. rewrite H. reflexivity. Qed.

Lemma trimStart_app_nonspace (s : jsstring) (c : N) :
  is_space c = false -> exists s', trimStart (s ++ [c]) = s' ++ [c].
Proof.
  intros Hc. induction s as [|d s (s' & IH)]; simpl.
  - rewrite Hc. exists []. reflexivity.
  - destruct (is_space d); [exists s'; exact IH|].
    exists (d :: s). reflexivity.
Qed.

Lemma forallb_rev_eq {A} (f : A -> bool) (l : list A) :
  forallb f (rev l) = forallb f l.
Proof.
  induction l as [|x l IH]; [reflexivity|]. simpl.
  rewrite forallb_app, IH. simpl. rewrite andb_true_r. apply andb_comm.
Qed.

Lemma tidy_inv (s : jsstring) :
  tidy s = true ->
  exists c s' d,
    s = c :: s' /\ is_space c = false
    /\ rev s = d :: rev (removelast s) /\ is_space d = false
    /\ last s = Some d.
Proof.
  unfold tidy. intros H. apply andb_true_iff in H as [Hh Hl].
  destruct s as [|c s']; [discriminate|].
  destruct (last (c :: s')) as [d|] eqn:Hlast; [|discriminate].
  exists c, s', d. apply negb_true_iff in Hh, Hl.
  repeat split; auto.
  apply last_Some in Hlast as (l' & Hl').
  rewrite Hl', removelast_last, rev_app_distr. reflexivity.
Qed.

Lemma trim_tidy_spaces (s ws : jsstring) :
  tidy s = true -> forallb is_space ws = true -> trim (s ++ ws) = s.
Proof.
  intros Ht Hws.
  destruct (tidy_inv s Ht) as (c & s' & d & -> & Hc & Hrev & Hd & _).
  unfold trim. rewrite <- app_comm_cons, trimStart_nonspace by exact Hc.
  unfold trimEnd. rewrite app_comm_cons, rev_app_distr.
  rewrite trimStart_spaces_app by (rewrite forallb_rev_eq; exact Hws).
  rewrite Hrev, trimStart_nonspace by exact Hd.
  rewrite <- Hrev. apply rev_involutive.
Qed.

(** A text that starts with a character other than white space keeps it
    under [trim]. *)
Lemma trim_head (c : N) (s : jsstring) :
  is_space c = false -> exists s', trim (c :: s) = c :: s'.
Proof.
  intros Hc. unfold trim, trimEnd. rewrite trimStart_nonspace by exact Hc.
  simpl rev.
  destruct (trimStart_app_nonspace (rev s) c Hc) as (s' & ->).
  exists (rev s'). rewrite rev_app_distr. reflexivity.
Qed.

(** [split_go] on a text without line feed. *)
Lemma split_no_lf (s cur : jsstring) :
  forallb (fun c => negb (c =? 10)) s = true ->
  split_go cur s = [rev cur ++ s].
Proof.
  revert cur; induction s as [|c s IH]; intros cur H; simpl.
  - rewrite app_nil_r. reflexivity.
  - simpl in H. apply andb_true_iff in H as [Hc Hs].
    apply negb_true_iff in Hc. rewrite Hc.
    assert (Hgo : split_go (c :: cur) s = [rev cur ++ c :: s]).
    { rewrite IH by exact Hs. simpl. rewrite <- app_assoc. reflexivity. }
    destruct s as [|d s']; [exact Hgo|].
    simpl in Hs. apply andb_true_iff in Hs as [Hd _].
    apply negb_true_iff in Hd. rewrite Hd, andb_false_r. exact Hgo.
Qed.

(** A line feed after a text that does not end with a carriage return
    closes the last line of the text. *)
Lemma split_go_lf (n : nat) :
  forall (s rest cur : jsstring),
    (length s <= n)%nat ->
    last s <> Some 13 ->
    split_go cur (s ++ 10 :: rest) = split_go cur s ++ split_go [] rest.
Proof.
  induction n as [|n IH]; intros s rest cur Hlen Hlast.
  - destruct s; [reflexivity|simpl in Hlen; lia].
  - destruct s as [|c s]; [reflexivity|].
    simpl in Hlen. cbn [app split_go].
    destruct (c =? 10) eqn:Hc.
    + rewrite IH; [reflexivity|lia|].
      destruct s; [discriminate|exact Hlast].
    + destruct s as [|d s'].
      * cbn [app]. destruct (N.eqb_spec c 13) as [->|Hne];
          [contradiction Hlast; reflexivity|].
        cbn [andb split_go]. rewrite N.eqb_refl. reflexivity.
      * cbn [app]. destruct ((c =? 13) && (d =? 10)).
        -- rewrite IH; [reflexivity|simpl in Hlen; lia|].
           destruct s'; [discriminate|exact Hlast].
        -- rewrite <- (IH (d :: s') rest (c :: cur));
             [reflexivity|lia|exact Hlast].
Qed.

Lemma split_lines_lf (s rest : jsstring) :
  last s <> Some 13 ->
  split_lines (s ++ 10 :: rest) = split_lines s ++ split_lines rest.
Proof. intros H. apply (split_go_lf (length s)); auto. Qed.

Lemma join_lines_blank (l : list jsstring) :
  l <> [] -> join_lines (l ++ [[]]) = join_lines l ++ [10].
Proof.
  induction l as [|x l IH]; [congruence|]. intros _.
  destruct l as [|y l].
  - simpl. reflexivity.
  - change (join_lines ((x :: y :: l) ++ [[]]))
      with (x ++ 10 :: join_lines ((y :: l) ++ [[]])).
    rewrite IH by discriminate. simpl. rewrite <- app_assoc. reflexivity.
Qed.

Lemma join_lines_blanks (l : list jsstring) (k : nat) :
  l <> [] ->
  join_lines (l ++ repeat [] k) = join_lines l ++ repeat 10 k.
Proof.
  intros Hl. induction k as [|k IH].
  - simpl. rewrite !app_nil_r. reflexivity.
  - change (repeat [] (S k)) with (([] : jsstring) :: repeat [] k).
    change (repeat 10 (S k)) with (10 :: repeat 10 k).
    rewrite (repeat_cons k ([] : jsstring)), (repeat_cons k 10), !app_assoc.
    rewrite join_lines_blank by (destruct l; [congruence|discriminate]).
    rewrite IH. reflexivity.
Qed.

Lemma split_go_nonempty (s cur : jsstring) : split_go cur s <> [].
Proof.
  revert cur. induction s as [|c s IH]; intros cur; simpl; [discriminate|].
  destruct (c =? 10); [discriminate|].
  destruct s as [|d s']; [apply IH|].
  destruct ((c =? 13) && (d =? 10)); [discriminate|apply IH].
Qed.

End LineFacts.

(** ** The chat log *)

Module ChatLogFacts.
Import ChatLog LineSpec LineFacts ChatLogSpec.

Lemma append_all_some (d : jsstring) (turns : list turn) :
  append_all (Some d) turns = Some (d ++ concat (entry_text <$> turns)).
Proof.
  revert d; induction turns as [|[[stamp r] text] turns IH]; intros d.
  - simpl. rewrite app_nil_r. reflexivity.
  - unfold append_all in *. cbn [fold_left]. unfold appendChatLog at 2.
    cbn [appendTextFile]. rewrite IH. rewrite fmap_cons. cbn [concat].
    cbn [entry_text]. rewrite <- app_assoc. reflexivity.
Qed.

Lemma append_all_document (turns : list turn) :
  append_all (Some (title ++ [10; 10])) turns = Some (document turns)
  /\ (turns <> [] -> append_all None turns = Some (document turns)).
Proof.
  split.
  - rewrite append_all_some. unfold document. rewrite <- !app_assoc.
    reflexivity.
  - destruct turns as [|[[stamp r] text] turns]; [congruence|]. intros _.
    unfold append_all. cbn [fold_left]. unfold appendChatLog at 2.
    cbn [appendTextFile].
    fold (append_all
            (Some ((title ++ [10; 10]) ++ log_entry stamp r text)) turns).
    rewrite append_all_some. unfold document. rewrite fmap_cons.
    cbn [concat entry_text]. rewrite <- !app_assoc. reflexivity.
Qed.

Lemma no_terminator_no_lf (s : jsstring) :
  forallb (fun c => negb (is_line_terminator c)) s = true ->
  forallb (fun c => negb (c =? 10)) s = true.
Proof.
  induction s as [|c s IH]; [reflexivity|]. simpl.
  intros H. apply andb_true_iff in H as [Hc Hs]. rewrite (IH Hs), andb_true_r.
  unfold is_line_terminator in Hc. destruct (c =? 10); [discriminate|].
  reflexivity.
Qed.

Lemma header_matches (stamp : jsstring) (r : role) (text : jsstring) :
  r <> System -> stamp <> [] ->
  forallb (fun c => negb (is_line_terminator c)) stamp = true ->
  match_header (header (stamp, r, text)) = Some (stamp, r).
Proof.
  intros Hr Hne Hlt. unfold match_header, header.
  rewrite startsWith_app.
  rewrite (drop_app_length' (js "## [")) by reflexivity.
  assert (Hsuffix : forall suffix,
            endsWith suffix (stamp ++ suffix) = true
            /\ take (length (stamp ++ suffix) - length suffix) (stamp ++ suffix)
               = stamp).
  { intros suffix. split; [apply endsWith_app|].
    apply take_app_length'. rewrite length_app. lia. }
  assert (Hlen : (0 <? length stamp)%nat = true)
    by (destruct stamp; [congruence|reflexivity]).
  destruct r; [| |congruence].
  - destruct (Hsuffix (js "] " ++ role_name User)) as (-> & ->).
    rewrite Hlen, Hlt. reflexivity.
  - assert (Huser : endsWith (js "] " ++ role_name User)
                      (stamp ++ js "] " ++ role_name Assistant) = false).
    { unfold endsWith. rewrite (rev_app_distr stamp). reflexivity. }
    rewrite Huser.
    destruct (Hsuffix (js "] " ++ role_name Assistant)) as (-> & ->).
    rewrite Hlen, Hlt. reflexivity.
Qed.

Lemma header_one_line (t : turn) :
  loggable t ->
  split_lines (header t) = [header t] /\ last (header t) <> Some 13.
Proof.
  destruct t as [[stamp r] text]. intros (Hr & Hne & Hlt & _). split.
  - apply (split_no_lf _ []). unfold header. rewrite !forallb_app.
    rewrite (no_terminator_no_lf _ Hlt). destruct r; reflexivity.
  - unfold header. rewrite !app_assoc, last_app.
    destruct r; discriminate.
Qed.

Lemma tidy_last (text : jsstring) : tidy text = true -> last text <> Some 13.
Proof.
  intros H. destruct (tidy_inv text H) as (_ & _ & d & _ & _ & _ & Hd & ->).
  intros [= ->]. discriminate.
Qed.

Lemma split_entries (turns : list turn) :
  Forall loggable turns ->
  split_lines (concat (entry_text <$> turns))
  = concat (block_lines <$> turns) ++ [[]].
Proof.
  induction 1 as [|t turns Ht _ IH]; [reflexivity|].
  rewrite !fmap_cons. cbn [concat].
  destruct (header_one_line t Ht) as (Hone & Hlast).
  destruct t as [[stamp r] text]. destruct Ht as (_ & _ & _ & Htidy & _).
  cbn [entry_text block_lines].
  assert (Hentry : forall rest,
            log_entry stamp r text ++ rest
            = header (stamp, r, text) ++ 10 :: (text ++ 10 :: 10 :: rest)).
  { intros rest. unfold log_entry, header. rewrite <- !app_assoc.
    reflexivity. }
  rewrite Hentry, (split_lines_lf _ _ Hlast), Hone.
  rewrite (split_lines_lf _ _ (tidy_last _ Htidy)).
  change (split_lines (10 :: concat (entry_text <$> turns)))
    with ([] :: split_lines (concat (entry_text <$> turns))).
  rewrite IH. cbn [app]. rewrite <- !app_assoc. reflexivity.
Qed.

Lemma split_document (turns : list turn) :
  Forall loggable turns ->
  split_lines (document turns)
  = [title; []] ++ concat (block_lines <$> turns) ++ [[]].
Proof.
  intros H. unfold document.
  change (title ++ [10; 10] ++ concat (entry_text <$> turns))
    with (title ++ 10 :: 10 :: concat (entry_text <$> turns)).
  rewrite split_lines_lf by (vm_compute; discriminate).
  change (split_lines (10 :: concat (entry_text <$> turns)))
    with ([] :: split_lines (concat (entry_text <$> turns))).
  rewrite (split_entries _ H). reflexivity.
Qed.

Lemma scan_plain (lines : list jsstring) (s : scanner) :
  forallb plain lines = true ->
  fold_left scan_line lines s
  = mkScanner (currentRole s) (currentTimestamp s) (buffer s ++ lines)
      (messages s).
Proof.
  revert s; induction lines as [|line lines IH]; intros s H.
  - simpl. rewrite app_nil_r. destruct s; reflexivity.
  - simpl in H. apply andb_true_iff in H as [Hline Hrest].
    cbn [fold_left]. rewrite (IH _ Hrest).
    unfold scan_line. unfold plain in Hline.
    destruct (match_header line); [discriminate|].
    apply negb_true_iff in Hline. rewrite Hline. simpl.
    rewrite <- app_assoc. reflexivity.
Qed.

Lemma scan_block (t : turn) (s : scanner) :
  loggable t ->
  fold_left scan_line (block_lines t) s
  = let '(stamp, r, text) := t in
    mkScanner (Some r) (Some stamp) (split_lines text ++ [[]])
      (messages (flush s)).
Proof.
  destruct t as [[stamp r] text]. intros (Hr & Hne & Hlt & _ & _ & Hplain).
  cbn [block_lines fold_left]. unfold scan_line at 2.
  rewrite (header_matches _ _ _ Hr Hne Hlt).
  rewrite scan_plain; [reflexivity|].
  rewrite forallb_app, Hplain. reflexivity.
Qed.

Lemma flush_block (stamp : jsstring) (r : role) (text : jsstring) (k : nat)
    (done : list ChatLogEntry) :
  tidy text = true ->
  join_lines (split_lines text) = text ->
  messages (flush (mkScanner (Some r) (Some stamp)
                     (split_lines text ++ repeat [] (S k)) done))
  = done ++ [mkEntry r text (Some stamp)].
Proof.
  intros Htidy Hjoin. unfold flush. cbn [currentRole buffer].
  assert (Hlen : (0 <? length (split_lines text ++ repeat [] (S k)))%nat
                 = true).
  { rewrite length_app. simpl. apply Nat.ltb_lt. lia. }
  rewrite Hlen.
  rewrite join_lines_blanks by apply split_go_nonempty. rewrite Hjoin.
  rewrite trim_tidy_spaces; [|exact Htidy|].
  - destruct text; [discriminate|]. reflexivity.
  - clear. induction k as [|k IH]; [reflexivity|exact IH].
Qed.

Lemma flushed_blocks (turns : list turn) (s : scanner) :
  Forall loggable turns ->
  messages
    (flush (fold_left scan_line (concat (block_lines <$> turns)) s))
  = messages (flush s) ++ (entry_of <$> turns).
Proof.
  induction turns as [|t turns IH] using rev_ind; intros H.
  - simpl. rewrite app_nil_r. reflexivity.
  - apply Forall_app in H as [Hturns Ht]. inversion Ht as [|? ? Hlog _]; subst.
    rewrite !fmap_app, concat_app, fold_left_app. simpl concat.
    rewrite app_nil_r, (scan_block _ _ Hlog).
    destruct t as [[stamp r] text].
    destruct Hlog as (_ & _ & _ & Htidy & Hjoin & _).
    rewrite (flush_block stamp r text 0 _ Htidy Hjoin).
    rewrite (IH Hturns), <- app_assoc. reflexivity.
Qed.

Lemma parse_markdown_document (turns : list turn) :
  Forall loggable turns ->
  parse_markdown (document turns) = entry_of <$> turns.
Proof.
  intros H. unfold parse_markdown. rewrite (split_document _ H).
  rewrite fold_left_app.
  change (fold_left scan_line [title; []] (mkScanner None None [] []))
    with (mkScanner None None [[]] []).
  destruct turns as [|t turns _] using rev_ind; [reflexivity|].
  pose proof H as H'.
  apply Forall_app in H' as [Hturns Ht]. inversion Ht as [|? ? Hlog _]; subst.
  rewrite !fmap_app, concat_app, !fold_left_app. simpl concat.
  rewrite app_nil_r, (scan_block _ _ Hlog).
  destruct t as [[stamp r] text].
  destruct Hlog as (_ & _ & _ & Htidy & Hjoin & _).
  cbn [fold_left]. unfold scan_line at 1.
  change (match_header []) with (@None (jsstring * role)).
  change (startsWith title []) with false. cbv iota.
  cbn [buffer messages currentRole currentTimestamp].
  rewrite <- app_assoc.
  change ([[]] ++ [[]]) with (repeat ([] : jsstring) 2).
  rewrite (flush_block stamp r text 1 _ Htidy Hjoin).
  rewrite (flushed_blocks _ _ Hturns). reflexivity.
Qed.

Lemma parseChatLog_document D1 D2 (turns : list turn) :
  parseChatLog D1 D2 (document turns) = Ok (parse_markdown (document turns)).
Proof.
  unfold parseChatLog.
  destruct (trim_head 35 (js " Chat history" ++ [10; 10]
                            ++ concat (entry_text <$> turns)) eq_refl)
    as (s' & Hs').
  change (35 :: js " Chat history" ++ [10; 10]
            ++ concat (entry_text <$> turns))
    with (document turns) in Hs'.
  rewrite Hs'. reflexivity.
Qed.

(** C6, as the code has it: a sequence of turns appended to a new log, or
    to the log as it is created, is read back as it was written, roles,
    texts and times, when every text is not empty, has no white space at
    either end and no carriage return before a line feed, and none of its
    lines reads as a header or as the title. *)
Theorem log_round_trip D1 D2 (turns : list turn) (file : option jsstring) :
  Forall loggable turns ->
  file = Some (title ++ [10; 10]) \/ (file = None /\ turns <> []) ->
  exists doc,
    append_all file turns = Some doc
    /\ parseChatLog D1 D2 doc = Ok (entry_of <$> turns).
Proof.
  intros Hlog Hfile. exists (document turns). split.
  - destruct (append_all_document turns) as (Hsome & Hnone).
    destruct Hfile as [->|(-> & Hne)]; auto.
  - rewrite parseChatLog_document, (parse_markdown_document _ Hlog).
    reflexivity.
Qed.

Lemma log_round_trip_witness :
  exists doc,
    append_all None demo_turns = Some doc
    /\ parseChatLog no_date no_date doc = Ok (entry_of <$> demo_turns).
Proof.
  refine (log_round_trip no_date no_date demo_turns None _ _).
  - repeat constructor; try discriminate; vm_compute; reflexivity.
  - right. split; [reflexivity|discriminate].
Defined.

(** An answer that ends with a line feed is read back without it, and an
    empty turn is not read back at all. *)
Lemma log_trims_and_drops :
  let stamp := js "2026-01-02T03:04:05.678Z" in
  (exists doc,
     append_all None [(stamp, Assistant, js "Hello" ++ [10])] = Some doc
     /\ parseChatLog no_date no_date doc
        = Ok [mkEntry Assistant (js "Hello") (Some stamp)])
  /\ (exists doc,
        append_all None [(stamp, Assistant, [])] = Some doc
        /\ parseChatLog no_date no_date doc = Ok []).
Proof.
  split; eexists; split; try reflexivity; vm_compute; reflexivity.
Qed.

Lemma scan_without_header (lines : list jsstring) (s : scanner) :
  Forall (fun line => match_header line = None) lines ->
  currentRole s = None ->
  currentRole (fold_left scan_line lines s) = None
  /\ messages (fold_left scan_line lines s) = messages s.
Proof.
  intros H. revert s. induction H as [|line lines Hline _ IH]; intros s Hs.
  - auto.
  - cbn [fold_left].
    assert (Hstep : currentRole (scan_line s line) = None
                    /\ messages (scan_line s line) = messages s).
    { unfold scan_line. rewrite Hline.
      destruct (startsWith title line); auto. }
    destruct Hstep as (Hrole & Hmsgs).
    destruct (IH _ Hrole) as (? & ?). split; congruence.
Qed.

(** C7, as the code has it: parsing the chat log never throws, and a
    legacy document that is not JSON is read as markdown; a chat log that
    cannot be parsed, one that is not read as a legacy log (it does not
    start like one, or reading it as one throws) and has no header line,
    gives the empty entry list.  Evaluating the snapshot gives the state
    without snapshot when there is no snapshot file or when the file is
    not JSON, and does not throw on a file that holds a snapshot. *)
Theorem parse_failures_degrade D1 D2 (content : jsstring)
    (files : list Snapshot.TFile) :
  (exists entries, parseChatLog D1 D2 content = Ok entries)
  /\ (JSON_parse (trim content) = None ->
      parseChatLog D1 D2 content = Ok (parse_markdown content))
  /\ (Forall (fun line => match_header line = None) (split_lines content) ->
      parse_markdown content = []
      /\ ((startsWith (js "{") (trim content)
           || startsWith (js "[") (trim content) = false
           \/ exists err, parse_legacy D1 D2 (trim content) = Throw err) ->
          parseChatLog D1 D2 content = Ok []))
  /\ Snapshot.getSnapshotState None files
     = Ok (Snapshot.mkState false false)
  /\ (JSON_parse content = None ->
      Snapshot.getSnapshotState (Some content) files
      = Ok (Snapshot.mkState false false))
  /\ (forall stored,
        JSON_parse content = Some (Snapshot.snapshot_json stored) ->
        exists st, Snapshot.getSnapshotState (Some content) files = Ok st).
Proof.
  split; [|split; [|split; [|split; [|split]]]].
  - unfold parseChatLog, try_catch.
    destruct (_ || _); [|eauto].
    destruct (parse_legacy D1 D2 (trim content)); eauto.
  - intros Hparse. unfold parseChatLog, try_catch, parse_legacy.
    rewrite Hparse. destruct (_ || _); reflexivity.
  - intros Hlines.
    assert (Hempty : parse_markdown content = []).
    { unfold parse_markdown.
      destruct (scan_without_header _ (mkScanner None None [] []) Hlines
                  eq_refl) as (Hrole & Hmsgs).
      unfold flush. rewrite Hrole. exact Hmsgs. }
    split; [exact Hempty|].
    unfold parseChatLog, try_catch. rewrite Hempty.
    intros [->|(err & ->)]; [reflexivity|].
    destruct (_ || _); reflexivity.
  - reflexivity.
  - intros Hparse. unfold Snapshot.getSnapshotState, Snapshot.readSnapshot.
    rewrite Hparse. reflexivity.
  - intros stored Hparse.
    destruct (SnapshotFacts.getSnapshotState_stored content stored files
                Hparse) as (differs & _ & ->).
    eauto.
Qed.

Lemma parse_failures_degrade_witness :
  parseChatLog no_date no_date (js "{oops") = Ok []
  /\ Snapshot.getSnapshotState (Some (js "{oops")) [] 
     = Ok (Snapshot.mkState false false).
Proof.
  pose proof (parse_failures_degrade no_date no_date (js "{oops") [])
    as (_ & _ & Hempty & _ & Hsnap & _).
  split.
  - apply Hempty.
    + vm_compute. repeat constructor.
    + right. eexists. vm_compute. reflexivity.
  - apply Hsnap. vm_compute. reflexivity.
Defined.

(** A snapshot file that holds JSON of another shape: [{}] has no
    [files], and reading the length of [undefined] throws. *)
Lemma snapshot_of_other_shape_throws :
  JSON_parse (js "{}") = Some (JObj [])
  /\ Snapshot.getSnapshotState (Some (js "{}")) []
     = Throw (mkError TypeError (js "Cannot read properties of undefined"))
  /\ Snapshot.getSnapshotState (Some (jsq "{'files':[null]}"))
       [Snapshot.mkFile (js "a.md") 5]
     = Throw (mkError TypeError (js "Cannot read properties of null")).
Proof. vm_compute. auto. Qed.

End ChatLogFacts.

(** ** The transport: failures, the connect timer and the end of a stream *)

Module TransportMore.
Import Artifacts Transport TransportSpec TransportFacts TransportMoreSpec.

Lemma forallb_weaken {A} (f g : A -> bool) (l : list A) :
  (forall x, f x = true -> g x = true) ->
  forallb f l = true -> forallb g l = true.
Proof.
  intros Hfg. induction l as [|x l IH]; [reflexivity|]. simpl.
  intros H. apply andb_true_iff in H as [Hx Hl].
  rewrite (Hfg _ Hx), (IH Hl). reflexivity.
Qed.

Lemma dec_go_numeral (fuel : nat) (n : N) (acc : jsstring) :
  forallb numeral_char acc = true ->
  forallb numeral_char (dec_go fuel n acc) = true.
Proof.
  revert n acc; induction fuel as [|fuel IH]; intros n acc Hacc; [exact Hacc|].
  cbn [dec_go].
  assert (Hd : forallb numeral_char ((48 + n mod 10) :: acc) = true).
  { cbn [forallb]. rewrite Hacc, andb_true_r. unfold numeral_char.
    pose proof (N.mod_upper_bound n 10 ltac:(discriminate)) as Hmod.
    set (d := n mod 10) in *. clearbody d.
    apply orb_true_iff. right. apply andb_true_iff.
    split; apply N.leb_le; lia. }
  destruct (n / 10 =? 0); [exact Hd|apply IH, Hd].
Qed.

Lemma Z_to_js_numeral (z : Z) : forallb numeral_char (Z_to_js z) = true.
Proof.
  unfold Z_to_js. rewrite forallb_app. apply andb_true_iff. split.
  - destruct (z <? 0)%Z; reflexivity.
  - apply dec_go_numeral. reflexivity.
Qed.

(** A text without the letter a, in either case, is no abort error. *)
Lemma no_a_no_abort (s : jsstring) :
  forallb (fun c => negb (c =? 65) && negb (c =? 97)) s = true ->
  includes (js "abort") (toLowerCase s) = false.
Proof.
  induction s as [|c s IH]; [reflexivity|].
  cbn [forallb]. intros H. apply andb_true_iff in H as [Hc Hs].
  apply andb_true_iff in Hc as [Hc65 Hc97].
  apply negb_true_iff in Hc65. apply negb_true_iff in Hc97.
  apply N.eqb_neq in Hc65. apply N.eqb_neq in Hc97.
  unfold toLowerCase in *. cbn [List.map includes].
  rewrite (IH Hs), orb_false_r.
  change (js "abort") with (97 :: js "bort"). cbn [startsWith].
  assert (Hl : (97 =? lower c) = false).
  { apply N.eqb_neq. unfold lower.
    destruct ((65 <=? c) && (c <=? 90)) eqn:Hr; lia. }
  rewrite Hl. reflexivity.
Qed.

Lemma closed_with_no_abort (code : Z) : isAbortError (closed_with code) = false.
Proof.
  unfold isAbortError, closed_with. cbn [text Error].
  apply no_a_no_abort. rewrite !forallb_app.
  rewrite (forallb_weaken numeral_char _ (Z_to_js code));
    [reflexivity| |apply Z_to_js_numeral].
  intros c Hc. unfold numeral_char in Hc.
  apply andb_true_iff. split; apply negb_true_iff, N.eqb_neq;
    apply orb_true_iff in Hc as [Hc|Hc];
    try (apply N.eqb_eq in Hc; lia);
    apply andb_true_iff in Hc as [H1 H2];
    apply N.leb_le in H1, H2; lia.
Qed.

Lemma stream_failure_abort (err : js_error) :
  stream_failure err -> isAbortError err = true -> err = aborted.
Proof.
  intros [| | |code] H; [reflexivity|discriminate|discriminate|].
  rewrite closed_with_no_abort in H. discriminate.
Qed.

(** A message never rejects the promise. *)
Lemma onmessage_settlement d c :
  settlement (onmessage d c) = settlement c
  \/ exists r, settlement (onmessage d c) = Some (Ok r).
Proof.
  unfold onmessage. destruct (settled c) eqn:Hs; [auto|].
  assert (Hres : forall c',
             c' = c \/ (exists x, c' = append_chunk x c) \/ c' = finish c ->
             settlement c' = settlement c
             \/ exists r, settlement c' = Some (Ok r)).
  { intros c' [->|[(x & ->)| ->]]; auto.
    right. unfold finish, finalizeWithText, resolveOnce. rewrite Hs.
    simpl. eauto. }
  assert (Hlit : forall raw,
             exists c', handleFrame (JStr raw) c = Ok c'
                        /\ (c' = c \/ (exists x, c' = append_chunk x c)
                            \/ c' = finish c)).
  { intros raw. simpl. destruct (is_sentinel (trim raw)); eauto 6. }
  assert (Hframe : forall frame,
             match handleFrame frame c with
             | Ok c' => c' = c \/ (exists x, c' = append_chunk x c)
                        \/ c' = finish c
             | Throw _ => True
             end).
  { intros frame. destruct frame as [| | |s|items|fields]; simpl; auto;
      split_branches; simpl; eauto. }
  assert (Hany : forall raw,
             exists c', parse_or_literal raw c = Ok c'
                        /\ (c' = c \/ (exists x, c' = append_chunk x c)
                            \/ c' = finish c)).
  { intros raw. unfold parse_or_literal, try_catch.
    destruct (JSON_parse raw) as [frame|]; [|apply Hlit].
    pose proof (Hframe frame) as H.
    destruct (handleFrame frame c); [eauto|apply Hlit]. }
  destruct d as [raw|raw|shown].
  - destruct (Hany raw) as (c' & -> & H). apply Hres, H.
  - destruct (Hany raw) as (c' & -> & H). apply Hres, H.
  - destruct (Hlit shown) as (c' & -> & H). apply Hres, H.
Qed.

Lemma fails_as_rejectOnce signal c e :
  fails_as signal c -> stream_failure e -> (e = aborted -> signal <> None) ->
  fails_as signal (rejectOnce e c).
Proof.
  intros Hc He Hab. unfold rejectOnce. destruct (settled c); [exact Hc|].
  intros err. simpl. intros [= <-]. auto.
Qed.

Lemma fails_as_same signal c c' :
  settlement c' = settlement c -> fails_as signal c -> fails_as signal c'.
Proof. intros Heq Hc err. rewrite Heq. apply Hc. Qed.

Lemma fails_as_finalize signal c text :
  fails_as signal c -> fails_as signal (finalizeWithText text c).
Proof.
  intros Hc. unfold finalizeWithText, resolveOnce.
  destruct (settled c); [exact Hc|]. intros err. discriminate.
Qed.

Lemma aborted_is_not_closed code : closed_with code <> aborted.
Proof.
  intros H. pose proof (closed_with_no_abort code) as Hno.
  rewrite H in Hno. discriminate.
Qed.

Lemma fails_as_step signal c ev :
  wf (listening signal) c -> fails_as signal c -> fails_as signal (step c ev).
Proof.
  intros Hwf Hc. destruct ev as [|d| |code| |]; simpl.
  - destruct (handlers c); [|exact Hc]. apply (fails_as_same _ c); auto.
  - destruct (handlers c); [|exact Hc].
    destruct (onmessage_settlement d c) as [Heq|(r & Hr)].
    + apply (fails_as_same _ c); auto.
    + intros err. rewrite Hr. discriminate.
  - destruct (handlers c); [|exact Hc].
    apply fails_as_rejectOnce; [exact Hc|constructor|discriminate].
  - destruct (handlers c); [|exact Hc]. unfold onclose.
    destruct (settled c) eqn:Hs; [exact Hc|].
    destruct (code =? 1000)%Z; [apply fails_as_finalize, Hc|].
    destruct (0 <? length (fullText c))%nat;
      [apply fails_as_finalize, Hc|].
    apply (fails_as_rejectOnce _ _ (closed_with code));
      [exact Hc|constructor|].
    intros H. destruct (aborted_is_not_closed _ H).
  - destruct (openTimeout c); [|exact Hc].
    apply fails_as_rejectOnce; [|constructor|discriminate].
    apply (fails_as_same _ c); auto.
  - destruct (abortListener c) eqn:Hl; [|exact Hc].
    apply fails_as_rejectOnce; [|constructor|].
    + apply (fails_as_same _ c); auto.
    + intros _ ->.
      destruct (settled c) eqn:Hs.
      * destruct (wf_settled _ _ Hwf Hs) as (_ & Hoff & _). congruence.
      * destruct (wf_pending _ _ Hwf Hs) as (_ & _ & Hon).
        simpl in Hon. congruence.
Qed.

Lemma fails_as_reachable e signal events c :
  callChatApiWebSocket e signal events = Ok c -> fails_as signal c.
Proof.
  intros Hws. rewrite (run_executor _ _ _ _ Hws). clear Hws.
  assert (Hinit : wf (listening signal) (executor signal)
                  /\ fails_as signal (executor signal)).
  { split; [apply wf_executor|]. destruct signal as [[|]|]; intros err.
    - simpl. intros [= <-]. split; [constructor|discriminate].
    - discriminate.
    - discriminate. }
  revert Hinit. generalize (executor signal).
  induction events as [|ev events IH]; intros c0 (Hwf & Hf); [exact Hf|].
  apply IH. split; [apply wf_step, Hwf|apply fails_as_step; auto].
Qed.

(** X1: once the promise of the stream attempt is settled, what the
    socket, the timer or the signal do afterwards changes nothing: no
    further text reaches [onChunk], the socket is not closed again and
    the outcome stays. *)
Theorem settled_call_ignores_events e signal pre post c :
  callChatApiWebSocket e signal pre = Ok c ->
  settled c = true ->
  callChatApiWebSocket e signal (pre ++ post) = Ok c
  /\ forall http,
       callChatApiStream e signal (pre ++ post) http
       = callChatApiStream e signal pre http.
Proof.
  intros Hws Hs.
  assert (H : callChatApiWebSocket e signal (pre ++ post) = Ok c).
  { rewrite (run_app _ _ _ _ _ Hws).
    rewrite (run_settled (listening signal)); auto.
    eapply wf_reachable; eauto. }
  split; [exact H|]. intros http. unfold callChatApiStream.
  rewrite H, Hws. reflexivity.
Qed.

Lemma settled_call_ignores_events_witness :
  callChatApiStream demo_env (Some false)
    ([Open; Message (DataString (jsq "{'done':true}"))]
       ++ [Message (DataString (js "late")); Close 1006]) demo_http
  = callChatApiStream demo_env (Some false)
      [Open; Message (DataString (jsq "{'done':true}"))] demo_http.
Proof.
  refine (proj2 (settled_call_ignores_events demo_env (Some false)
                   [Open; Message (DataString (jsq "{'done':true}"))]
                   [Message (DataString (js "late")); Close 1006]
                   _ _ _) demo_http).
  - vm_compute. reflexivity.
  - reflexivity.
Defined.

(** How the stream attempt fails before its socket is there. *)
Lemma run_throw_cases e signal events err :
  callChatApiWebSocket e signal events = Throw err ->
  isAbortError err = false
  \/ buildChatWebSocketUrl e = Throw err
  \/ exists url,
       buildChatWebSocketUrl e = Ok url /\ WebSocket_new e url = Throw err.
Proof.
  unfold callChatApiWebSocket.
  destruct (bool_decide (apiHost e = []));
    [intros [= <-]; left; reflexivity|].
  destruct (negb (hasWebSocket e)); [intros [= <-]; left; reflexivity|].
  destruct (buildChatWebSocketUrl e) as [url|];
    cbn [mbind result_bind bind]; [|intros [= <-]; auto].
  destruct (WebSocket_new e url) as [[]|] eqn:Hnew; [discriminate|].
  intros [= <-]. eauto.
Qed.

(** X2: a stream attempt that is rejected for any reason but the
    caller's abort is followed by one call of the single-shot transport,
    whose answer settles the call; the call fails without that retry only
    with the abort error, and only when a signal was passed, or with what
    the platform threw as the URL or the socket was constructed, when that
    reads as an abort. *)
Theorem stream_failure_falls_back e signal events http :
  (forall c err,
     callChatApiWebSocket e signal events = Ok c ->
     settlement c = Some (Throw err) ->
     err <> aborted ->
     callChatApiStream e signal events http
     = fallen_back e http (delivered c))
  /\ (forall err,
        outcome (callChatApiStream e signal events http) = Some (Throw err) ->
        fallback (callChatApiStream e signal events http) = false ->
        (err = aborted /\ signal <> None)
        \/ (isAbortError err = true
            /\ (buildChatWebSocketUrl e = Throw err
                \/ exists url,
                     buildChatWebSocketUrl e = Ok url
                     /\ WebSocket_new e url = Throw err))).
Proof.
  assert (Hfail : forall seen error,
            isAbortError error = false ->
            on_stream_failure e http seen error = fallen_back e http seen).
  { intros seen error Hno.
    unfold on_stream_failure, fallen_back, after_fallback.
    rewrite Hno. destruct (callChatApi e http); reflexivity. }
  split.
  - intros c err Hws Hset Hne. unfold callChatApiStream. rewrite Hws, Hset.
    apply Hfail.
    destruct (fails_as_reachable _ _ _ _ Hws err Hset) as (Hkind & _).
    destruct (isAbortError err) eqn:Hab; [|reflexivity].
    destruct (Hne (stream_failure_abort _ Hkind Hab)).
  - intros err. unfold callChatApiStream.
    destruct (callChatApiWebSocket e signal events) as [c|error] eqn:Hws.
    + destruct (settlement c) as [[r|error]|] eqn:Hset; try discriminate.
      destruct (fails_as_reachable _ _ _ _ Hws error Hset) as (Hkind & Hsig).
      unfold on_stream_failure.
      destruct (isAbortError error) eqn:Hab.
      * simpl. intros [= <-] _.
        pose proof (stream_failure_abort _ Hkind Hab). auto.
      * destruct (callChatApi e http); discriminate.
    + destruct (isAbortError error) eqn:Hab;
        [|rewrite (Hfail _ _ Hab); discriminate].
      unfold on_stream_failure. rewrite Hab. simpl. intros [= <-] _.
      right. split; [exact Hab|].
      destruct (run_throw_cases _ _ _ _ Hws) as [Hno|Hcase];
        [congruence|exact Hcase].
Qed.

Lemma stream_failure_falls_back_witness :
  callChatApiStream demo_env None [Open; SocketError] demo_http
  = fallen_back demo_env demo_http [].
Proof.
  refine (proj1 (stream_failure_falls_back demo_env None [Open; SocketError]
                   demo_http)
            (mkConn true [] [] (Some (Throw connection_failed)) [] 1
               false false false)
            connection_failed _ _ _).
  - reflexivity.
  - reflexivity.
  - discriminate.
Defined.

(** A host whose scheme is the word abort: the URL is built, the socket
    is refused with a message that names the scheme, and the call is
    rejected with it, the single-shot transport left aside. *)
Example refused_scheme_reads_as_abort :
  let run :=
    callChatApiStream (platform (js "abort://api.example") true) None []
      demo_http in
  buildChatWebSocketUrl (platform (js "abort://api.example") true)
  = Ok (js "abort://api.example/chat?websocket=True")
  /\ (exists err,
        outcome run = Some (Throw err) /\ kind err = SyntaxError
        /\ isAbortError err = true)
  /\ fallback run = false.
Proof. vm_compute. split; [reflexivity|]. split; eauto. Qed.

(** An event that settles the promise ends the run. *)
Lemma settling_step e signal pre ev post c :
  callChatApiWebSocket e signal pre = Ok c ->
  settled (step c ev) = true ->
  callChatApiWebSocket e signal (pre ++ ev :: post) = Ok (step c ev).
Proof.
  intros Hws Hs. rewrite (run_app _ _ _ _ _ Hws). cbn [fold_left].
  rewrite (run_settled (listening signal)); auto.
  apply wf_step. eapply wf_reachable; eauto.
Qed.

Lemma effect_timer c c' :
  effect c c' -> openTimeout c = false -> openTimeout c' = false.
Proof.
  intros [ |x| |err] H; auto.
  - unfold finish, finalizeWithText, resolveOnce.
    destruct (settled c); auto.
  - unfold rejectOnce. destruct (settled c); auto.
Qed.

Lemma timer_stays_off c ev :
  openTimeout c = false -> openTimeout (step c ev) = false.
Proof.
  intros H. destruct ev as [|d| |code| |]; simpl.
  - destruct (handlers c); auto.
  - destruct (handlers c); auto. apply (effect_timer c); auto.
    apply onmessage_effect.
  - destruct (handlers c); auto. apply (effect_timer c); auto. constructor.
  - destruct (handlers c); auto. unfold onclose.
    unfold finalizeWithText, resolveOnce, rejectOnce.
    repeat case_match; auto.
  - rewrite H. exact H.
  - destruct (abortListener c); auto.
    unfold onAbort, rejectOnce. simpl. destruct (settled c); auto.
Qed.

Lemma run_timer_off events c :
  openTimeout c = false -> openTimeout (fold_left step events c) = false.
Proof.
  revert c; induction events as [|ev events IH]; intros c H; [exact H|].
  apply IH, timer_stays_off, H.
Qed.

(** X3: the connect timer has no effect once the socket has opened:
    whatever the events, a firing of the timer after the open event can be
    left out. *)
Theorem connect_timer_stops_at_open e signal pre post1 post2 http :
  callChatApiWebSocket e signal (pre ++ Open :: post1 ++ TimerFired :: post2)
  = callChatApiWebSocket e signal (pre ++ Open :: post1 ++ post2)
  /\ callChatApiStream e signal
       (pre ++ Open :: post1 ++ TimerFired :: post2) http
     = callChatApiStream e signal (pre ++ Open :: post1 ++ post2) http.
Proof.
  assert (H : callChatApiWebSocket e signal
                (pre ++ Open :: post1 ++ TimerFired :: post2)
              = callChatApiWebSocket e signal (pre ++ Open :: post1 ++ post2)).
  { destruct (callChatApiWebSocket e signal pre) as [c|err] eqn:Hws.
    - rewrite !(run_app _ _ _ _ _ Hws). f_equal.
      cbn [fold_left]. rewrite !fold_left_app. cbn [fold_left].
      pose proof (wf_reachable _ _ _ _ Hws) as Hwf.
      assert (Hoff : openTimeout (step c Open) = false).
      { simpl. destruct (handlers c) eqn:Hh; [reflexivity|].
        destruct (settled c) eqn:Hs.
        - apply (wf_settled _ _ Hwf Hs).
        - destruct (wf_pending _ _ Hwf Hs) as (_ & Hon & _). congruence. }
      pose proof (run_timer_off post1 _ Hoff) as Hoff1.
      set (c1 := fold_left step post1 (step c Open)) in *.
      replace (step c1 TimerFired) with c1; [reflexivity|].
      simpl. rewrite Hoff1. reflexivity.
    - rewrite !(run_throws _ _ _ _ Hws). reflexivity. }
  split; [exact H|]. unfold callChatApiStream. rewrite H. reflexivity.
Qed.

Lemma effect_pending_timer c c' :
  effect c c' -> settled c = false -> settled c' = false ->
  openTimeout c' = openTimeout c.
Proof.
  intros [ |x| |err] Hun Hun'; auto.
  - revert Hun'. unfold finish, finalizeWithText, resolveOnce.
    rewrite Hun. discriminate.
  - revert Hun'. unfold rejectOnce. rewrite Hun. discriminate.
Qed.

Lemma pending_step_timer l c ev :
  wf l c -> ev <> Open -> settled (step c ev) = false ->
  openTimeout (step c ev) = openTimeout c.
Proof.
  intros Hwf Hev Hun'.
  assert (Hun : settled c = false).
  { destruct (settled c) eqn:Hs; [|reflexivity].
    rewrite (step_settled _ _ _ Hwf Hs) in Hun'. congruence. }
  revert Hun'. destruct ev as [|d| |code| |]; simpl; try congruence.
  - destruct (handlers c); auto. intros Hun'.
    apply effect_pending_timer; auto using onmessage_effect.
  - destruct (handlers c); auto. unfold rejectOnce. rewrite Hun.
    unfold settle, cleanup. cbn [settled]. discriminate.
  - destruct (handlers c); auto. unfold onclose. rewrite Hun.
    unfold finalizeWithText, resolveOnce, rejectOnce. rewrite Hun.
    unfold settle, cleanup, socket_close.
    repeat case_match; cbn [settled]; discriminate.
  - destruct (openTimeout c) eqn:Ht; auto.
    unfold ontimeout, rejectOnce. cbn [settled settle socket_close].
    rewrite Hun. unfold settle, cleanup. cbn [settled]. discriminate.
  - destruct (abortListener c) eqn:Ha; auto.
    unfold onAbort, rejectOnce. cbn [settled settle socket_close].
    rewrite Hun. unfold settle, cleanup. cbn [settled]. discriminate.
Qed.

Lemma pending_run_timer l events c :
  wf l c -> Open ∉ events -> settled (fold_left step events c) = false ->
  openTimeout (fold_left step events c) = openTimeout c.
Proof.
  revert c; induction events as [|ev events IH]; intros c Hwf Hno Hun;
    [reflexivity|].
  cbn [fold_left] in *.
  assert (Hev : ev <> Open) by (intros ->; apply Hno; left).
  assert (Hno' : Open ∉ events) by (intros H; apply Hno; right; exact H).
  assert (Hun1 : settled (step c ev) = false).
  { destruct (settled (step c ev)) eqn:Hs; [|reflexivity].
    rewrite (run_settled l) in Hun; auto using wf_step. congruence. }
  rewrite (IH _ (wf_step _ _ _ Hwf) Hno' Hun).
  apply (pending_step_timer l); auto.
Qed.

Lemma failure_falls_back e http seen error :
  isAbortError error = false ->
  on_stream_failure e http seen error = fallen_back e http seen.
Proof.
  intros Hno. unfold on_stream_failure, fallen_back, after_fallback.
  rewrite Hno. destruct (callChatApi e http); reflexivity.
Qed.

(** X4: when the connect timer fires while the call is pending and the
    socket has not opened, the socket is closed, the attempt is rejected
    as timed out, and the single-shot transport is called once; its
    answer settles the call and, when its message is not empty, is passed
    to [onChunk] in one piece. *)
Theorem connect_timeout_falls_back e signal pre post http c :
  callChatApiWebSocket e signal pre = Ok c ->
  settled c = false ->
  Open ∉ pre ->
  callChatApiStream e signal (pre ++ TimerFired :: post) http
  = fallen_back e http (delivered c)
  /\ exists c',
       callChatApiWebSocket e signal (pre ++ TimerFired :: post) = Ok c'
       /\ settlement c' = Some (Throw timed_out)
       /\ closes c' = closes c ++ [None].
Proof.
  intros Hws Hun Hno.
  assert (Harmed : openTimeout c = true).
  { revert Hun. rewrite (run_executor _ _ _ _ Hws). intros Hun.
    rewrite (pending_run_timer (listening signal));
      auto using wf_executor.
    destruct signal as [[|]|]; try reflexivity.
    rewrite (run_settled false) in Hun; [discriminate| |reflexivity].
    apply (wf_executor (Some true)). }
  assert (Hstep : step c TimerFired
                  = settle (Throw timed_out) (socket_close None c)).
  { simpl. rewrite Harmed. unfold ontimeout, rejectOnce. simpl.
    rewrite Hun. reflexivity. }
  assert (Hend : callChatApiWebSocket e signal (pre ++ TimerFired :: post)
                 = Ok (settle (Throw timed_out) (socket_close None c))).
  { rewrite <- Hstep. apply settling_step; auto. rewrite Hstep. reflexivity. }
  split; [|eexists; split; [exact Hend|split; reflexivity]].
  unfold callChatApiStream. rewrite Hend.
  change (settlement (settle (Throw timed_out) (socket_close None c)))
    with (Some (Throw (A := ChatApiResponse) timed_out)).
  cbv iota. apply failure_falls_back. reflexivity.
Qed.

Lemma connect_timeout_falls_back_witness :
  callChatApiStream demo_env (Some false) ([] ++ [TimerFired]) demo_http
  = mkRun (Some (Ok (mkResponse (js "Hello") []))) [js "Hello"] true.
Proof.
  refine (proj1 (connect_timeout_falls_back demo_env (Some false) [] []
                   demo_http (executor (Some false)) _ _ _)).
  - reflexivity.
  - reflexivity.
  - apply not_elem_of_nil.
Defined.

Lemma ends_stream_finishes raw c :
  settled c = false -> ends_stream raw = true ->
  onmessage (DataString raw) c = finish c.
Proof.
  intros Hun. unfold ends_stream, onmessage, parse_or_literal, try_catch.
  rewrite Hun.
  destruct (JSON_parse raw) as [[| | |s|items|fields]|]; simpl;
    try discriminate.
  - intros ->. reflexivity.
  - unfold prop, is_true; simpl. split_branches; simpl;
      try discriminate; reflexivity.
  - intros ->. reflexivity.
Qed.

(** X5: a unit that ends the stream, received while the call is pending,
    resolves the call with the text accumulated so far and its artifact
    paths, passes nothing to [onChunk], closes the socket with code 1000,
    and lets no later event count. *)
Theorem done_unit_resolves e signal pre raw post http c :
  callChatApiWebSocket e signal pre = Ok c ->
  settled c = false ->
  ends_stream raw = true ->
  callChatApiStream e signal (pre ++ Message (DataString raw) :: post) http
  = mkRun (Some (Ok (mkResponse (fullText c)
                       (extractArtifactPaths (fullText c)))))
      (delivered c) false
  /\ exists c',
       callChatApiWebSocket e signal
         (pre ++ Message (DataString raw) :: post) = Ok c'
       /\ closes c' = closes c ++ [Some (1000%Z, js "done")].
Proof.
  intros Hws Hun Hend.
  pose proof (wf_reachable _ _ _ _ Hws) as Hwf.
  destruct (pending_handlers _ _ Hwf Hun) as (Hh & _).
  assert (Hstep : step c (Message (DataString raw))
                  = socket_close (Some (1000%Z, js "done"))
                      (settle (Ok (mkResponse (fullText c)
                                     (extractArtifactPaths (fullText c))))
                         c)).
  { simpl. rewrite Hh, (ends_stream_finishes _ _ Hun Hend).
    unfold finish, finalizeWithText, resolveOnce. rewrite Hun. reflexivity. }
  assert (Hrun : callChatApiWebSocket e signal
                   (pre ++ Message (DataString raw) :: post)
                 = Ok (step c (Message (DataString raw)))).
  { apply settling_step; auto. rewrite Hstep. reflexivity. }
  rewrite Hstep in Hrun.
  split; [|eexists; split; [exact Hrun|reflexivity]].
  unfold callChatApiStream. rewrite Hrun. reflexivity.
Qed.

Lemma done_unit_resolves_witness :
  callChatApiStream demo_env (Some false)
    ([Open; Message (DataString (js "Hi"))]
       ++ Message (DataString (js " [DONE] "))
            :: [Message (DataString (js "x"))])
    demo_http
  = mkRun (Some (Ok (mkResponse (js "Hi") []))) [js "Hi"] false.
Proof.
  refine (proj1 (done_unit_resolves demo_env (Some false)
                   [Open; Message (DataString (js "Hi"))] (js " [DONE] ")
                   [Message (DataString (js "x"))] demo_http
                   (mkConn false (js "Hi") [js "Hi"] None [] 1 true true false)
                   _ _ _)).
  - reflexivity.
  - reflexivity.
  - vm_compute. reflexivity.
Defined.

End TransportMore.

(** ** Artifact paths and file kinds *)

Module FilesFacts.
Import Artifacts Paths Files FilesSpec.

Lemma take_nonspace_clean (s : jsstring) :
  forallb (fun c => negb (is_space c)) (take_nonspace s) = true.
Proof.
  induction s as [|c s IH]; [reflexivity|]. simpl.
  destruct (is_space c) eqn:Hc; [reflexivity|]. simpl. rewrite Hc. exact IH.
Qed.

Lemma match_bullet_path (trimmed p : jsstring) :
  match_bullet trimmed = Some p -> artifact_path p = true.
Proof.
  unfold match_bullet. destruct trimmed as [|c rest]; [discriminate|].
  destruct (_ && _); [|discriminate].
  pose proof (take_nonspace_clean
                (drop (length artifacts_prefix) (trimStart rest))) as Hclean.
  destruct (take_nonspace _) as [|x tok]; [discriminate|].
  intros H.
  assert (p = artifacts_prefix ++ x :: tok) as -> by congruence.
  assert (Hpre : forallb (fun c => negb (is_space c)) artifacts_prefix = true)
    by reflexivity.
  unfold artifact_path.
  rewrite LineFacts.startsWith_app, forallb_app, Hclean, Hpre, length_app.
  assert (Hlen : (length artifacts_prefix
                  <? length artifacts_prefix + length (x :: tok))%nat = true)
    by (apply Nat.ltb_lt; simpl; lia).
  rewrite Hlen. reflexivity.
Qed.

Lemma scan_paths (inBlock : bool) (paths lines : list jsstring) :
  Forall (fun p => artifact_path p = true) paths ->
  Forall (fun p => artifact_path p = true) (scan inBlock paths lines).
Proof.
  revert inBlock paths.
  induction lines as [|line lines IH]; intros inBlock paths H; [exact H|].
  cbn [scan]. destruct (startsWith marker (trim line)); [apply IH, H|].
  destruct (negb inBlock); [apply IH, H|].
  destruct (match_bullet (trim line)) as [p|] eqn:Hb.
  - apply IH. apply Forall_app. split; [exact H|].
    constructor; [|constructor]. eapply match_bullet_path; eauto.
  - destruct (0 <? length (trim line))%nat; [exact H|apply IH, H].
Qed.

(** X6: every path that the extraction returns starts with "/artifacts/",
    goes on with at least one character, and holds no white space. *)
Theorem extracted_paths_are_artifact_paths (text : jsstring) :
  Forall (fun p => artifact_path p = true) (extractArtifactPaths text).
Proof. apply scan_paths. constructor. Qed.

Lemma before_query_clean (s : jsstring) :
  forallb (fun c => negb (c =? 63)) (before_query s) = true.
Proof.
  induction s as [|c s IH]; [reflexivity|]. simpl.
  destruct (c =? 63) eqn:Hc; [reflexivity|]. simpl. rewrite Hc. exact IH.
Qed.

Lemma last_segment_go_clean (s cur : jsstring) :
  forallb (fun c => negb (c =? 63)) s = true ->
  forallb no_separator cur = true ->
  forallb no_separator (last_segment_go cur s) = true.
Proof.
  revert cur; induction s as [|c s IH]; intros cur Hs Hcur; simpl.
  - rewrite LineFacts.forallb_rev_eq. exact Hcur.
  - simpl in Hs. apply andb_true_iff in Hs as [Hc Hs].
    destruct (c =? 47) eqn:Hslash; [apply IH; auto|].
    apply IH; auto. simpl. unfold no_separator at 1.
    rewrite Hslash, Hc, Hcur. reflexivity.
Qed.


Lemma has_In (set : list jsstring) (x : jsstring) :
  has set x = true <-> In x set.
Proof.
  unfold has. rewrite existsb_exists. split.
  - intros (y & Hy & Heq). apply eqb_eq in Heq. subst. exact Hy.
  - intros H. exists x. split; [exact H|apply eqb_refl].
Qed.

Ltac by_extension H :=
  apply has_In in H; simpl in H;
  repeat (destruct H as [H|H]; [rewrite <- H; reflexivity|]);
  contradiction.

Lemma supported_is_audio f :
  isSupportedAudioFile f = true -> isAnyAudioFile f = true.
Proof.
  unfold isSupportedAudioFile, isAnyAudioFile. intros H. by_extension H.
Qed.

Lemma image_is_no_audio f :
  isImageFile f = true ->
  isSupportedAudioFile f = false /\ isAnyAudioFile f = false.
Proof.
  unfold isImageFile, isSupportedAudioFile, isAnyAudioFile. intros H.
  split; by_extension H.
Qed.

Lemma markdown_is_plain f :
  isMarkdownFile f = true ->
  isSupportedAudioFile f = false /\ isAnyAudioFile f = false
  /\ isImageFile f = false.
Proof.
  unfold isMarkdownFile, isImageFile, isSupportedAudioFile, isAnyAudioFile,
    lowered_extension.
  intros H. apply eqb_eq in H. rewrite H. repeat split; reflexivity.
Qed.

Lemma split_fold (files : list VFile) (s : split) :
  fold_left split_one files s
  = mkSplit (textFiles s ++ of_kind Text files)
      (audioFiles s ++ of_kind Audio files)
      (imageFiles s ++ of_kind Image files)
      (unsupportedAudioFiles s ++ of_kind UnsupportedAudio files)
      (skippedFiles s ++ of_kind Skipped files).
Proof.
  revert s; induction files as [|f files IH]; intros s.
  - simpl. rewrite !app_nil_r. destruct s; reflexivity.
  - cbn [fold_left]. rewrite IH. unfold split_one, of_kind, kind_of.
    cbn [List.filter].
    destruct (isSupportedAudioFile f); [|destruct (isImageFile f);
      [|destruct (isAnyAudioFile f); [|destruct (isMarkdownFile f)]]];
      cbn; rewrite <- ?app_assoc; reflexivity.
Qed.

Lemma of_kind_cons (k : kind) (f : VFile) (files : list VFile) :
  of_kind k (f :: files)
  = if kind_eqb (kind_of f) k then f :: of_kind k files else of_kind k files.
Proof. reflexivity. Qed.

Lemma kinds_partition (files : list VFile) :
  Permutation
    (of_kind Text files ++ of_kind Audio files ++ of_kind Image files
       ++ of_kind UnsupportedAudio files ++ of_kind Skipped files)
    files.
Proof.
  induction files as [|f files IH]; [constructor|].
  rewrite !of_kind_cons.
  set (T := of_kind Text files) in *.
  set (A := of_kind Audio files) in *.
  set (I := of_kind Image files) in *.
  set (U := of_kind UnsupportedAudio files) in *.
  set (S := of_kind Skipped files) in *.
  destruct (kind_of f); cbn [kind_eqb].
  - apply (Permutation_sym (Permutation_cons_app T _ f (Permutation_sym IH))).
  - rewrite (app_assoc T A). rewrite (app_assoc T A) in IH.
    apply (Permutation_sym
             (Permutation_cons_app (T ++ A) _ f (Permutation_sym IH))).
  - rewrite (app_assoc A I), (app_assoc T (A ++ I)).
    rewrite (app_assoc A I), (app_assoc T (A ++ I)) in IH.
    apply (Permutation_sym
             (Permutation_cons_app (T ++ A ++ I) _ f (Permutation_sym IH))).
  - apply Permutation_cons; [reflexivity|exact IH].
  - rewrite (app_assoc I U), (app_assoc A (I ++ U)),
      (app_assoc T (A ++ I ++ U)).
    rewrite (app_assoc I U), (app_assoc A (I ++ U)),
      (app_assoc T (A ++ I ++ U)) in IH.
    apply (Permutation_sym
             (Permutation_cons_app (T ++ A ++ I ++ U) _ f
                (Permutation_sym IH))).
Qed.

Lemma kind_of_cases f :
  kind_eqb (kind_of f) Audio = isSupportedAudioFile f
  /\ kind_eqb (kind_of f) Image = isImageFile f
  /\ kind_eqb (kind_of f) UnsupportedAudio
     = isAnyAudioFile f && negb (isSupportedAudioFile f)
  /\ kind_eqb (kind_of f) Text = isMarkdownFile f
  /\ kind_eqb (kind_of f) Skipped
     = negb (isAnyAudioFile f || isImageFile f || isMarkdownFile f).
Proof.
  unfold kind_of.
  pose proof (supported_is_audio f) as Hs.
  pose proof (image_is_no_audio f) as Hi.
  pose proof (markdown_is_plain f) as Hm.
  destruct (isSupportedAudioFile f), (isImageFile f), (isAnyAudioFile f),
    (isMarkdownFile f); simpl; intuition congruence.
Qed.

(** X8: [splitFiles] sorts the files into five lists by extension alone:
    each list holds, in the order of the input, the files of its kind,
    the kinds exclude one another, and no file is lost or repeated. *)
Theorem splitFiles_partitions (files : list VFile) :
  audioFiles (splitFiles files) = List.filter isSupportedAudioFile files
  /\ imageFiles (splitFiles files) = List.filter isImageFile files
  /\ unsupportedAudioFiles (splitFiles files)
     = List.filter
         (fun f => isAnyAudioFile f && negb (isSupportedAudioFile f)) files
  /\ textFiles (splitFiles files) = List.filter isMarkdownFile files
  /\ skippedFiles (splitFiles files)
     = List.filter
         (fun f => negb (isAnyAudioFile f || isImageFile f || isMarkdownFile f))
         files
  /\ Permutation
       (textFiles (splitFiles files) ++ audioFiles (splitFiles files)
          ++ imageFiles (splitFiles files)
          ++ unsupportedAudioFiles (splitFiles files)
          ++ skippedFiles (splitFiles files))
       files.
Proof.
  unfold splitFiles. rewrite split_fold.
  cbn [textFiles audioFiles imageFiles unsupportedAudioFiles skippedFiles app].
  repeat split; try (apply List.filter_ext; intros f; apply kind_of_cases).
  apply kinds_partition.
Qed.

Lemma content_type_supported (f : VFile) (contentType : jsstring) :
  getAudioContentType f = Ok contentType -> isSupportedAudioFile f = true.
Proof.
  unfold getAudioContentType, isSupportedAudioFile, has,
    SUPPORTED_AUDIO_EXTENSIONS.
  cbn [existsb]. set (x := lowered_extension f).
  destruct (eqb x (js "mp3")), (eqb x (js "m4a")), (eqb x (js "ogg")),
    (eqb x (js "opus")), (eqb x (js "flac")), (eqb x (js "wav"));
    cbn [orb]; auto using orb_true_r; discriminate.
Qed.

(** X9: [getAudioContentType] gives a content type for the files that
    [isSupportedAudioFile] accepts and for no others; for the others it
    throws, naming the lowered extension. *)
Theorem content_type_of_supported_audio (f : VFile) :
  match getAudioContentType f with
  | Ok _ => isSupportedAudioFile f = true
  | Throw e =>
      isSupportedAudioFile f = false
      /\ e = Error (js "Unsupported audio format: ." ++ lowered_extension f)
  end.
Proof.
  unfold getAudioContentType, isSupportedAudioFile, has,
    SUPPORTED_AUDIO_EXTENSIONS.
  cbn [existsb]. set (x := lowered_extension f).
  destruct (eqb x (js "mp3")), (eqb x (js "m4a")), (eqb x (js "ogg")),
    (eqb x (js "opus")), (eqb x (js "flac")), (eqb x (js "wav"));
    cbn [orb]; repeat split; auto using orb_true_r.
Qed.

End FilesFacts.

(** ** The folder tree: collecting files and chat logs *)

Module VaultFacts.
Import Paths Files Vault.

Lemma insert_by_perm {A} (before : A -> A -> bool) (x : A) (l : list A) :
  Permutation (insert_by before x l) (x :: l).
Proof.
  induction l as [|y l IH]; simpl; [reflexivity|].
  destruct (before x y); [reflexivity|].
  rewrite IH. apply perm_swap.
Qed.

Lemma sort_by_perm {A} (before : A -> A -> bool) (l : list A) :
  Permutation (sort_by before l) l.
Proof.
  induction l as [|x l IH]; simpl; [reflexivity|].
  rewrite insert_by_perm, IH. reflexivity.
Qed.

Lemma insert_by_sorted {A} (before : A -> A -> bool) (R : A -> A -> Prop)
    (x : A) (l : list A) :
  (forall a b, before a b = true -> R a b) ->
  (forall a b, before a b = false -> R b a) ->
  (forall a b c, R a b -> R b c -> R a c) ->
  StronglySorted R l -> StronglySorted R (insert_by before x l).
Proof.
  intros Hyes Hno Htrans.
  induction 1 as [|y l Hl IH Hy]; simpl.
  - constructor; constructor.
  - destruct (before x y) eqn:Hxy.
    + constructor; [constructor; assumption|].
      constructor; [apply Hyes, Hxy|].
      eapply Forall_impl; [exact Hy|]. intros z Hz.
      eapply Htrans; [apply Hyes, Hxy|exact Hz].
    + constructor; [exact IH|].
      rewrite (insert_by_perm before x l).
      constructor; [apply Hno, Hxy|exact Hy].
Qed.

Lemma sort_by_sorted {A} (before : A -> A -> bool) (R : A -> A -> Prop)
    (l : list A) :
  (forall a b, before a b = true -> R a b) ->
  (forall a b, before a b = false -> R b a) ->
  (forall a b c, R a b -> R b c -> R a c) ->
  StronglySorted R (sort_by before l).
Proof.
  intros Hyes Hno Htrans.
  induction l as [|x l IH]; simpl; [constructor|].
  apply insert_by_sorted; assumption.
Qed.

Lemma visit_kept summaryFileName folderPath (child : TAbstractFile) :
  Forall (fun f => skipped_file summaryFileName folderPath (path f) = false)
    (visit summaryFileName folderPath child).
Proof.
  revert child. fix IH 1. intros [f|p children]; simpl.
  - destruct (skipped_file summaryFileName folderPath (path f)) eqn:Hf;
      [constructor|]. constructor; [exact Hf|constructor].
  - destruct (skipped_folder folderPath p); [constructor|].
    induction children as [|c cs IHc]; simpl; [constructor|].
    apply Forall_app. split; [apply IH|exact IHc].
Qed.

Lemma traverse_kept summaryFileName folderPath children :
  Forall (fun f => skipped_file summaryFileName folderPath (path f) = false)
    (traverse summaryFileName folderPath children).
Proof.
  unfold traverse.
  induction children as [|c cs IH]; simpl; [constructor|].
  apply Forall_app. split; [apply visit_kept|exact IH].
Qed.

(** X10: the files that [collectFilesInFolder] returns are those that the
    traversal meets, each once, in the order of their creation time; none
    of them is the summary file or lies in the context folder, in an
    archived context folder or in the artifacts folder; and every file
    that is a child of the folder and is not of these is among them. *)
Theorem collected_files_sorted summaryFileName folderPath children :
  StronglySorted (fun a b => (ctime a <= ctime b)%Z)
    (collectFilesInFolder summaryFileName folderPath children)
  /\ Permutation (collectFilesInFolder summaryFileName folderPath children)
       (traverse summaryFileName folderPath children)
  /\ Forall
       (fun f => skipped_file summaryFileName folderPath (path f) = false)
       (collectFilesInFolder summaryFileName folderPath children)
  /\ (forall f,
        In (AFile f) children ->
        skipped_file summaryFileName folderPath (path f) = false ->
        In f (collectFilesInFolder summaryFileName folderPath children)).
Proof.
  unfold collectFilesInFolder.
  set (before := fun a b : VFile => (ctime a <=? ctime b)%Z).
  pose proof (sort_by_perm before
                (traverse summaryFileName folderPath children)) as Hperm.
  repeat split.
  - apply sort_by_sorted; unfold before; intros; lia.
  - exact Hperm.
  - rewrite Hperm. apply traverse_kept.
  - intros f Hin Hkeep.
    apply (Permutation_in f (Permutation_sym Hperm)).
    unfold traverse. apply in_flat_map. exists (AFile f).
    split; [exact Hin|]. simpl. rewrite Hkeep. left. reflexivity.
Qed.

Lemma collect_logs_named includeJson (child : TAbstractFile) :
  Forall (fun f => startsWith CHAT_LOG_PREFIX (name f) = true
                   /\ includeByExtension includeJson f = true)
    (collect_logs includeJson child).
Proof.
  revert child. fix IH 1. intros [f|p children]; cbn [collect_logs].
  - destruct (startsWith CHAT_LOG_PREFIX (name f)) eqn:Hn;
      cbn [andb]; [|constructor].
    destruct (includeByExtension includeJson f) eqn:He; [|constructor].
    constructor; [split; [exact Hn|exact He]|constructor].
  - induction children as [|c cs IHc]; cbn [flat_map]; [constructor|].
    apply Forall_app. split; [apply IH|exact IHc].
Qed.

Lemma candidates_named folderPath children includeJson :
  Forall (fun f => startsWith CHAT_LOG_PREFIX (name f) = true
                   /\ includeByExtension includeJson f = true)
    (getChatLogCandidates folderPath children includeJson).
Proof.
  unfold getChatLogCandidates.
  induction (List.filter (is_context_root folderPath) children)
    as [|root roots IH]; simpl; [constructor|].
  apply Forall_app. split; [|exact IH].
  destruct root as [f|p inside]; [constructor|].
  induction inside as [|c cs IHc]; cbn [flat_map]; [constructor|].
  apply Forall_app. split; [apply collect_logs_named|exact IHc].
Qed.

(** X11: [getLatestChatLogPath] returns nothing exactly when the context
    folders hold no chat log; otherwise it returns the path of a markdown
    file named chat-... from a context folder that no other such file is
    newer than. *)
Theorem latest_chat_log_is_newest folderPath children :
  match getLatestChatLogPath folderPath children with
  | None => getChatLogCandidates folderPath children false = []
  | Some p =>
      exists f,
        In f (getChatLogCandidates folderPath children false)
        /\ path f = p
        /\ startsWith CHAT_LOG_PREFIX (name f) = true
        /\ extension f = js "md"
        /\ Forall (fun g => (mtime g <= mtime f)%Z)
             (getChatLogCandidates folderPath children false)
  end.
Proof.
  unfold getLatestChatLogPath.
  set (before := fun a b : VFile => (mtime b <=? mtime a)%Z).
  set (candidates := getChatLogCandidates folderPath children false).
  pose proof (sort_by_perm before candidates) as Hperm.
  assert (Hsorted : StronglySorted (fun a b => (mtime b <= mtime a)%Z)
                      (sort_by before candidates))
    by (apply sort_by_sorted; unfold before; intros; lia).
  destruct (sort_by before candidates) as [|newest rest].
  - apply Permutation_nil. exact Hperm.
  - assert (Hin : In newest candidates)
      by (apply (Permutation_in newest Hperm); left; reflexivity).
    pose proof (candidates_named folderPath children false) as Hnamed.
    rewrite List.Forall_forall in Hnamed.
    destruct (Hnamed newest Hin) as (Hname & Hext).
    exists newest. repeat split; auto.
    + apply eqb_eq. exact Hext.
    + rewrite <- Hperm. inversion Hsorted as [|? ? _ Hall]; subst.
      constructor; [lia|exact Hall].
Qed.

End VaultFacts.

(** ** Rewriting the chat log, and binary data as text *)

Module RewriteFacts.
Import ChatLog LineSpec ChatLogSpec ChatLogFacts Rewrite RewriteSpec.

Lemma strip_kept (now : nat -> jsstring) (l : list ChatLogEntry) :
  stripTimestamps (entry_of <$> imap
     (fun i m => (default (now i) (timestamp m), entry_role m, content m)) l)
  = stripTimestamps l.
Proof.
  unfold stripTimestamps.
  revert now; induction l as [|m l IH]; intros now; [reflexivity|].
  cbn [imap fmap list_fmap]. f_equal. apply (IH (fun i => now (S i))).
Qed.

(** X12: when [writeChatLog] rewrites the log from a history, it leaves
    out the system entries and gives each entry without time the time of
    the rewrite; when the turns it writes are loggable, reading the log
    gives back these entries, with the times they had, and the history
    shown from the log is the one shown at the migration without its
    system entries. *)
Theorem rewritten_log_round_trip D1 D2 (now : nat -> jsstring)
    (history : list ChatLogEntry) :
  Forall loggable (migrated now history) ->
  writeChatLog now history = document (migrated now history)
  /\ parseChatLog D1 D2 (writeChatLog now history)
     = Ok (entry_of <$> migrated now history)
  /\ stripTimestamps (entry_of <$> migrated now history)
     = stripTimestamps (List.filter is_logged history).
Proof.
  intros Hok.
  assert (Hdoc : writeChatLog now history = document (migrated now history)).
  { unfold writeChatLog, document, migrated. rewrite fmap_imap.
    rewrite <- app_assoc. reflexivity. }
  split; [exact Hdoc|]. split.
  - rewrite Hdoc, parseChatLog_document, parse_markdown_document; auto.
  - apply strip_kept.
Qed.

Lemma rewritten_log_round_trip_witness :
  parseChatLog no_date no_date
    (writeChatLog (fun _ => js "2026-01-02T03:04:05.678Z") legacy_history)
  = Ok [mkEntry User (js "Hi there") (Some (js "2025-12-31T23:59:59.000Z"));
        mkEntry Assistant (js "Hello.")
          (Some (js "2026-01-02T03:04:05.678Z"))].
Proof.
  refine (proj1 (proj2 (rewritten_log_round_trip no_date no_date
                          (fun _ => js "2026-01-02T03:04:05.678Z")
                          legacy_history _))).
  repeat constructor; try discriminate; vm_compute; reflexivity.
Defined.

Lemma binary_loop_all (bytes : list N) (turns i : nat) :
  (length bytes < i + turns)%nat ->
  binary_loop turns bytes i (take i bytes) = bytes.
Proof.
  revert i; induction turns as [|turns IH]; intros i Hlen; simpl.
  - apply take_ge. lia.
  - destruct (i <? length bytes)%nat eqn:Hi.
    + rewrite take_take_drop. apply IH.
      assert (0 < chunkSize)%nat by (vm_compute; lia). lia.
    + apply Nat.ltb_ge in Hi. apply take_ge. exact Hi.
Qed.

(** X13: [arrayBufferToBase64] gives [btoa] one character for each byte
    of the buffer, in order: the chunks of 8192 bytes that it joins
    neither drop nor repeat a byte, whatever the length of the buffer. *)
Theorem base64_of_every_byte (btoa : jsstring -> jsstring)
    (bytes : list N) :
  arrayBufferToBase64 btoa bytes = btoa bytes.
Proof.
  unfold arrayBufferToBase64. f_equal.
  apply (binary_loop_all bytes (S (length bytes)) 0). lia.
Qed.

End RewriteFacts.

(** ** The chat log as it grows *)

Module AppendFacts.
Import ChatLog LineSpec LineFacts ChatLogSpec ChatLogFacts AppendSpec.

Lemma trimStart_spaces (ws : jsstring) :
  forallb is_space ws = true -> trimStart ws = [].
Proof.
  intros H. rewrite <- (app_nil_r ws). rewrite trimStart_spaces_app; auto.
Qed.

Lemma trimStart_app (x y : jsstring) :
  trimStart (x ++ y)
  = if forallb is_space x then trimStart y else trimStart x ++ y.
Proof.
  induction x as [|c x IH]; [reflexivity|].
  cbn [app trimStart forallb]. destruct (is_space c); [exact IH|reflexivity].
Qed.

Lemma trimStart_head (x : jsstring) :
  forallb is_space x = false ->
  exists d s, trimStart x = d :: s /\ is_space d = false.
Proof.
  induction x as [|c x IH]; [discriminate|].
  cbn [trimStart forallb]. destruct (is_space c) eqn:Hc; [exact IH|].
  intros _. exists c, x. split; [reflexivity|exact Hc].
Qed.

Lemma trim_app_spaces (x ws : jsstring) :
  forallb is_space ws = true -> trim (x ++ ws) = trim x.
Proof.
  intros Hws. unfold trim, trimEnd. rewrite trimStart_app.
  destruct (forallb is_space x) eqn:Hx.
  - rewrite (trimStart_spaces _ Hws), (trimStart_spaces _ Hx). reflexivity.
  - rewrite rev_app_distr, trimStart_spaces_app; [reflexivity|].
    rewrite forallb_rev_eq. exact Hws.
Qed.

Lemma trim_app_head (x e : jsstring) (c : N) :
  is_space c = false ->
  exists d s1 s2,
    (forallb is_space x = true -> d = c)
    /\ (forallb is_space x = false -> trim x = d :: s1)
    /\ trim (x ++ c :: e) = d :: s2.
Proof.
  intros Hc. unfold trim at 2. rewrite trimStart_app.
  destruct (forallb is_space x) eqn:Hx.
  - destruct (trim_head c e Hc) as (s2 & Hs2).
    exists c, [], s2. repeat split; [discriminate|exact Hs2].
  - destruct (trimStart_head _ Hx) as (d & s & Hs & Hd).
    destruct (trim_head d s Hd) as (s1 & Hs1).
    destruct (trim_head d (s ++ c :: e) Hd) as (s2 & Hs2).
    unfold trim in Hs1, Hs2. rewrite trimStart_nonspace in Hs1, Hs2 by auto.
    exists d, s1, s2. repeat split; [discriminate| |].
    + intros _. unfold trim. rewrite Hs. exact Hs1.
    + rewrite Hs. exact Hs2.
Qed.

Lemma flush_blank (s : scanner) :
  messages (flush (scan_line s [])) = messages (flush s).
Proof.
  unfold scan_line.
  change (match_header []) with (@None (jsstring * role)).
  change (startsWith title []) with false. cbv iota.
  unfold flush. cbn [currentRole buffer currentTimestamp messages].
  destruct (currentRole s) as [r|]; [|reflexivity].
  destruct (buffer s) as [|line lines] eqn:Hb; [reflexivity|].
  assert (Hlen : (0 <? length ((line :: lines) ++ [[]]))%nat = true)
    by reflexivity.
  rewrite Hlen. change (0 <? length (line :: lines))%nat with true.
  cbv iota. rewrite join_lines_blank by discriminate.
  rewrite trim_app_spaces by reflexivity.
  destruct (0 <? length (trim (join_lines (line :: lines))))%nat;
    reflexivity.
Qed.

Lemma entry_lines (t : turn) :
  loggable t -> split_lines (entry_text t) = block_lines t ++ [[]].
Proof.
  intros Ht.
  assert (Hone : Forall loggable [t]) by (constructor; [exact Ht|constructor]).
  pose proof (split_entries [t] Hone) as H.
  cbn [fmap list_fmap concat] in H. rewrite !app_nil_r in H. exact H.
Qed.

Lemma parse_markdown_appended (p stamp : jsstring) (r : role)
    (text : jsstring) :
  loggable (stamp, r, text) ->
  parse_markdown (p ++ [10; 10] ++ log_entry stamp r text)
  = parse_markdown (p ++ [10; 10]) ++ [mkEntry r text (Some stamp)].
Proof.
  intros Ht. unfold parse_markdown.
  assert (Hlast : last (p ++ [10]) <> Some 13)
    by (rewrite last_snoc; discriminate).
  assert (Hsplit : forall rest,
            split_lines (p ++ [10; 10] ++ rest)
            = split_lines (p ++ [10]) ++ split_lines rest).
  { intros rest.
    change (p ++ [10; 10] ++ rest) with (p ++ [10] ++ 10 :: rest).
    rewrite app_assoc. apply split_lines_lf, Hlast. }
  assert (Hprev : split_lines (p ++ [10; 10])
                  = split_lines (p ++ [10]) ++ [[]]).
  { pose proof (Hsplit []) as H. rewrite (app_nil_r [10; 10]) in H.
    exact H. }
  rewrite Hsplit, Hprev.
  change (log_entry stamp r text) with (entry_text (stamp, r, text)).
  rewrite (entry_lines (stamp, r, text) Ht).
  rewrite !fold_left_app.
  set (s := fold_left scan_line (split_lines (p ++ [10]))
              (mkScanner None None [] [])).
  cbn [fold_left]. rewrite !flush_blank.
  rewrite (scan_block (stamp, r, text) s Ht).
  destruct Ht as (_ & _ & _ & Htidy & Hjoin & _).
  apply (flush_block stamp r text 0 _ Htidy Hjoin).
Qed.

Lemma legacy_shaped_appended (x e : jsstring) (c : N) :
  is_space c = false -> (c =? 123) = false -> (c =? 91) = false ->
  legacy_shaped x = false -> legacy_shaped (x ++ c :: e) = false.
Proof.
  intros Hc Hbrace Hbracket. unfold legacy_shaped.
  destruct (trim_app_head x e c Hc) as (d & s1 & s2 & Hall & Hsome & ->).
  destruct (forallb is_space x) eqn:Hx.
  - rewrite (Hall eq_refl). intros _. cbn [js startsWith].
    change (startsWith (js "{") (c :: s2)) with ((123 =? c) && true).
    change (startsWith (js "[") (c :: s2)) with ((91 =? c) && true).
    rewrite (N.eqb_sym 123), (N.eqb_sym 91), Hbrace, Hbracket. reflexivity.
  - rewrite (Hsome eq_refl). intros H. exact H.
Qed.

(** X14: appending a loggable turn to a log that ends with a blank line,
    whatever else it holds, adds this turn, and nothing else, at the end
    of what is read from it; both readings are the markdown ones when the
    log does not start with a brace or a bracket. *)
Theorem append_adds_last_entry D1 D2 (p stamp : jsstring) (r : role)
    (text : jsstring) :
  loggable (stamp, r, text) ->
  legacy_shaped (p ++ [10; 10]) = false ->
  exists entries,
    parseChatLog D1 D2 (p ++ [10; 10]) = Ok entries
    /\ parseChatLog D1 D2
         (appendChatLog (Some (p ++ [10; 10])) stamp r text)
       = Ok (entries ++ [mkEntry r text (Some stamp)]).
Proof.
  intros Ht Hshape. exists (parse_markdown (p ++ [10; 10])). split.
  - unfold parseChatLog. unfold legacy_shaped in Hshape. rewrite Hshape.
    reflexivity.
  - unfold appendChatLog, appendTextFile, parseChatLog.
    assert (Hshape' : legacy_shaped
                        ((p ++ [10; 10]) ++ log_entry stamp r text) = false).
    { change (log_entry stamp r text)
        with (35 :: js "# [" ++ stamp ++ js "] " ++ role_name r
                ++ [10] ++ text ++ [10; 10]).
      apply legacy_shaped_appended; auto. }
    unfold legacy_shaped in Hshape'. rewrite Hshape'.
    rewrite <- app_assoc. rewrite (parse_markdown_appended _ _ _ _ Ht).
    reflexivity.
Qed.

Lemma append_adds_last_entry_witness :
  parseChatLog no_date no_date
    (appendChatLog (Some edited_log) (js "2026-01-02T03:04:05.678Z")
       Assistant (js "Hello."))
  = Ok [mkEntry User (js "Hi") (Some (js "2026-01-01T00:00:00.000Z"));
        mkEntry Assistant (js "Hello.")
          (Some (js "2026-01-02T03:04:05.678Z"))].
Proof.
  destruct (append_adds_last_entry no_date no_date
              (js "# Chat history" ++ [10; 10] ++ js "a note" ++ [10]
                 ++ js "## [2026-01-01T00:00:00.000Z] user" ++ [10; 10]
                 ++ js "  Hi  " ++ [10])
              (js "2026-01-02T03:04:05.678Z") Assistant (js "Hello."))
    as (entries & Hold & Hnew).
  - repeat split; try discriminate; vm_compute; reflexivity.
  - vm_compute. reflexivity.
  - assert (entries
            = [mkEntry User (js "Hi") (Some (js "2026-01-01T00:00:00.000Z"))])
      as ->.
    { assert (Hread : parseChatLog no_date no_date edited_log
                      = Ok [mkEntry User (js "Hi")
                              (Some (js "2026-01-01T00:00:00.000Z"))])
        by (vm_compute; reflexivity).
      change (parseChatLog no_date no_date edited_log = Ok entries) in Hold.
      congruence. }
    exact Hnew.
Defined.

End AppendFacts.

(** ** The snapshot of an unchanged folder *)

Module UnchangedFacts.
Import Snapshot SnapshotSpec SnapshotFacts UnchangedSpec.

Lemma lookup_fold_other (files : list TFile) (m : gmap jsstring Z)
    (k : jsstring) :
  k ∉ path <$> files ->
  fold_left (fun m f => <[path f := mtime f]> m) files m !! k = m !! k.
Proof.
  revert m; induction files as [|g files IH]; intros m Hk; [reflexivity|].
  cbn [fold_left]. rewrite fmap_cons in Hk.
  apply not_elem_of_cons in Hk as [Hg Hrest].
  rewrite (IH _ Hrest). apply lookup_insert_ne. congruence.
Qed.

Lemma lookup_fold_member (files : list TFile) (m : gmap jsstring Z)
    (f : TFile) :
  NoDup (path <$> files) -> f ∈ files ->
  fold_left (fun m f => <[path f := mtime f]> m) files m !! path f
  = Some (mtime f).
Proof.
  revert m; induction files as [|g files IH]; intros m Hnd Hf.
  - inversion Hf.
  - rewrite fmap_cons in Hnd. apply NoDup_cons in Hnd as [Hg Hnd].
    cbn [fold_left]. apply elem_of_cons in Hf as [->|Hf].
    + rewrite (lookup_fold_other _ _ _ Hg). apply lookup_insert_eq.
    + apply IH; assumption.
Qed.

Lemma size_currentMap (files : list TFile) :
  NoDup (path <$> files) -> size (currentMap files) = length files.
Proof.
  intros Hnd. rewrite <- size_dom, dom_currentMap. unfold paths.
  rewrite size_list_to_set by exact Hnd. apply length_fmap.
Qed.

(** X15: a snapshot that holds the files of the folder as they are, each
    path once, in whatever order, is found unchanged: opening the chat on
    a folder nothing has touched archives nothing. *)
Theorem own_snapshot_is_unchanged content (stored files : list TFile) :
  JSON_parse content = Some (snapshot_json stored) ->
  NoDup (path <$> stored) ->
  Permutation stored files ->
  getSnapshotState (Some content) files = Ok (mkState true false).
Proof.
  intros Hparse Hnd Hperm.
  assert (Hnd' : NoDup (path <$> files)) by (rewrite <- Hperm; exact Hnd).
  destruct (getSnapshotState_stored content stored files Hparse)
    as (differs & Hscan & ->).
  destruct (scan_entries (currentMap files) stored)
    as (differs' & Hscan' & Hiff).
  assert (differs' = differs) as -> by congruence.
  assert (differs = false) as ->.
  { apply Hiff. apply Forall_forall. intros f Hf.
    apply (lookup_fold_member files ∅ f Hnd').
    rewrite <- Hperm. exact Hf. }
  rewrite (size_currentMap _ Hnd'), <- (Permutation_length Hperm).
  rewrite Z.eqb_refl. reflexivity.
Qed.

Lemma own_snapshot_is_unchanged_witness :
  getSnapshotState (Some two_snapshot) (rev two_files)
  = Ok (mkState true false).
Proof.
  apply (own_snapshot_is_unchanged two_snapshot two_files (rev two_files)).
  - vm_compute. reflexivity.
  - repeat constructor; rewrite ?elem_of_cons, ?elem_of_nil;
      intros H; repeat destruct H as [H|H]; try discriminate; auto.
  - apply Permutation_rev.
Defined.

End UnchangedFacts.

(** ** The reveal and the final rendering *)

Module FinalizeFacts.
Import Reveal RevealSpec RevealFacts FinalizeSpec.
Local Open Scope Z_scope.

Lemma ticks_stopped (j : nat) (m : modal) :
  streamingTypingTimer m = false -> ticks j m = m.
Proof.
  intros H. induction j as [|j IH]; [reflexivity|].
  rewrite ticks_succ. unfold tick at 1. rewrite H. exact IH.
Qed.

Lemma ticks_add (j n : nat) (m : modal) :
  ticks (j + n) m = ticks j (ticks n m).
Proof. unfold ticks. apply Nat.iter_add. Qed.

Lemma tick_finalizes b t fb ftext rd p sh :
  t <> [] -> Z.of_nat (length t) <= p ->
  tick (revealing b t (Some (fb, ftext)) rd p sh)
  = mkModal (Some b) t 0 false None sh (rd ++ [(fb, ftext)]).
Proof.
  intros Ht Hp. unfold tick, revealing, tickStreamingTyping.
  cbn [streamingTypingTimer streamingRenderTarget streamingRenderText
       streamingTypingProgress streamingFinalizeTarget].
  rewrite bool_decide_false by exact Ht.
  replace (Z.of_nat (length t) - p <=? 0) with true
    by (symmetry; apply Z.leb_le; lia).
  reflexivity.
Qed.

(** A tick on a text that is not wholly revealed shows more of it. *)
Lemma tick_reveals b t fin rd q sh :
  t <> [] -> q < Z.of_nat (length t) ->
  tick (revealing b t fin rd q sh)
  = revealing b t fin rd (advance (Z.of_nat (length t)) q)
      (Some (b, take (Z.to_nat (advance (Z.of_nat (length t)) q)) t)).
Proof.
  intros Ht Hq. unfold tick, revealing, tickStreamingTyping, advance.
  cbn [streamingTypingTimer streamingRenderTarget streamingRenderText
       streamingTypingProgress streamingFinalizeTarget rendered shown].
  rewrite bool_decide_false by exact Ht.
  replace (Z.of_nat (length t) - q <=? 0) with false
    by (symmetry; apply Z.leb_gt; lia).
  reflexivity.
Qed.

Lemma finalize_run b t fb ftext fin rd p sh :
  0 <= p -> t <> [] ->
  exists n : nat,
    (forall k : nat, (k <= n)%nat ->
       rendered (ticks k (queueFinalize fb ftext
                            (mkModal (Some b) t p true fin sh rd))) = rd)
    /\ (forall k : nat, (k < n)%nat ->
          streamingTypingProgress
            (ticks k (queueFinalize fb ftext
                        (mkModal (Some b) t p true fin sh rd)))
          < Z.of_nat (length t))
    /\ Z.of_nat (length t)
       <= streamingTypingProgress
            (ticks n (queueFinalize fb ftext
                        (mkModal (Some b) t p true fin sh rd)))
    /\ ((0 < n)%nat ->
        shown (ticks n (queueFinalize fb ftext
                          (mkModal (Some b) t p true fin sh rd)))
        = Some (b, t))
    /\ forall j : nat,
         rendered (ticks (j + S n)
                     (queueFinalize fb ftext
                        (mkModal (Some b) t p true fin sh rd)))
         = rd ++ [(fb, ftext)]
         /\ streamingTypingTimer
              (ticks (j + S n)
                 (queueFinalize fb ftext
                    (mkModal (Some b) t p true fin sh rd)))
            = false.
Proof.
  intros Hp Ht.
  change (queueFinalize fb ftext (mkModal (Some b) t p true fin sh rd))
    with (revealing b t (Some (fb, ftext)) rd p sh).
  destruct (Z_lt_le_dec p (Z.of_nat (length t))) as [Hlt|Hge].
  - destruct (reveal_run b t (Some (fb, ftext)) rd
                (Z.to_nat (Z.of_nat (length t) - p)) p sh)
      as (n & sh' & Hrun & _ & _ & _ & Hbefore); [lia|lia|].
    exists n. split; [|split; [|split; [|split]]].
    + intros k Hk. destruct (Nat.eq_dec k n) as [->|Hne].
      * rewrite Hrun. reflexivity.
      * destruct (Hbefore k) as (q & shk & _ & -> & _); [lia|]. reflexivity.
    + intros k Hk.
      destruct (Hbefore k Hk) as (q & shk & _ & -> & Hq & _). exact Hq.
    + rewrite Hrun. cbn [revealing streamingTypingProgress]. lia.
    + intros Hn. destruct n as [|k]; [lia|].
      destruct (Hbefore k) as (q & shk & _ & Hk & Hq & _); [lia|].
      pose proof Hrun as Hlast.
      change (ticks (S k) ?m) with (tick (ticks k m)) in Hlast.
      rewrite Hk, (tick_reveals b t _ rd q shk Ht Hq) in Hlast.
      injection Hlast as Hfull _.
      change (ticks (S k) ?m) with (tick (ticks k m)).
      rewrite Hk, (tick_reveals b t _ rd q shk Ht Hq).
      cbn [revealing shown]. rewrite Hfull, Nat2Z.id, firstn_all.
      reflexivity.
    + intros j. rewrite ticks_add.
      change (ticks (S n) ?m) with (tick (ticks n m)).
      rewrite Hrun, tick_finalizes by (auto; lia).
      rewrite ticks_stopped by reflexivity. split; reflexivity.
  - exists 0%nat. split; [|split; [|split; [|split]]].
    + intros k Hk. assert (k = 0)%nat as -> by lia. reflexivity.
    + intros k Hk. lia.
    + exact Hge.
    + lia.
    + intros j. rewrite ticks_add.
      change (ticks 1 ?m) with (tick m).
      rewrite tick_finalizes by auto.
      rewrite ticks_stopped by reflexivity. split; reflexivity.
Qed.

(** What every sequence of events keeps: the count of revealed
    characters is not negative, and the timer runs for a body only. *)
Lemma after_invariant (events : list modal_event) :
  0 <= streamingTypingProgress (after events)
  /\ (streamingTypingTimer (after events) = true ->
      streamingRenderTarget (after events) <> None).
Proof.
  unfold after.
  assert (Hfresh : 0 <= streamingTypingProgress fresh
                   /\ (streamingTypingTimer fresh = true ->
                       streamingRenderTarget fresh <> None))
    by (split; [reflexivity|discriminate]).
  revert Hfresh. generalize fresh.
  induction events as [|ev events IH]; intros m Hm; [exact Hm|].
  cbn [fold_left]. apply IH. destruct Hm as (Hp & Ht).
  assert (Hstop : forall m' : modal,
            streamingTypingProgress m' = 0 ->
            streamingTypingTimer m' = false ->
            0 <= streamingTypingProgress m'
            /\ (streamingTypingTimer m' = true ->
                streamingRenderTarget m' <> None)).
  { intros m' -> ->. split; [reflexivity|discriminate]. }
  destruct ev as [b text| |b text|]; cbn [apply_event].
  - unfold updateTypingText.
    cbn [streamingTypingProgress streamingTypingTimer streamingRenderTarget].
    split; [destruct (bool_decide _); lia|discriminate].
  - unfold tick. destruct (streamingTypingTimer m) eqn:Htimer;
      [|split; [exact Hp|intros H; rewrite Htimer in H; discriminate H]].
    unfold tickStreamingTyping.
    destruct (streamingRenderTarget m) as [target|];
      [|apply Hstop; reflexivity].
    destruct (bool_decide (streamingRenderText m = []));
      [apply Hstop; reflexivity|].
    destruct (_ <=? 0).
    + destruct (streamingFinalizeTarget m) as [[fb ftext]|];
        apply Hstop; reflexivity.
    + cbn [streamingTypingProgress streamingTypingTimer
           streamingRenderTarget].
      pose proof (step_ge_base
                    (Z.of_nat (length (streamingRenderText m))
                     - streamingTypingProgress m)).
      split; [lia|discriminate].
  - unfold queueFinalize. destruct (streamingTypingTimer m) eqn:Htimer.
    + split; [exact Hp|]. intros _. apply Ht. reflexivity.
    + apply Hstop; reflexivity.
  - apply Hstop; reflexivity.
Qed.

(** X16: in every state that the chat can bring the reveal scheduler to,
    a final rendering that is queued while the timer runs on a text that
    is not empty waits for the reveal: after each of the first ticks the
    count of revealed characters is below the length of the text, then it
    has reached the length, with the whole text on screen when a tick
    was needed for it, and nothing is rendered so far; the next tick
    renders the queued text, once, and stops the timer, and later ticks
    change nothing.  Queued while no timer runs, it is rendered at
    once. *)
Theorem finalize_waits_for_reveal (events : list modal_event) fb ftext :
  streamingTypingTimer (after events) = false
  \/ streamingRenderText (after events) <> [] ->
  exists n : nat,
    (streamingTypingTimer (after events) = false -> n = 0%nat)
    /\ (streamingTypingTimer (after events) = true ->
        exists n0 : nat,
          n = S n0
          /\ (forall k : nat, (k < n0)%nat ->
                streamingTypingProgress
                  (ticks k (queueFinalize fb ftext (after events)))
                < Z.of_nat (length (streamingRenderText (after events))))
          /\ Z.of_nat (length (streamingRenderText (after events)))
             <= streamingTypingProgress
                  (ticks n0 (queueFinalize fb ftext (after events)))
          /\ ((0 < n0)%nat ->
              exists b : body,
                streamingRenderTarget (after events) = Some b
                /\ shown (ticks n0 (queueFinalize fb ftext (after events)))
                   = Some (b, streamingRenderText (after events))))
    /\ (forall k : nat, (k < n)%nat ->
          rendered (ticks k (queueFinalize fb ftext (after events)))
          = rendered (after events))
    /\ forall j : nat,
         rendered (ticks (j + n) (queueFinalize fb ftext (after events)))
         = rendered (after events) ++ [(fb, ftext)]
         /\ streamingTypingTimer
              (ticks (j + n) (queueFinalize fb ftext (after events)))
            = false.
Proof.
  destruct (after_invariant events) as (Hp & Htarget).
  destruct (after events) as [target t p timer fin sh rd].
  cbn [streamingTypingProgress streamingTypingTimer streamingRenderTarget
       streamingRenderText rendered] in *.
  intros Hready. destruct timer.
  - destruct Hready as [Hoff|Ht]; [discriminate|].
    destruct target as [b|]; [|destruct (Htarget eq_refl eq_refl)].
    destruct (finalize_run b t fb ftext fin rd p sh Hp Ht)
      as (n & Hbefore & Hbelow & Hreached & Hshown & Hafter).
    exists (S n). split; [discriminate|]. split; [|split].
    + intros _. exists n. repeat split; eauto.
    + intros k Hk. apply Hbefore. lia.
    + exact Hafter.
  - exists 0%nat. split; [reflexivity|]. split; [discriminate|].
    split; [intros k Hk; lia|].
    intros j. rewrite ticks_add. change (ticks 0 ?m) with m.
    rewrite ticks_stopped by reflexivity. split; reflexivity.
Qed.

Lemma finalize_waits_for_reveal_witness :
  exists n : nat,
    forall j : nat,
      rendered (ticks (j + n)
                  (queueFinalize 1%nat (js "Good day.")
                     (after second_exchange)))
      = [(0%nat, js "Hello"); (1%nat, js "Good day.")].
Proof.
  destruct (finalize_waits_for_reveal second_exchange 1%nat
              (js "Good day.")) as (n & _ & _ & _ & Hafter).
  - right. vm_compute. discriminate.
  - exists n. intros j. destruct (Hafter j) as (Hrendered & _).
    exact Hrendered.
Defined.

End FinalizeFacts.

(** ** What the plugin writes into the context folder *)

Module OutputsFacts.
Import Transport TransportMoreSpec TransportMore.
Import Paths Files Vault Outputs OutputsSpec.

Lemma numeral_is_stamp (s : jsstring) :
  forallb numeral_char s = true -> forallb stamp_char s = true.
Proof.
  apply forallb_weaken. intros c H. unfold stamp_char. rewrite H. reflexivity.
Qed.

Lemma padStart2_stamp (z : Z) :
  forallb stamp_char (padStart2 (Z_to_js z)) = true.
Proof.
  unfold padStart2. rewrite forallb_app.
  rewrite (numeral_is_stamp _ (Z_to_js_numeral z)), andb_true_r.
  destruct (2 - length (Z_to_js z))%nat as [|[|[|n]]] eqn:Hn;
    try reflexivity.
  lia.
Qed.

Lemma forallb_drop {A} (f : A -> bool) (n : nat) (l : list A) :
  forallb f l = true -> forallb f (drop n l) = true.
Proof.
  revert n; induction l as [|x l IH]; intros [|n] H; auto.
  simpl in *. apply andb_true_iff in H as [_ H]. apply IH, H.
Qed.

Lemma dec_go_length (fuel : nat) (n : N) (acc : jsstring) :
  (length acc <= length (dec_go fuel n acc))%nat.
Proof.
  revert n acc; induction fuel as [|fuel IH]; intros n acc; [simpl; lia|].
  cbn [dec_go]. destruct (n / 10 =? 0).
  - simpl. lia.
  - etransitivity; [|apply IH]. simpl. lia.
Qed.

Lemma dec_go_acc (fuel : nat) (n : N) (acc : jsstring) :
  dec_go fuel n acc = dec_go fuel n [] ++ acc.
Proof.
  revert n acc; induction fuel as [|fuel IH]; intros n acc; [reflexivity|].
  cbn [dec_go]. destruct (n / 10 =? 0); [reflexivity|].
  rewrite IH, (IH _ [_]), <- app_assoc. reflexivity.
Qed.

Lemma dec_go_value (fuel : nat) (n : N) :
  n < 2 ^ N.of_nat fuel -> dec_value 0 (dec_go fuel n []) = n.
Proof.
  revert n; induction fuel as [|fuel IH]; intros n Hn.
  - simpl in Hn. assert (n = 0) as -> by lia. reflexivity.
  - cbn [dec_go].
    pose proof (N.mod_upper_bound n 10 ltac:(discriminate)) as Hmod.
    pose proof (N.div_mod n 10 ltac:(discriminate)) as Hdiv.
    destruct (n / 10 =? 0) eqn:Hq.
    + apply N.eqb_eq in Hq. unfold dec_value. cbn [fold_left].
      set (d := n mod 10) in *. set (q := n / 10) in *. clearbody d q. lia.
    + rewrite dec_go_acc. unfold dec_value in *. rewrite fold_left_app.
      rewrite IH.
      * cbn [fold_left].
        set (d := n mod 10) in *. set (q := n / 10) in *. clearbody d q. lia.
      * rewrite Nat2N.inj_succ, N.pow_succ_r' in Hn.
        apply N.Div0.div_lt_upper_bound. lia.
Qed.

Lemma Z_to_js_value (k : nat) :
  dec_value 0 (Z_to_js (Z.of_nat k)) = N.of_nat k.
Proof.
  unfold Z_to_js.
  replace (Z.of_nat k <? 0)%Z with false by (symmetry; apply Z.ltb_ge; lia).
  cbn [app]. rewrite Z.abs_eq by lia.
  replace (Z.to_N (Z.of_nat k)) with (N.of_nat k) by lia.
  apply dec_go_value. rewrite Nat2N.inj_succ, N2Nat.id.
  destruct (N.eq_dec (N.of_nat k) 0) as [->|Hk]; [reflexivity|].
  apply N.log2_spec. lia.
Qed.

Lemma Z_to_js_inj (j k : nat) :
  Z_to_js (Z.of_nat j) = Z_to_js (Z.of_nat k) -> j = k.
Proof.
  intros H. apply (f_equal (dec_value 0)) in H.
  rewrite !Z_to_js_value in H. lia.
Qed.

Lemma two_digits (z : Z) :
  (0 <= z <= 99)%Z -> length (padStart2 (Z_to_js z)) = 2%nat.
Proof.
  intros Hz.
  assert (Hall : forallb
                   (fun k => Nat.eqb
                               (length (padStart2 (Z_to_js (Z.of_nat k)))) 2)
                   (seq 0 100) = true) by (vm_compute; reflexivity).
  rewrite forallb_forall in Hall.
  specialize (Hall (Z.to_nat z)). rewrite Z2Nat.id in Hall by lia.
  apply Nat.eqb_eq, Hall, in_seq. lia.
Qed.

Lemma numeral_length (z : Z) :
  (z < 0 \/ 10 <= z)%Z -> (2 <= length (Z_to_js z))%nat.
Proof.
  intros Hz. unfold Z_to_js. rewrite length_app.
  set (n := Z.to_N (Z.abs z)).
  destruct (z <? 0)%Z eqn:Hneg.
  - cbn [length dec_go]. destruct (n / 10 =? 0); [simpl; lia|].
    pose proof (dec_go_length (N.to_nat (N.log2 n)) (n / 10)
                  [48 + n mod 10]) as H. simpl in H. lia.
  - apply Z.ltb_ge in Hneg.
    assert (Hn : 10 <= n) by (unfold n; lia).
    assert (Hlog : 3 <= N.log2 n).
    { change 3 with (N.log2 8). apply N.log2_le_mono. lia. }
    destruct (N.to_nat (N.log2 n)) as [|fuel] eqn:Hfuel; [lia|].
    cbn [dec_go length].
    assert (Hq : (n / 10 =? 0) = false).
    { apply N.eqb_neq. intros Hq.
      pose proof (N.div_mod n 10 ltac:(discriminate)) as Hdiv.
      pose proof (N.mod_upper_bound n 10 ltac:(discriminate)) as Hmod.
      set (d := n mod 10) in *. set (q := n / 10) in *. clearbody d q. lia. }
    rewrite Hq. destruct (n / 10 / 10 =? 0); [simpl; lia|].
    pose proof (dec_go_length fuel (n / 10 / 10)
                  [48 + (n / 10) mod 10; 48 + n mod 10]) as H.
    simpl in H. lia.
Qed.

(** X17: a time stamp that [formatTimestamp] prints holds digits, hyphens
    and the letter T only, so no slash, no colon and no white space; for a
    date whose year is not one of the years 0 to 9 it has the 17
    characters of dd-mm-yyThh-mm-ss. *)
Theorem timestamp_shape (d : local_date) :
  forallb stamp_char (formatTimestamp d) = true
  /\ (dated d -> length (formatTimestamp d) = 17%nat).
Proof.
  unfold formatTimestamp. split.
  - rewrite !forallb_app, !padStart2_stamp.
    unfold slice_last2.
    rewrite (forallb_drop stamp_char _ _
               (numeral_is_stamp _ (Z_to_js_numeral (getFullYear d)))).
    reflexivity.
  - intros (Hday & Hmonth & Hhours & Hminutes & Hseconds & Hyear).
    rewrite !length_app, !two_digits by lia.
    unfold slice_last2. rewrite length_drop.
    pose proof (numeral_length _ Hyear). simpl. lia.
Qed.

Lemma timestamp_shape_witness :
  dated second_of_january
  /\ length (formatTimestamp second_of_january) = 17%nat
  /\ formatTimestamp second_of_january = js "02-01-26T03-04-05".
Proof.
  assert (Hdated : dated second_of_january)
    by (vm_compute; intuition congruence).
  split; [exact Hdated|]. split.
  - exact (proj2 (timestamp_shape second_of_january) Hdated).
  - vm_compute. reflexivity.
Defined.

Lemma eqb_app_longer (p x : jsstring) (c : N) : eqb p (p ++ c :: x) = false.
Proof.
  induction p as [|a p IH]; [reflexivity|]. simpl.
  rewrite IH. apply andb_false_r.
Qed.

Lemma skipped_in_context summaryFileName folderPath (rest : jsstring) :
  skipped_file summaryFileName folderPath
    (getContextPath folderPath ++ js "/" ++ rest) = true.
Proof.
  unfold skipped_file, contextPath.
  rewrite app_assoc, LineFacts.startsWith_app.
  rewrite orb_true_r. reflexivity.
Qed.



Lemma find_none (v : vault) (p : jsstring) :
  getAbstractFileByPath v p = None <-> ~ In p (fst <$> v).
Proof.
  unfold getAbstractFileByPath. induction v as [|[q b] v IH]; simpl.
  - tauto.
  - destruct (eqb q p) eqn:Hq; simpl.
    + apply eqb_eq in Hq. split; [discriminate|]. intros H. destruct H.
      left. exact Hq.
    + apply eqb_neq in Hq. rewrite IH. tauto.
Qed.

Lemma find_created (v : vault) (c p : jsstring) (b : bool) :
  eqb c p = false ->
  getAbstractFileByPath (v ++ [(c, b)]) p = getAbstractFileByPath v p.
Proof.
  intros Hc. unfold getAbstractFileByPath.
  induction v as [|[q b'] v IH]; simpl.
  - rewrite Hc. reflexivity.
  - destruct (eqb q p); [reflexivity|exact IH].
Qed.

Lemma candidate_inj (prefix timestamp : jsstring) (j k : nat) :
  candidate prefix timestamp j = candidate prefix timestamp k -> j = k.
Proof.
  unfold candidate. destruct j as [|j], k as [|k]; auto; intros H;
    apply app_inv_head in H; apply app_inv_head in H;
    apply app_inv_head in H; try discriminate.
  change (js "-" ++ ?x) with (45 :: x) in H. injection H as H.
  apply app_inv_tail in H. apply Z_to_js_inj in H. exact H.
Qed.

Lemma free_path_spec (v : vault) (prefix timestamp : jsstring)
    (turns k : nat) :
  match
    free_path turns v prefix timestamp (candidate prefix timestamp k)
      (Z.of_nat (S k))
  with
  | Some p =>
      exists j,
        p = candidate prefix timestamp j
        /\ getAbstractFileByPath v p = None
        /\ forall i, (k <= i < j)%nat ->
             getAbstractFileByPath v (candidate prefix timestamp i) <> None
  | None =>
      forall i, (k <= i < k + turns)%nat ->
        getAbstractFileByPath v (candidate prefix timestamp i) <> None
  end.
Proof.
  revert k; induction turns as [|turns IH]; intros k; cbn [free_path].
  - intros i Hi. lia.
  - destruct (getAbstractFileByPath v (candidate prefix timestamp k))
      as [b|] eqn:Hk.
    + specialize (IH (S k)).
      change (prefix ++ js "ai-response-" ++ timestamp ++ js "-"
                ++ Z_to_js (Z.of_nat (S k)) ++ js ".md")
        with (candidate prefix timestamp (S k)).
      replace (Z.of_nat (S k) + 1)%Z with (Z.of_nat (S (S k))) by lia.
      destruct (free_path turns v prefix timestamp _ _) as [p|].
      * destruct IH as (j & Hp & Hfree & Hbefore).
        exists j. repeat split; auto. intros i Hi.
        destruct (Nat.eq_dec i k) as [->|Hne]; [congruence|].
        apply Hbefore. lia.
      * intros i Hi.
        destruct (Nat.eq_dec i k) as [->|Hne]; [congruence|].
        apply IH. lia.
    + exists k. repeat split; auto. intros i Hi. lia.
Qed.

Lemma find_some (v : vault) (p : jsstring) :
  getAbstractFileByPath v p <> None -> In p (fst <$> v).
Proof.
  unfold getAbstractFileByPath. induction v as [|[q b] v IH]; simpl.
  - congruence.
  - destruct (eqb q p) eqn:Hq; simpl.
    + apply eqb_eq in Hq. auto.
    + auto.
Qed.

Lemma free_path_found (v : vault) (prefix timestamp : jsstring) :
  free_path (S (length v)) v prefix timestamp
    (candidate prefix timestamp 0) 1 <> None.
Proof.
  pose proof (free_path_spec v prefix timestamp (S (length v)) 0) as H.
  change (Z.of_nat 1) with 1%Z in H.
  destruct (free_path _ _ _ _ _ _) as [p|]; [discriminate|].
  intros _.
  assert (Hincl : incl (candidate prefix timestamp <$> seq 0 (S (length v)))
                    (fst <$> v)).
  { intros p Hp. apply in_map_iff in Hp as (i & <- & Hi).
    apply in_seq in Hi. apply find_some, H. lia. }
  apply NoDup_incl_length in Hincl.
  - rewrite !length_fmap, length_seq in Hincl. lia.
  - assert (Hinj : Inj (=) (=) (candidate prefix timestamp))
      by (intros j k; apply candidate_inj).
    apply NoDup_ListNoDup, (NoDup_fmap_2 _), NoDup_seq.
Qed.

(** X19: [saveAssistantResponse] never writes over what the vault holds:
    it throws only when the context path holds something that is not a
    folder; otherwise its loop ends, and the file is created under the
    context folder at the first path that is free among the base name
    and the names indexed 1, 2 and so on. *)
Theorem saved_response_is_new (v : vault) (folderPath : jsstring)
    (now : local_date) :
  match saveAssistantResponse v folderPath now with
  | Throw _ =>
      getAbstractFileByPath v (getContextPath folderPath) = Some false
  | Ok None => False
  | Ok (Some (v', p)) =>
      exists k,
        p = candidate (getContextPath folderPath ++ js "/")
              (formatTimestamp now) k
        /\ getAbstractFileByPath v p = None
        /\ (forall i, (i < k)%nat ->
              getAbstractFileByPath v
                (candidate (getContextPath folderPath ++ js "/")
                   (formatTimestamp now) i) <> None)
        /\ getAbstractFileByPath v' p = Some false
        /\ forall q, getAbstractFileByPath v q <> None ->
                     getAbstractFileByPath v' q = getAbstractFileByPath v q
  end.
Proof.
  unfold saveAssistantResponse, ensureContextFolder, ensureFolderExists.
  set (context := getContextPath folderPath).
  set (prefix := context ++ js "/").
  set (timestamp := formatTimestamp now).
  assert (Hother : forall k, eqb context (candidate prefix timestamp k)
                             = false).
  { intros k. unfold candidate, prefix.
    destruct k; rewrite <- !app_assoc; apply eqb_app_longer. }
  assert (Hkeep : forall (w : vault) entry q,
            getAbstractFileByPath w q <> None ->
            getAbstractFileByPath (w ++ [entry]) q
            = getAbstractFileByPath w q).
  { intros w entry q. unfold getAbstractFileByPath.
    induction w as [|[x b] w IH]; simpl; [congruence|].
    destruct (eqb x q); [reflexivity|exact IH]. }
  assert (Hnew : forall (w : vault) q b,
            getAbstractFileByPath w q = None ->
            getAbstractFileByPath (w ++ [(q, b)]) q = Some b).
  { intros w q b. unfold getAbstractFileByPath.
    induction w as [|[x b'] w IH]; simpl.
    - rewrite eqb_refl. reflexivity.
    - destruct (eqb x q); [discriminate|exact IH]. }
  assert (Hrun : forall w : vault,
            (forall k,
               getAbstractFileByPath w (candidate prefix timestamp k)
               = getAbstractFileByPath v (candidate prefix timestamp k)) ->
            (forall q, getAbstractFileByPath v q <> None ->
                       getAbstractFileByPath w q = getAbstractFileByPath v q) ->
            match
              match free_path (S (length w)) w prefix timestamp
                      (prefix ++ js "ai-response-" ++ timestamp ++ js ".md") 1
              with
              | Some filePath => Some (w ++ [(filePath, false)], filePath)
              | None => None
              end
            with
            | None => False
            | Some (v', p) =>
                exists k,
                  p = candidate prefix timestamp k
                  /\ getAbstractFileByPath v p = None
                  /\ (forall i, (i < k)%nat ->
                        getAbstractFileByPath v (candidate prefix timestamp i)
                        <> None)
                  /\ getAbstractFileByPath v' p = Some false
                  /\ forall q, getAbstractFileByPath v q <> None ->
                               getAbstractFileByPath v' q
                               = getAbstractFileByPath v q
            end).
  { intros w Hsame Hold.
    pose proof (free_path_found w prefix timestamp) as Hfound.
    pose proof (free_path_spec w prefix timestamp (S (length w)) 0) as Hspec.
    change (Z.of_nat 1) with 1%Z in Hspec.
    change (candidate prefix timestamp 0)
      with (prefix ++ js "ai-response-" ++ timestamp ++ js ".md")
      in Hfound, Hspec.
    destruct (free_path _ _ _ _ _ _) as [p|]; [|congruence].
    destruct Hspec as (k & -> & Hfree & Hbefore).
    exists k. repeat split.
    - rewrite <- Hsame. exact Hfree.
    - intros i Hi. rewrite <- Hsame. apply Hbefore. lia.
    - apply Hnew, Hfree.
    - intros q Hq. rewrite Hkeep; [apply Hold, Hq|].
      rewrite (Hold q Hq). exact Hq. }
  destruct (getAbstractFileByPath v context) as [[|]|] eqn:Hcontext.
  - cbn [mbind]. apply Hrun; auto.
  - reflexivity.
  - cbn [mbind]. apply Hrun.
    + intros k. apply find_created, Hother.
    + intros q Hq. apply Hkeep, Hq.
Qed.

(** The third response of that second, in a vault that holds two. *)
Example third_response_path :
  snd <$> default None (match saveAssistantResponse busy_vault (js "notes")
                                second_of_january with
                        | Ok saved => Some saved
                        | Throw _ => None
                        end)
  = Some (js "notes/4senseContext/ai-response-02-01-26T03-04-05-2.md").
Proof. vm_compute. reflexivity. Qed.

End OutputsFacts.

(** ** The payload of a summary *)

Module SummaryFacts.
Import Transport TransportSpec Files FilesSpec FilesFacts Summary SummarySpec.

Section Host.

Variable e : env.
Variable read : VFile -> result jsstring.
Variable readBinary : VFile -> result (list N).
Variable btoa : jsstring -> jsstring.
Variable requestUrl : VFile -> result http_response.

Lemma transcript_not_empty (f : VFile) (transcript : jsstring) :
  callTranscriptionApi e readBinary requestUrl f = Ok transcript ->
  transcript <> [] /\ isSupportedAudioFile f = true.
Proof.
  unfold callTranscriptionApi.
  destruct (bool_decide (apiHost e = [])); [discriminate|].
  destruct (buildApiUrl e (apiTranscriptionPath e)) as [url|];
    [|discriminate].
  cbn [mbind result_bind bind].
  destruct (readBinary f) as [bytes|]; [|discriminate].
  cbn [mbind result_bind bind].
  destruct (getAudioContentType f) as [contentType|] eqn:Htype;
    [|discriminate].
  cbn [mbind result_bind bind].
  destruct (requestJson (requestUrl f)) as [answer|]; [|discriminate].
  cbn [mbind result_bind bind].
  intros H. split; [|eapply content_type_supported; eauto].
  revert H.
  set (found := match answer with
                | Val (JObj _ as o) | Val (JArr _ as o) => _
                | _ => _
                end).
  clearbody found.
  destruct found as [value|]; cbn [mbind result_bind bind]; [|discriminate].
  destruct (as_string value) as [[|c s]|]; try discriminate.
  intros [= <-]. discriminate.
Qed.

Lemma build_one_describes total imageSet st st' (f : VFile) :
  has imageSet (path f) = isImageFile f ->
  build_one e read readBinary btoa requestUrl total imageSet st f = Ok st' ->
  exists new,
    filePayloads st' = filePayloads st ++ new
    /\ Forall2 describes new (if included f then [f] else [])
    /\ audioIndex st'
       = (audioIndex st + if isSupportedAudioFile f then 1 else 0)%Z
    /\ length (steps st')
       = (length (steps st) + if announced f then 1 else 0)%nat.
Proof.
  intros Himage. unfold build_one, included, announced. rewrite Himage.
  pose proof (markdown_is_plain f) as Hmd.
  pose proof (image_is_no_audio f) as Him.
  destruct (isMarkdownFile f) eqn:Hmarkdown.
  - destruct Hmd as (Hs & _ & Hi); [reflexivity|]. rewrite Hs, Hi.
    destruct (read f) as [content|]; [|discriminate].
    cbn [mbind result_bind bind orb]. intros [= <-].
    eexists. cbn [filePayloads audioIndex steps].
    split; [reflexivity|]. split; [|split; [lia|lia]].
    constructor; [|constructor]. unfold describes.
    cbn [payload_path kind].
    destruct (isExcalidrawFile f) eqn:Hex; cbn [of_payload_kind];
      rewrite Hmarkdown, Hex; repeat split; discriminate.
  - destruct (isImageFile f) eqn:Himg.
    + destruct Him as (Hs & _); [reflexivity|]. rewrite Hs.
      destruct (MAX_IMAGE_BYTES <? size f)%Z.
      * intros [= <-]. exists []. cbn [filePayloads audioIndex steps].
        cbn [orb andb negb].
        rewrite app_nil_r, length_app. repeat split; [constructor|lia].
      * destruct (readBinary f) as [bytes|]; [|discriminate].
        cbn [mbind result_bind bind orb andb negb]. intros [= <-].
        eexists. cbn [filePayloads audioIndex steps].
        split; [reflexivity|]. rewrite length_app.
        split; [|split; [lia|reflexivity]].
        constructor; [|constructor]. unfold describes.
        cbn [payload_path kind of_payload_kind].
        repeat split; [exact Himg|discriminate].
    + destruct (isSupportedAudioFile f) eqn:Hsupported.
      * destruct (callTranscriptionApi e readBinary requestUrl f)
          as [transcript|] eqn:Hcall; [|discriminate].
        destruct (transcript_not_empty _ _ Hcall) as (Hne & _).
        cbn [mbind result_bind bind orb andb negb].
        destruct transcript as [|c transcript]; [congruence|].
        change (negb (0 <? length (c :: transcript))%nat) with false.
        cbv iota. intros [= <-].
        eexists. cbn [filePayloads audioIndex steps].
        split; [reflexivity|]. rewrite length_app.
        split; [|split; reflexivity].
        constructor; [|constructor]. unfold describes.
        cbn [payload_path kind of_payload_kind payload_content].
        repeat split; [exact Hsupported|discriminate].
      * intros [= <-]. exists []. cbn [orb andb negb].
        rewrite app_nil_r. repeat split; [constructor|lia|lia].
Qed.

Lemma build_loop_describes total imageSet (orderedFiles : list VFile) :
  (forall f, In f orderedFiles -> has imageSet (path f) = isImageFile f) ->
  forall st st',
    build_loop e read readBinary btoa requestUrl total imageSet
      orderedFiles st = Ok st' ->
    exists new,
      filePayloads st' = filePayloads st ++ new
      /\ Forall2 describes new (List.filter included orderedFiles)
      /\ audioIndex st'
         = (audioIndex st
            + Z.of_nat (length (List.filter isSupportedAudioFile
                                  orderedFiles)))%Z
      /\ length (steps st')
         = (length (steps st)
            + length (List.filter announced orderedFiles))%nat.
Proof.
  induction orderedFiles as [|f rest IH]; intros Himage st st'.
  - intros [= <-]. exists []. rewrite app_nil_r.
    repeat split; [constructor|simpl; lia|simpl; lia].
  - cbn [build_loop].
    destruct (build_one e read readBinary btoa requestUrl total imageSet
                st f) as [st1|] eqn:Hone; [|discriminate].
    cbn [mbind result_bind bind]. intros Hrest.
    destruct (build_one_describes _ _ _ _ _ (Himage f (or_introl eq_refl))
                Hone) as (new1 & Hp1 & Hd1 & Ha1 & Hs1).
    destruct (IH (fun g Hg => Himage g (or_intror Hg)) _ _ Hrest)
      as (new2 & Hp2 & Hd2 & Ha2 & Hs2).
    exists (new1 ++ new2). cbn [List.filter].
    rewrite Hp2, Hp1, Ha2, Ha1, Hs2, Hs1, <- app_assoc.
    split; [reflexivity|]. split; [|split].
    + replace (if included f then f :: List.filter included rest
               else List.filter included rest)
        with ((if included f then [f] else [])
                ++ List.filter included rest)
        by (destruct (included f); reflexivity).
      apply Forall2_app; assumption.
    + destruct (isSupportedAudioFile f); cbn [length]; lia.
    + destruct (announced f); cbn [length]; lia.
Qed.

Lemma same_path_same_file (scanned : list VFile) (f g : VFile) :
  NoDup (path <$> scanned) ->
  In f scanned -> In g scanned -> path f = path g -> f = g.
Proof.
  induction scanned as [|x scanned IH]; intros Hnd Hf Hg Hp; [destruct Hf|].
  rewrite fmap_cons in Hnd. apply NoDup_cons in Hnd as [Hx Hnd].
  assert (Hin : forall h, In h scanned -> path h ∈ path <$> scanned).
  { intros h Hh. apply list_elem_of_fmap_2, list_elem_of_In, Hh. }
  destruct Hf as [<-|Hf], Hg as [<-|Hg]; auto.
  - destruct Hx. rewrite Hp. apply Hin, Hg.
  - destruct Hx. rewrite <- Hp. apply Hin, Hf.
Qed.

Lemma image_set_has (scanned : list VFile) (f : VFile) :
  NoDup (path <$> scanned) -> In f scanned ->
  has (path <$> List.filter isImageFile scanned) (path f) = isImageFile f.
Proof.
  intros Hnd Hf. destruct (isImageFile f) eqn:Himg.
  - apply has_In. apply in_map_iff. exists f.
    split; [reflexivity|]. apply filter_In. auto.
  - destruct (has _ _) eqn:Hhas; [|reflexivity].
    apply has_In, in_map_iff in Hhas as (g & Hp & Hg).
    apply filter_In in Hg as (Hg & Hgi).
    rewrite (same_path_same_file scanned f g Hnd Hf Hg) in Himg by auto.
    congruence.
Qed.

(** X20: the payload that [summarizeFolder] sends, when it is built, has
    one entry for each markdown file, each supported audio file and each
    image of at most 10 MiB among the scanned files, in their order, each
    with the path and the kind of its file, and no others; a transcript
    in it is never empty; the count of the audio steps ends at the total
    that the steps show, and each image and audio file has one step. *)
Theorem summary_payload_describes_files (folder : jsstring)
    (scanned : list VFile) (payload : SummaryPayload) :
  NoDup (path <$> scanned) ->
  summary_payload e read readBinary btoa requestUrl folder scanned
  = Ok payload ->
  folderPath payload = folder
  /\ Forall2 describes (files payload) (List.filter included scanned)
  /\ exists st,
       build_loop e read readBinary btoa requestUrl
         (Z.of_nat (length (audioFiles (splitFiles scanned))))
         (path <$> imageFiles (splitFiles scanned)) scanned
         (mkBuild [] 0 [])
       = Ok st
       /\ files payload = filePayloads st
       /\ audioIndex st
          = Z.of_nat (length (audioFiles (splitFiles scanned)))
       /\ length (steps st) = length (List.filter announced scanned).
Proof.
  intros Hnd. unfold summary_payload, buildSummaryPayload.
  assert (Hsplit : audioFiles (splitFiles scanned)
                   = List.filter isSupportedAudioFile scanned
                   /\ imageFiles (splitFiles scanned)
                      = List.filter isImageFile scanned).
  { unfold splitFiles. rewrite split_fold. cbn [audioFiles imageFiles app].
    split; apply List.filter_ext; intros f; apply kind_of_cases. }
  destruct Hsplit as (-> & ->).
  destruct (build_loop _ _ _ _ _ _ _ _ _) as [st|] eqn:Hloop;
    [|discriminate].
  cbn [mbind result_bind bind]. intros [= <-].
  destruct (build_loop_describes _ _ _
              (fun f Hf => image_set_has scanned f Hnd Hf) _ _ Hloop)
    as (new & Hp & Hd & Ha & Hs).
  cbn [filePayloads audioIndex steps app length] in Hp, Ha, Hs.
  cbn [folderPath files]. rewrite Hp.
  split; [reflexivity|]. split; [exact Hd|].
  exists st. rewrite Hp. repeat split; [exact Ha|exact Hs].
Qed.

End Host.

Lemma summary_payload_describes_files_witness :
  exists payload,
    summary_payload TransportSpec.demo_env demo_read demo_readBinary
      demo_btoa demo_requestUrl (js "n") scanned_demo = Ok payload
    /\ folderPath payload = js "n"
    /\ Forall2 describes (files payload)
         (List.filter included scanned_demo).
Proof.
  destruct (summary_payload TransportSpec.demo_env demo_read
              demo_readBinary demo_btoa demo_requestUrl (js "n") scanned_demo)
    as [payload|] eqn:Hrun; [|vm_compute in Hrun; discriminate].
  exists payload. split; [reflexivity|].
  destruct (summary_payload_describes_files TransportSpec.demo_env
              demo_read demo_readBinary demo_btoa demo_requestUrl (js "n")
              scanned_demo payload)
    as (Hfolder & Hfiles & _).
  - repeat constructor; rewrite ?elem_of_cons, ?elem_of_nil;
      intros H; repeat destruct H as [H|H]; try discriminate; auto.
  - exact Hrun.
  - split; [exact Hfolder|exact Hfiles].
Defined.

End SummaryFacts.

(** ** Legacy JSON logs *)

Module LegacyFacts.
Import ChatLog LineSpec LineFacts ChatLogSpec AppendFacts LegacySpec.

Lemma json_ws_is_space (c : N) : is_json_ws c = true -> is_space c = true.
Proof.
  unfold is_json_ws. intros H.
  repeat (apply orb_true_iff in H as [H|H]);
    apply N.eqb_eq in H; subst; reflexivity.
Qed.

Lemma trim_cases (s : jsstring) :
  trim s = [] \/ exists c s', trim s = c :: s' /\ is_space c = false.
Proof.
  destruct (forallb is_space s) eqn:Hs.
  - left. unfold trim. rewrite (trimStart_spaces _ Hs). reflexivity.
  - right. destruct (trimStart_head _ Hs) as (c & s1 & Hs1 & Hc).
    destruct (trim_head c s1 Hc) as (s2 & Hs2).
    exists c, s2. split; [|exact Hc].
    unfold trim in *. rewrite Hs1.
    rewrite trimStart_nonspace in Hs2 by exact Hc. exact Hs2.
Qed.

Lemma skip_ws_trim (s : jsstring) : skip_ws (trim s) = trim s.
Proof.
  destruct (trim_cases s) as [->|(c & s' & -> & Hc)]; [reflexivity|].
  cbn [skip_ws]. destruct (is_json_ws c) eqn:Hws; [|reflexivity].
  rewrite (json_ws_is_space _ Hws) in Hc. discriminate.
Qed.

Lemma parse_members_object (fuel : nat) :
  forall acc s v rest,
    parse_members fuel acc s = Some (v, rest) -> exists fields, v = JObj fields.
Proof.
  induction fuel as [|fuel IH]; intros acc s v rest; [discriminate|].
  cbn [parse_members]. intros H.
  repeat match type of H with
         | match ?x with _ => _ end = _ => destruct x eqn:?; try discriminate
         | (if ?b then _ else _) = _ => destruct b eqn:?; try discriminate
         | (let '(_, _) := ?p in _) = _ => destruct p eqn:?
         end.
  - eapply IH; eauto.
  - injection H as <- <-. eauto.
Qed.

Lemma parse_elements_array (fuel : nat) :
  forall acc s v rest,
    parse_elements fuel acc s = Some (v, rest) -> exists items, v = JArr items.
Proof.
  induction fuel as [|fuel IH]; intros acc s v rest; [discriminate|].
  cbn [parse_elements]. intros H.
  repeat match type of H with
         | match ?x with _ => _ end = _ => destruct x eqn:?; try discriminate
         | (if ?b then _ else _) = _ => destruct b eqn:?; try discriminate
         | (let '(_, _) := ?p in _) = _ => destruct p eqn:?
         end.
  - eapply IH; eauto.
  - injection H as <- <-. eauto.
Qed.

Lemma parse_literal_atom (s : jsstring) v rest :
  parse_literal s = Some (v, rest) ->
  match v with JArr _ | JObj _ => False | _ => True end.
Proof.
  unfold parse_literal. intros H.
  repeat match type of H with
         | match ?x with _ => _ end = _ => destruct x eqn:?; try discriminate
         | (if ?b then _ else _) = _ => destruct b eqn:?; try discriminate
         | (let '(_, _) := ?p in _) = _ => destruct p eqn:?
         end; injection H as <- <-; exact I.
Qed.

(** The first character of a text that parses to an array or to an
    object, after white space. *)
Lemma parse_value_opening (fuel : nat) (s : jsstring) v rest :
  parse_value fuel s = Some (v, rest) ->
  match v with
  | JArr _ => exists r, skip_ws s = 91 :: r
  | JObj _ => exists r, skip_ws s = 123 :: r
  | _ => True
  end.
Proof.
  destruct fuel as [|fuel]; [discriminate|]. cbn [parse_value].
  destruct (skip_ws s) as [|c r]; [discriminate|].
  destruct (c =? 123) eqn:Hbrace.
  - apply N.eqb_eq in Hbrace. subst c.
    destruct (skip_ws r) as [|d r']; [discriminate|].
    destruct (d =? 125).
    + intros [= <- <-]. eauto.
    + intros H. destruct (parse_members_object _ _ _ _ _ H) as (f & ->).
      eauto.
  - destruct (c =? 91) eqn:Hbracket.
    + apply N.eqb_eq in Hbracket. subst c.
      destruct (skip_ws r) as [|d r']; [discriminate|].
      destruct (d =? 93).
      * intros [= <- <-]. eauto.
      * intros H. destruct (parse_elements_array _ _ _ _ _ H) as (f & ->).
        eauto.
    + destruct (c =? 34).
      * destruct (parse_chars [] r) as [[str r']|]; [|discriminate].
        intros [= <- <-]. exact I.
      * intros H. apply parse_literal_atom in H.
        destruct v; auto; contradiction.
Qed.

Lemma parsed_is_legacy_shaped (content : jsstring) (parsed : json) :
  JSON_parse (trim content) = Some parsed ->
  match parsed with
  | JArr _ => startsWith (js "[") (trim content) = true
  | JObj _ => startsWith (js "{") (trim content) = true
  | _ => True
  end.
Proof.
  unfold JSON_parse.
  destruct (parse_value _ _) as [[v rest]|] eqn:Hparse; [|discriminate].
  destruct (skip_ws rest); [|discriminate]. intros [= <-].
  apply parse_value_opening in Hparse. rewrite skip_ws_trim in Hparse.
  destruct v; auto; destruct Hparse as (r & ->); reflexivity.
Qed.

Lemma legacy_item_record D1 D2 (m : role * jsstring * option jsstring) :
  legacy_item D1 D2 (legacy_record m) = Ok (Some (legacy_entry D1 m)).
Proof. destruct m as [[[| |] text] [stamp|]]; reflexivity. Qed.

Lemma legacy_items_records D1 D2
    (records : list (role * jsstring * option jsstring)) :
  mapM (legacy_item D1 D2) (legacy_record <$> records)
  = Ok (Some <$> (legacy_entry D1 <$> records)).
Proof.
  induction records as [|m records IH]; [reflexivity|].
  rewrite !fmap_cons. cbn [mapM]. rewrite legacy_item_record, IH.
  reflexivity.
Qed.

Lemma omap_id_some {A} (l : list A) : omap id (Some <$> l) = l.
Proof.
  induction l as [|x l IH]; [reflexivity|].
  rewrite fmap_cons. cbn [omap list_omap id]. rewrite IH. reflexivity.
Qed.



End LegacyFacts.

(** ** Looking for an earlier chat history *)

Module HistoryFacts.
Import Files Vault VaultFacts ChatLog ChatLogSpec History HistorySpec.

Lemma sorted_suffix {A} (R : A -> A -> Prop) (l1 l2 : list A) :
  StronglySorted R (l1 ++ l2) -> StronglySorted R l2.
Proof.
  induction l1 as [|x l1 IH]; [auto|].
  intros H. inversion H; subst. auto.
Qed.

Section Host.

Variable Date_of_string : jsstring -> option jsstring.
Variable Date_of_ms : Q -> option jsstring.
Variable read : jsstring -> option jsstring.

Lemma loadChatEntries_returns (p : jsstring) :
  exists entries,
    loadChatEntries Date_of_string Date_of_ms read p = Ok entries.
Proof.
  unfold loadChatEntries. destruct (read p) as [content|]; [|eauto].
  unfold parseChatLog.
  destruct (_ || _); [|eauto].
  destruct (parse_legacy _ _ _) as [entries|]; cbn [try_catch]; eauto.
Qed.

Lemma history_loop_first (currentPath : jsstring) (candidates : list VFile) :
  match history_loop Date_of_string Date_of_ms read currentPath candidates
  with
  | Ok (Some (p, entries)) =>
      entries <> [] /\ p <> currentPath
      /\ loadChatEntries Date_of_string Date_of_ms read p = Ok entries
      /\ exists before f rest,
           candidates = before ++ f :: rest /\ path f = p
           /\ Forall (fun g => path g = currentPath
                               \/ loadChatEntries Date_of_string Date_of_ms
                                    read (path g) = Ok [])
                before
  | Ok None =>
      Forall (fun g => path g = currentPath
                       \/ loadChatEntries Date_of_string Date_of_ms read
                            (path g) = Ok [])
        candidates
  | Throw _ => False
  end.
Proof.
  induction candidates as [|file rest IH]; cbn [history_loop];
    [constructor|].
  destruct (eqb (path file) currentPath) eqn:Hcur.
  - apply eqb_eq in Hcur.
    destruct (history_loop _ _ _ _ rest) as [[[p entries]|]|];
      [|constructor; auto|exact IH].
    destruct IH as (Hne & Hp & Hload & before & f & rest' & -> & Hf & Hb).
    repeat split; auto. exists (file :: before), f, rest'.
    repeat split; auto.
  - apply eqb_neq in Hcur.
    destruct (loadChatEntries_returns (path file)) as (entries & Hload).
    rewrite Hload. cbn [mbind result_bind bind].
    destruct entries as [|entry entries].
    + cbn [length Nat.ltb Nat.leb].
      destruct (history_loop _ _ _ _ rest) as [[[p entries]|]|];
        [|constructor; auto|exact IH].
      destruct IH as (Hne & Hp & Hl & before & f & rest' & -> & Hf & Hb).
      repeat split; auto. exists (file :: before), f, rest'.
      repeat split; auto.
    + change (0 <? length (entry :: entries))%nat with true. cbv iota.
      repeat split; [discriminate|exact Hcur|exact Hload|].
      exists [], file, rest. repeat split; constructor.
Qed.

(** X22: [findChatHistory] does not throw when the vault reads the
    files.  The history it returns is not empty and comes from a
    candidate other than the current log, the newest of the candidates
    that have entries; it returns nothing exactly when no candidate other
    than the current log has entries. *)
Theorem history_is_newest_with_entries (folderPath : jsstring)
    (children : list TAbstractFile) (currentPath : jsstring)
    (includeJson : bool) :
  match
    findChatHistory Date_of_string Date_of_ms read folderPath children
      currentPath includeJson
  with
  | Ok (Some (p, entries)) =>
      entries <> [] /\ p <> currentPath
      /\ loadChatEntries Date_of_string Date_of_ms read p = Ok entries
      /\ exists f,
           In f (getChatLogCandidates folderPath children includeJson)
           /\ path f = p
           /\ forall g,
                In g (getChatLogCandidates folderPath children includeJson) ->
                path g <> currentPath ->
                loadChatEntries Date_of_string Date_of_ms read (path g)
                <> Ok [] ->
                (mtime g <= mtime f)%Z
  | Ok None =>
      forall g,
        In g (getChatLogCandidates folderPath children includeJson) ->
        path g <> currentPath ->
        loadChatEntries Date_of_string Date_of_ms read (path g) = Ok []
  | Throw _ => False
  end.
Proof.
  unfold findChatHistory.
  set (candidates := getChatLogCandidates folderPath children includeJson).
  set (before := fun a b : VFile => (mtime b <=? mtime a)%Z).
  pose proof (sort_by_perm before candidates) as Hperm.
  assert (Hsorted : StronglySorted (fun a b => (mtime b <= mtime a)%Z)
                      (sort_by before candidates))
    by (apply sort_by_sorted; unfold before; intros; lia).
  pose proof (history_loop_first currentPath (sort_by before candidates))
    as Hloop.
  destruct candidates as [|c cs] eqn:Hcs; [intros g []|].
  rewrite <- Hcs in *. clear Hcs c cs.
  destruct (history_loop _ _ _ _ _) as [[[p entries]|]|]; [| |exact Hloop].
  - destruct Hloop as (Hne & Hp & Hload & l1 & f & l2 & Hsplit & Hf & Hb).
    repeat split; auto. exists f. split; [|split; [exact Hf|]].
    + apply (Permutation_in f Hperm). rewrite Hsplit.
      apply in_or_app. right. left. reflexivity.
    + intros g Hg Hcur Hentries.
      apply (Permutation_in g (Permutation_sym Hperm)) in Hg.
      rewrite Hsplit in Hg, Hsorted.
      apply in_app_or in Hg as [Hg|[<-|Hg]].
      * rewrite List.Forall_forall in Hb.
        destruct (Hb g Hg) as [Hc|He]; [destruct (Hcur Hc)|
                                        destruct (Hentries He)].
      * lia.
      * apply sorted_suffix in Hsorted.
        inversion Hsorted as [|? ? _ Hall]; subst.
        rewrite List.Forall_forall in Hall. apply Hall, Hg.
  - intros g Hg Hcur.
    apply (Permutation_in g (Permutation_sym Hperm)) in Hg.
    rewrite List.Forall_forall in Hloop.
    destruct (Hloop g Hg) as [Hc|He]; [destruct (Hcur Hc)|exact He].
Qed.

End Host.

(** The archived log is the history found for the empty current log,
    though the legacy log is searched too. *)
Example archived_history_found :
  findChatHistory no_date no_date archive_read (js "n") archive_tree
    (js "n/4senseContext/chat-3.md") true
  = Ok (Some (js "n/4senseContext-01/chat-2.md",
              [mkEntry User (js "Hi")
                 (Some (js "2026-01-01T00:00:00.000Z"))])).
Proof. vm_compute. reflexivity. Qed.

End HistoryFacts.
